(** * Haze: the phonetic transformation engine of [phonetic_fuzzer.py]

    A shallow embedding of class [Hazer] and proofs about it.

    Conventions of the embedding.
    - A Python [str] is a list of Unicode code points ([list N]); literals are
      written as UTF-8 and decoded by [U].
    - [str.upper], [str.lower], [str.isalpha], [str.isspace] and the regex
      class [\w] follow CPython for the code points below U+0180 (Basic Latin,
      Latin-1 Supplement, Latin Extended-A; every character of the embedded
      vocabularies lies there).  Above that range letters are not modelled:
      such code points are caseless non-letters here.
    - A Python [float] is an exact rational, extended by the two infinities
      ([fnum]); rounding is not modelled.
    - [difflib.SequenceMatcher(None, a, b).ratio()], the HTTP client, the
      translation client and the text-generation client are library code and
      are fields of the record [env].
    - Methods that touch [self.word_lists] or may raise run in the monad [M]:
      a state transformer over the cache with an exception result. *)

From Stdlib Require Import String Ascii List NArith ZArith QArith Qabs Qminmax Lqa Bool Lia.
From stdpp Require Import base option list gmap.
Import ListNotations.
Local Open Scope N_scope.

(** ** Python strings *)

Abbreviation char := N (only parsing).
Abbreviation str := (list N) (only parsing).

Fixpoint utf8_go (need : nat) (acc : N) (bs : list N) : list N :=
  match bs with
  | [] => []
  | b :: bs' =>
    match need with
    | O =>
      if b <? 128 then b :: utf8_go 0 0 bs'
      else if b <? 224 then utf8_go 1 (b - 192) bs'
      else if b <? 240 then utf8_go 2 (b - 224) bs'
      else utf8_go 3 (b - 240) bs'
    | S O => (acc * 64 + (b - 128)) :: utf8_go 0 0 bs'
    | S n => utf8_go n (acc * 64 + (b - 128)) bs'
    end
  end.

(** [U "..."] is the Python string written between the quotes. *)
Definition U (s : string) : str :=
  utf8_go 0 0 (map N_of_ascii (list_ascii_of_string s)).

(** [ch "x"] is the one-character string's character. *)
Definition ch (s : string) : char := hd 0 (U s).

Definition between (lo hi c : N) : bool := (lo <=? c) && (c <=? hi).

Definition str_eqb (a b : str) : bool := bool_decide (a = b).

(** *** Character classes *)

(** [c.isalpha()] *)
Definition isalpha_c (c : char) : bool :=
  between 65 90 c || between 97 122 c
  || (c =? 170) || (c =? 181) || (c =? 186)
  || between 192 214 c || between 216 246 c || between 248 383 c.

(** a character with a numeric value: [isdecimal], [isdigit] or [isnumeric] *)
Definition isnumeric_c (c : char) : bool :=
  between 48 57 c || (c =? 178) || (c =? 179) || (c =? 185) || between 188 190 c.

(** the regex class [\w]: alphanumeric or underscore *)
Definition is_word (c : char) : bool :=
  isalpha_c c || isnumeric_c c || (c =? 95).

(** [c.isspace()] *)
Definition isspace_c (c : char) : bool :=
  between 9 13 c || between 28 32 c || (c =? 133) || (c =? 160)
  || (c =? 5760) || between 8192 8202 c || (c =? 8232) || (c =? 8233)
  || (c =? 8239) || (c =? 8287) || (c =? 12288).

(** [s.isalpha()]: non-empty and every character alphabetic *)
Definition isalpha (s : str) : bool :=
  match s with
  | [] => false
  | _ => forallb isalpha_c s
  end.

(** *** Case mapping *)

Definition upper_c (c : char) : str :=
  if between 97 122 c then [c - 32]
  else if c =? 181 then [924]
  else if c =? 223 then [83; 83]
  else if between 224 246 c || between 248 254 c then [c - 32]
  else if c =? 255 then [376]
  else if between 256 303 c then (if N.odd c then [c - 1] else [c])
  else if c =? 305 then [73]
  else if between 306 311 c then (if N.odd c then [c - 1] else [c])
  else if between 313 328 c then (if N.even c then [c - 1] else [c])
  else if c =? 329 then [700; 78]
  else if between 330 375 c then (if N.odd c then [c - 1] else [c])
  else if between 377 382 c then (if N.even c then [c - 1] else [c])
  else if c =? 383 then [83]
  else [c].

Definition lower_c (c : char) : str :=
  if between 65 90 c then [c + 32]
  else if between 192 214 c || between 216 222 c then [c + 32]
  else if between 256 303 c then (if N.even c then [c + 1] else [c])
  else if c =? 304 then [105; 775]
  else if between 306 311 c then (if N.even c then [c + 1] else [c])
  else if between 313 328 c then (if N.odd c then [c + 1] else [c])
  else if between 330 375 c then (if N.even c then [c + 1] else [c])
  else if c =? 376 then [255]
  else if between 377 382 c then (if N.odd c then [c + 1] else [c])
  else [c].

(** [s.upper()] and [s.lower()] *)
Definition upper (s : str) : str := flat_map upper_c s.
Definition lower (s : str) : str := flat_map lower_c s.

(** *** Searching and slicing *)

Fixpoint starts_with (p s : str) : bool :=
  match p, s with
  | [], _ => true
  | _ :: _, [] => false
  | a :: p', b :: s' => (a =? b) && starts_with p' s'
  end.

(** [s.replace(old, new)] for a non-empty [old]: leftmost occurrences, not
    overlapping.  [skip] counts the characters of a replaced occurrence that
    are still to be passed over. *)
Fixpoint replace_from (old new : str) (skip : nat) (s : str) : str :=
  match s with
  | [] => []
  | c :: s' =>
    match skip with
    | S k => replace_from old new k s'
    | O =>
      if starts_with old s
      then new ++ replace_from old new (Nat.pred (length old)) s'
      else c :: replace_from old new 0 s'
    end
  end.

Definition replace (old new s : str) : str := replace_from old new 0 s.

(** [s[-1]] of a non-empty string, as a one-character-or-empty string *)
Definition last_char (s : str) : option char := last s.

(** [sep.join(parts)] *)
Fixpoint join (sep : str) (parts : list str) : str :=
  match parts with
  | [] => []
  | [p] => p
  | p :: rest => p ++ sep ++ join sep rest
  end.

(** ** Phonetic encoder *)

(** The dictionary [mapping] of [soundex]. *)
Definition mapping : list (char * char) :=
  [ (ch "B", ch "1"); (ch "F", ch "1"); (ch "P", ch "1"); (ch "V", ch "1");
    (ch "C", ch "2"); (ch "G", ch "2"); (ch "J", ch "2"); (ch "K", ch "2");
    (ch "Q", ch "2"); (ch "S", ch "2"); (ch "X", ch "2"); (ch "Z", ch "2");
    (ch "D", ch "3"); (ch "T", ch "3");
    (ch "L", ch "4");
    (ch "M", ch "5"); (ch "N", ch "5");
    (ch "R", ch "6") ].

Fixpoint dict_get {V : Type} (k : char) (d : list (char * V)) : option V :=
  match d with
  | [] => None
  | (k', v) :: d' => if k =? k' then Some v else dict_get k d'
  end.

(** The loop [for char in word[1:]] of [soundex]; [code] is [soundex_code]. *)
Fixpoint soundex_loop (code : str) (rest : str) : str :=
  match rest with
  | [] => code
  | c :: rest' =>
    match dict_get c mapping with
    | Some d =>
      if negb (bool_decide (Some d = last_char code))
      then soundex_loop (code ++ [d]) rest'
      else soundex_loop code rest'
    | None => soundex_loop code rest'
    end
  end.

Definition soundex (word : str) : str :=
  match word with
  | [] => U "0000"
  | _ =>
    let word := upper word in
    let soundex_code := firstn 1 word in
    let soundex_code := soundex_loop soundex_code (skipn 1 word) in
    firstn 4 (soundex_code ++ U "0000")
  end.

(** The loop of [metaphone_simple]; [prev] is [prev_char] ([None] for the
    initial empty string). *)
Fixpoint metaphone_loop (metaphone : str) (prev : option char) (word : str) : str :=
  match word with
  | [] => metaphone
  | c :: word' =>
    let metaphone :=
      if bool_decide (c ∈ U "AEIOU") then
        (match metaphone with [] => metaphone ++ [c] | _ => metaphone end)
      else if negb (bool_decide (Some c = prev)) then metaphone ++ [c]
      else metaphone in
    metaphone_loop metaphone (Some c) word'
  end.

Definition metaphone_simple (word : str) : str :=
  match word with
  | [] => []
  | _ =>
    let word := replace (U "GH") (U "F") (replace (U "PH") (U "F") (upper word)) in
    let word := replace (U "SCH") (U "SK") (replace (U "CK") (U "K") word) in
    firstn 6 (metaphone_loop [] None word)
  end.

(** ** Regular expressions used by the pipeline

    The matchers are written over the character class [wordc] that plays
    the part of [\w]; the pipeline uses them with [is_word]. *)

Section Regex.

Variable wordc : char -> bool.

Definition is_word_at (c : option char) : bool :=
  match c with
  | Some c => wordc c
  | None => false
  end.

(** [\b] holds between [prev] and [next] ([None] beyond either end). *)
Definition boundary (prev next : option char) : bool :=
  xorb (is_word_at prev) (is_word_at next).

(** [\w+\b] at the head of [s]: the greedy [\w+] takes one more character
    first and gives it back when the rest of the pattern fails.  The result
    is the matched text and what follows it. *)
Fixpoint match_w_plus_b (s : str) : option (str * str) :=
  match s with
  | [] => None
  | c :: s' =>
    if wordc c then
      match match_w_plus_b s' with
      | Some (m, r) => Some (c :: m, r)
      | None => if boundary (Some c) (head s') then Some ([c], s') else None
      end
    else None
  end.

(** [\W+] at the head of [s], greedy. *)
Fixpoint match_W_plus (s : str) : option (str * str) :=
  match s with
  | [] => None
  | c :: s' =>
    if wordc c then None
    else match match_W_plus s' with
         | Some (m, r) => Some (c :: m, r)
         | None => Some ([c], s')
         end
  end.

(** [\b\w+\b|\W+] at the head of [s], where [prev] precedes [s]. *)
Definition match_token (prev : option char) (s : str) : option (str * str) :=
  match (if boundary prev (head s) then match_w_plus_b s else None) with
  | Some r => Some r
  | None => match_W_plus s
  end.

(** The scan of [re.findall]: a match is recorded and the scan resumes after
    it; where nothing matches the scan moves one character on.  Every step
    consumes a character, so [length s] steps are enough. *)
Fixpoint findall_scan (fuel : nat) (prev : option char) (s : str) : list str :=
  match fuel with
  | O => []
  | S fuel' =>
    match s with
    | [] => []
    | c :: s' =>
      match match_token prev s with
      | Some (m, r) => m :: findall_scan fuel' (last m) r
      | None => findall_scan fuel' (Some c) s'
      end
    end
  end.

(** [re.sub(r"\b" + word + r"\b" + tail, repl, text)] for a literal [word]
    made of word characters, where [ahead] decides the look-ahead [tail] on
    the character after the occurrence. *)
Fixpoint sub_from (word repl : str) (ahead : option char -> bool)
    (skip : nat) (prev : option char) (text : str) : str :=
  match text with
  | [] => []
  | c :: text' =>
    match skip with
    | S k => sub_from word repl ahead k (Some c) text'
    | O =>
      let after := head (skipn (length word) text) in
      if starts_with word text && boundary prev (head text)
         && boundary (last word) after && ahead after
      then repl ++ sub_from word repl ahead (Nat.pred (length word)) (Some c) text'
      else c :: sub_from word repl ahead 0 (Some c) text'
    end
  end.

(** The first character of a token tells its kind. *)
Definition starts_with_word (item : str) : bool := is_word_at (head item).

End Regex.

(** [re.findall(r"\b\w+\b|\W+", sentence)] *)
Definition findall_tokens (sentence : str) : list str :=
  findall_scan is_word (length sentence) None sentence.

(** [re.match(r"\w+", item)] as a truth value *)
Definition match_word (item : str) : bool := starts_with_word is_word item.

Definition no_lookahead (_ : option char) : bool := true.

(** [(?![a-z])] *)
Definition not_a_to_z (c : option char) : bool :=
  match c with
  | Some c => negb (between 97 122 c)
  | None => true
  end.

Definition re_sub_word (word repl : str) (ahead : option char -> bool) (text : str) : str :=
  sub_from is_word word repl ahead 0 None text.

(** *** Whitespace *)

Fixpoint lstrip (s : str) : str :=
  match s with
  | c :: s' => if isspace_c c then lstrip s' else s
  | [] => []
  end.

(** [s.strip()] *)
Definition strip (s : str) : str := rev (lstrip (rev (lstrip s))).

(** [s.split(sep)] for a one-character separator; [cur] is the current field
    in reverse. *)
Fixpoint split_on (sep : char) (cur : str) (s : str) : list str :=
  match s with
  | [] => [rev cur]
  | c :: s' =>
    if c =? sep then rev cur :: split_on sep [] s'
    else split_on sep (c :: cur) s'
  end.

(** [s.split()]: the maximal runs of non-whitespace *)
Fixpoint split_ws (cur : str) (s : str) : list str :=
  match s with
  | [] => match cur with [] => [] | _ => [rev cur] end
  | c :: s' =>
    if isspace_c c
    then match cur with [] => split_ws [] s' | _ => rev cur :: split_ws [] s' end
    else split_ws (c :: cur) s'
  end.

(** ** Numbers *)

Inductive fnum : Type :=
| Fin (q : Q)
| PInf
| NInf.

Definition Qltb (a b : Q) : bool := negb (Qle_bool b a).

(** [a < b] *)
Definition flt (a b : fnum) : bool :=
  match a, b with
  | Fin x, Fin y => Qltb x y
  | Fin _, PInf => true
  | NInf, Fin _ => true
  | NInf, PInf => true
  | _, _ => false
  end.

(** [1 - a] *)
Definition one_minus (a : fnum) : fnum :=
  match a with
  | Fin q => Fin (1 - q)
  | PInf => NInf
  | NInf => PInf
  end.

(** [(a + b) / 2] where neither is [+inf] *)
Definition average (a b : fnum) : fnum :=
  match a, b with
  | Fin x, Fin y => Fin ((x + y) / 2)
  | PInf, _ | _, PInf => PInf
  | _, _ => NInf
  end.

(** ** Exceptions and the collaborators *)

(** [ValueError] is what the engine itself raises; the other three stand for
    whatever the HTTP client, the translation client and the generation
    client raise. *)
Inductive exn : Type :=
| ValueError (msg : str)
| RequestException
| TranslationError
| APIError.

Inductive result (A : Type) : Type :=
| Raise (e : exn)
| Return (a : A).
Arguments Raise {A} e.
Arguments Return {A} a.

(** The library calls the engine makes.  Each may raise. *)
Record env : Type := {
  (** [difflib.SequenceMatcher(None, a, b).ratio()] *)
  ratio : str -> str -> Q;
  (** [requests.get(url, timeout=t)] followed by [raise_for_status()], giving
      [response.text] *)
  requests_get : str -> N -> result str;
  (** [GoogleTranslator(source=s, target=t).translate(word)] *)
  google_translate : str -> str -> str -> result str;
  (** [os.getenv("ANTHROPIC_API_KEY")] *)
  getenv_api_key : option str;
  (** [Anthropic(api_key=k).messages.create(...)] on a prompt, giving
      [response.content[0].text] *)
  messages_create : str -> str -> result str
}.

(** ** Similarity scorer *)

Definition len_Q (s : str) : Q := inject_Z (Z.of_nat (length s)).

Definition phonetic_distance (E : env) (word1 word2 : str) : Q :=
  let w1 := lower word1 in
  let w2 := lower word2 in
  let soundex_sim := ratio E (soundex w1) (soundex w2) in
  let metaphone_sim := ratio E (metaphone_simple w1) (metaphone_simple w2) in
  let string_sim := ratio E w1 w2 in
  let len_penalty :=
    (Qabs (len_Q w1 - len_Q w2)
     / Qmax (Qmax (len_Q w1) (len_Q w2)) 1)%Q in
  let combined_sim :=
    ((soundex_sim * (4 # 10) + metaphone_sim * (4 # 10) + string_sim * (2 # 10))
     - len_penalty * (1 # 10))%Q in
  (1 - combined_sim)%Q.

(** ** Nearest-match finder *)

(** The loop of [find_most_similar_word] with its two running variables. *)
Fixpoint find_loop (E : env) (target_word : str) (force_fuzzy : bool)
    (best_match : str) (best_distance : fnum) (word_list : list str) : str * fnum :=
  match word_list with
  | [] => (best_match, best_distance)
  | word :: rest =>
    if force_fuzzy && str_eqb (lower word) (lower target_word)
    then find_loop E target_word force_fuzzy best_match best_distance rest
    else
      let distance := Fin (phonetic_distance E target_word word) in
      if flt distance best_distance
      then find_loop E target_word force_fuzzy word distance rest
      else find_loop E target_word force_fuzzy best_match best_distance rest
  end.

Definition find_most_similar_word (E : env) (target_word : str)
    (word_list : list str) (force_fuzzy : bool) : str * fnum :=
  let '(best_match, best_distance) :=
    find_loop E target_word force_fuzzy [] PInf word_list in
  (best_match, one_minus best_distance).

(** ** Embedded vocabularies

    The dictionary [sample_words] of [_get_builtin_wordlist], entry by entry
    in source order. *)

Definition english_words : list string :=
  [
    "hello"; "world"; "computer"; "language"; "phone"; "house"; "water";
    "fire"; "tree"; "mountain"; "river"; "ocean"; "sky"; "sun"; "moon";
    "star"; "book"; "pen"; "paper"; "table"; "chair"; "window"; "door";
    "car"; "bicycle"; "airplane"; "train"; "ship"; "bridge"; "road"; "city";
    "town"; "friend"; "family"; "mother"; "father"; "brother"; "sister";
    "child"; "baby"; "dog"; "cat"; "bird"; "fish"; "horse"; "cow"; "sheep";
    "chicken"; "apple"; "orange"; "banana"; "grape"; "strawberry"; "bread";
    "milk"; "cheese"; "head"; "eye"; "nose"; "mouth"; "ear"; "hand"; "foot";
    "arm"; "leg"; "finger"; "heart"; "brain"; "stomach"; "back"; "shoulder";
    "knee"; "elbow"; "neck"; "red"; "blue"; "green"; "yellow"; "black";
    "white"; "purple"; "orange"; "pink"; "brown"; "gray"; "silver"; "gold";
    "violet"; "turquoise"; "crimson"; "one"; "two"; "three"; "four"; "five";
    "six"; "seven"; "eight"; "nine"; "ten"; "potato"; "tomato"; "carrot";
    "onion"; "garlic"; "pepper"; "salt"; "sugar"; "coffee"; "tea"; "beer";
    "wine"; "juice"; "soda"; "chocolate"; "cake"; "pizza"; "hamburger";
    "sandwich"; "soup"; "salad"; "rice"; "pasta"; "meat"; "rain"; "snow";
    "wind"; "storm"; "cloud"; "sunshine"; "thunder"; "lightning"; "hot";
    "cold"; "warm"; "cool"; "wet"; "dry"; "humid"; "freezing"; "forest";
    "desert"; "beach"; "island"; "valley"; "hill"; "lake"; "pond"; "flower";
    "grass"; "leaf"; "branch"; "root"; "seed"; "garden"; "park"; "internet";
    "email"; "website"; "software"; "hardware"; "keyboard"; "mouse";
    "screen"; "smartphone"; "tablet"; "laptop"; "desktop"; "printer";
    "camera"; "video"; "photo"; "happy"; "sad"; "angry"; "excited";
    "nervous"; "calm"; "peaceful"; "stressed"; "beautiful"; "ugly"; "smart";
    "stupid"; "funny"; "serious"; "kind"; "mean"; "big"; "small"; "tall";
    "short"; "fat"; "thin"; "old"; "young"; "new"; "ancient"; "fast";
    "slow"; "strong"; "weak"; "rich"; "poor"; "expensive"; "cheap"; "run";
    "walk"; "jump"; "swim"; "fly"; "drive"; "ride"; "climb"; "fall";
    "stand"; "sit"; "sleep"; "wake"; "eat"; "drink"; "cook"; "clean";
    "wash"; "build"; "break"; "read"; "write"; "speak"; "listen"; "see";
    "hear"; "touch"; "smell"; "taste"; "love"; "hate"; "like"; "want";
    "need"; "have"; "give"; "take"; "buy"; "sell"
  ]%string.

Definition spanish_words : list string :=
  [
    "hola"; "mundo"; "computadora"; "idioma"; "teléfono"; "casa"; "agua";
    "fuego"; "árbol"; "montaña"; "río"; "océano"; "cielo"; "sol"; "luna";
    "estrella"; "libro"; "pluma"; "papel"; "mesa"; "silla"; "ventana";
    "puerta"; "coche"; "bicicleta"; "avión"; "tren"; "barco"; "puente";
    "carretera"; "ciudad"; "pueblo"; "amigo"; "familia"; "madre"; "padre";
    "hermano"; "hermana"; "niño"; "bebé"; "perro"; "gato"; "pájaro"; "pez";
    "caballo"; "vaca"; "oveja"; "pollo"; "manzana"; "naranja"; "plátano";
    "uva"; "fresa"; "pan"; "leche"; "queso"; "cabeza"; "ojo"; "nariz";
    "boca"; "oreja"; "mano"; "pie"; "brazo"; "pierna"; "dedo"; "corazón";
    "cerebro"; "estómago"; "espalda"; "hombro"; "rodilla"; "codo"; "cuello";
    "rojo"; "azul"; "verde"; "amarillo"; "negro"; "blanco"; "morado";
    "naranja"; "rosa"; "marrón"; "gris"; "plata"; "oro"; "violeta";
    "turquesa"; "carmesí"; "uno"; "dos"; "tres"; "cuatro"; "cinco"; "seis";
    "siete"; "ocho"; "nueve"; "diez"; "papa"; "tomate"; "zanahoria";
    "cebolla"; "ajo"; "pimienta"; "sal"; "azúcar"; "café"; "té"; "cerveza";
    "vino"; "jugo"; "refresco"; "chocolate"; "pastel"; "pizza";
    "hamburguesa"; "sándwich"; "sopa"; "ensalada"; "arroz"; "pasta";
    "carne"; "lluvia"; "nieve"; "viento"; "tormenta"; "nube"; "sol";
    "trueno"; "rayo"; "caliente"; "frío"; "tibio"; "fresco"; "mojado";
    "seco"; "húmedo"; "helado"; "bosque"; "desierto"; "playa"; "isla";
    "valle"; "colina"; "lago"; "estanque"; "flor"; "hierba"; "hoja"; "rama";
    "raíz"; "semilla"; "jardín"; "parque"; "feliz"; "triste"; "enojado";
    "emocionado"; "nervioso"; "tranquilo"; "pacífico"; "estresado";
    "hermoso"; "feo"; "inteligente"; "tonto"; "divertido"; "serio";
    "amable"; "malo"; "grande"; "pequeño"; "alto"; "bajo"; "gordo";
    "delgado"; "viejo"; "joven"; "nuevo"; "antiguo"; "rápido"; "lento";
    "fuerte"; "débil"; "rico"; "pobre"; "caro"; "barato"; "correr";
    "caminar"; "saltar"; "nadar"; "volar"; "conducir"; "montar"; "subir";
    "caer"; "estar"; "amar"; "odiar"; "gustar"; "querer"; "necesitar";
    "tener"; "dar"; "tomar"; "comprar"; "vender"
  ]%string.

Definition french_words : list string :=
  [
    "bonjour"; "monde"; "ordinateur"; "langue"; "téléphone"; "maison";
    "eau"; "feu"; "arbre"; "montagne"; "rivière"; "océan"; "ciel"; "soleil";
    "lune"; "étoile"; "livre"; "stylo"; "papier"; "table"; "chaise";
    "fenêtre"; "porte"; "voiture"; "bicyclette"; "avion"; "train"; "bateau";
    "pont"; "route"; "ville"; "village"; "ami"; "famille"; "mère"; "père";
    "frère"; "sœur"; "enfant"; "bébé"; "chien"; "chat"; "oiseau"; "poisson";
    "cheval"; "vache"; "mouton"; "poulet"; "pomme"; "orange"; "banane";
    "raisin"; "fraise"; "pain"; "lait"; "fromage"; "tête"; "œil"; "nez";
    "bouche"; "oreille"; "main"; "pied"; "bras"; "jambe"; "doigt"; "cœur";
    "cerveau"; "estomac"; "dos"; "épaule"; "genou"; "coude"; "cou"; "rouge";
    "bleu"; "vert"; "jaune"; "noir"; "blanc"; "violet"; "orange"; "rose";
    "brun"; "gris"; "argent"; "or"; "violette"; "turquoise"; "cramoisi";
    "un"; "deux"; "trois"; "quatre"; "cinq"; "six"; "sept"; "huit"; "neuf";
    "dix"; "café"; "thé"; "bière"; "vin"; "jus"; "soda"; "chocolat";
    "gâteau"; "pizza"; "hamburger"; "sandwich"; "soupe"; "salade"; "riz";
    "pâtes"; "viande"; "pluie"; "neige"; "vent"; "orage"; "nuage"; "soleil";
    "tonnerre"; "éclair"; "chaud"; "froid"; "tiède"; "frais"; "mouillé";
    "sec"; "humide"; "gelé"; "forêt"; "désert"; "plage"; "île"; "vallée";
    "colline"; "lac"; "étang"; "fleur"; "herbe"; "feuille"; "branche";
    "racine"; "graine"; "jardin"; "parc"; "heureux"; "triste"; "fâché";
    "excité"; "nerveux"; "calme"; "paisible"; "stressé"; "beau"; "laid";
    "intelligent"; "stupide"; "drôle"; "sérieux"; "gentil"; "méchant";
    "grand"; "petit"; "haut"; "court"; "gros"; "mince"; "vieux"; "jeune";
    "nouveau"; "ancien"; "rapide"; "lent"; "fort"; "faible"; "riche";
    "pauvre"; "cher"; "bon marché"; "courir"; "marcher"; "sauter"; "nager";
    "voler"; "conduire"; "monter"; "grimper"; "tomber"; "aimer"; "détester";
    "aimer"; "vouloir"; "avoir besoin"; "avoir"; "donner"; "prendre";
    "acheter"; "vendre"
  ]%string.

Definition german_words : list string :=
  [
    "hallo"; "welt"; "computer"; "sprache"; "telefon"; "haus"; "wasser";
    "feuer"; "baum"; "berg"; "fluss"; "ozean"; "himmel"; "sonne"; "mond";
    "stern"; "buch"; "stift"; "papier"; "tisch"; "stuhl"; "fenster"; "tür";
    "auto"; "fahrrad"; "flugzeug"; "zug"; "schiff"; "brücke"; "straße";
    "stadt"; "dorf"; "freund"; "familie"; "mutter"; "vater"; "bruder";
    "schwester"; "kind"; "baby"; "hund"; "katze"; "vogel"; "fisch"; "pferd";
    "kuh"; "schaf"; "huhn"; "apfel"; "orange"; "banane"; "traube";
    "erdbeere"; "brot"; "milch"; "käse"; "kopf"; "auge"; "nase"; "mund";
    "ohr"; "hand"; "fuß"; "arm"; "bein"; "finger"; "herz"; "gehirn";
    "magen"; "rücken"; "schulter"; "knie"; "ellbogen"; "hals"; "rot";
    "blau"; "grün"; "gelb"; "schwarz"; "weiß"; "lila"; "orange"; "rosa";
    "braun"; "grau"; "silber"; "gold"; "violett"; "türkis"; "karmesin";
    "eins"; "zwei"; "drei"; "vier"; "fünf"; "sechs"; "sieben"; "acht";
    "neun"; "zehn"; "kaffee"; "tee"; "bier"; "wein"; "saft"; "limonade";
    "schokolade"; "kuchen"; "regen"; "schnee"; "wind"; "sturm"; "wolke";
    "sonnenschein"; "donner"; "blitz"; "heiß"; "kalt"; "warm"; "kühl";
    "nass"; "trocken"; "feucht"; "gefroren"; "wald"; "wüste"; "strand";
    "insel"; "tal"; "hügel"; "see"; "teich"; "blume"; "gras"; "blatt";
    "ast"; "wurzel"; "samen"; "garten"; "park"; "glücklich"; "traurig";
    "wütend"; "aufgeregt"; "nervös"; "ruhig"; "friedlich"; "gestresst";
    "schön"; "hässlich"; "klug"; "dumm"; "lustig"; "ernst"; "freundlich";
    "gemein"; "groß"; "klein"; "hoch"; "kurz"; "dick"; "dünn"; "alt";
    "jung"; "neu"; "alt"; "schnell"; "langsam"; "stark"; "schwach"; "reich";
    "arm"; "teuer"; "billig"; "laufen"; "gehen"; "springen"; "schwimmen";
    "fliegen"; "fahren"; "reiten"; "klettern"; "lieben"; "hassen"; "mögen";
    "wollen"; "brauchen"; "haben"; "geben"; "nehmen"; "kaufen"; "verkaufen"
  ]%string.

Definition italian_words : list string :=
  [
    "ciao"; "mondo"; "computer"; "lingua"; "telefono"; "casa"; "acqua";
    "fuoco"; "albero"; "montagna"; "fiume"; "oceano"; "cielo"; "sole";
    "luna"; "stella"; "libro"; "penna"; "carta"; "tavolo"; "sedia";
    "finestra"; "porta"; "macchina"; "bicicletta"; "aereo"; "treno"; "nave";
    "ponte"; "strada"; "città"; "paese"; "amico"; "famiglia"; "madre";
    "padre"; "fratello"; "sorella"; "bambino"; "neonato"; "cane"; "gatto";
    "uccello"; "pesce"; "cavallo"; "mucca"; "pecora"; "pollo"; "mela";
    "arancia"; "banana"; "uva"; "fragola"; "pane"; "latte"; "formaggio";
    "testa"; "occhio"; "naso"; "bocca"; "orecchio"; "mano"; "piede";
    "braccio"; "gamba"; "dito"; "cuore"; "cervello"; "stomaco"; "schiena";
    "spalla"; "ginocchio"; "gomito"; "collo"; "rosso"; "blu"; "verde";
    "giallo"; "nero"; "bianco"; "viola"; "arancione"; "rosa"; "marrone";
    "grigio"; "argento"; "oro"; "violetto"; "turchese"; "cremisi"; "uno";
    "due"; "tre"; "quattro"; "cinque"; "sei"; "sette"; "otto"; "nove";
    "dieci"; "caffè"; "tè"; "birra"; "vino"; "succo"; "soda"; "cioccolato";
    "torta"; "pioggia"; "neve"; "vento"; "tempesta"; "nuvola"; "sole";
    "tuono"; "fulmine"; "caldo"; "freddo"; "tiepido"; "fresco"; "bagnato";
    "secco"; "umido"; "gelato"; "foresta"; "deserto"; "spiaggia"; "isola";
    "valle"; "collina"; "lago"; "stagno"; "fiore"; "erba"; "foglia"; "ramo";
    "radice"; "seme"; "giardino"; "parco"; "felice"; "triste"; "arrabbiato";
    "eccitato"; "nervoso"; "calmo"; "pacifico"; "stressato"; "bello";
    "brutto"; "intelligente"; "stupido"; "divertente"; "serio"; "gentile";
    "cattivo"; "grande"; "piccolo"; "alto"; "basso"; "grasso"; "magro";
    "vecchio"; "giovane"; "nuovo"; "antico"; "veloce"; "lento"; "forte";
    "debole"; "ricco"; "povero"; "costoso"; "economico"; "correre";
    "camminare"; "saltare"; "nuotare"; "volare"; "guidare"; "cavalcare";
    "arrampicare"; "amare"; "odiare"; "piacere"; "volere"; "aver bisogno";
    "avere"; "dare"; "prendere"; "comprare"; "vendere"
  ]%string.

Definition portuguese_words : list string :=
  [
    "olá"; "mundo"; "computador"; "idioma"; "telefone"; "casa"; "água";
    "fogo"; "árvore"; "montanha"; "rio"; "oceano"; "céu"; "sol"; "lua";
    "estrela"; "livro"; "caneta"; "papel"; "mesa"; "cadeira"; "janela";
    "porta"; "carro"; "bicicleta"; "avião"; "trem"; "navio"; "ponte";
    "estrada"; "cidade"; "vila"; "amigo"; "família"; "mãe"; "pai"; "irmão";
    "irmã"; "criança"; "bebê"; "cachorro"; "gato"; "pássaro"; "peixe";
    "cavalo"; "vaca"; "ovelha"; "galinha"; "maçã"; "laranja"; "banana";
    "uva"; "morango"; "pão"; "leite"; "queijo"; "cabeça"; "olho"; "nariz";
    "boca"; "orelha"; "mão"; "pé"; "braço"; "perna"; "dedo"; "coração";
    "cérebro"; "estômago"; "costas"; "ombro"; "joelho"; "cotovelo";
    "pescoço"; "vermelho"; "azul"; "verde"; "amarelo"; "preto"; "branco";
    "roxo"; "laranja"; "rosa"; "marrom"; "cinza"; "prata"; "ouro";
    "violeta"; "turquesa"; "carmesim"; "um"; "dois"; "três"; "quatro";
    "cinco"; "seis"; "sete"; "oito"; "nove"; "dez"; "café"; "chá";
    "cerveja"; "vinho"; "suco"; "refrigerante"; "chocolate"; "bolo";
    "chuva"; "neve"; "vento"; "tempestade"; "nuvem"; "sol"; "trovão";
    "relâmpago"; "quente"; "frio"; "morno"; "fresco"; "molhado"; "seco";
    "úmido"; "congelado"; "floresta"; "deserto"; "praia"; "ilha"; "vale";
    "colina"; "lago"; "lagoa"; "flor"; "grama"; "folha"; "galho"; "raiz";
    "semente"; "jardim"; "parque"; "feliz"; "triste"; "bravo"; "animado";
    "nervoso"; "calmo"; "pacífico"; "estressado"; "bonito"; "feio";
    "inteligente"; "estúpido"; "engraçado"; "sério"; "gentil"; "mau";
    "grande"; "pequeno"; "alto"; "baixo"; "gordo"; "magro"; "velho";
    "jovem"; "novo"; "antigo"; "rápido"; "lento"; "forte"; "fraco"; "rico";
    "pobre"; "caro"; "barato"; "correr"; "andar"; "pular"; "nadar"; "voar";
    "dirigir"; "andar"; "escalar"; "amar"; "odiar"; "gostar"; "querer";
    "precisar"; "ter"; "dar"; "tomar"; "comprar"; "vender"
  ]%string.

Definition sample_words : list (str * list str) :=
  [ (U "english", map U english_words);
    (U "spanish", map U spanish_words);
    (U "french", map U french_words);
    (U "german", map U german_words);
    (U "italian", map U italian_words);
    (U "portuguese", map U portuguese_words) ].

(** ** Word list provider *)

(** A dictionary literal with string keys, in source order. *)
Fixpoint dict_lookup {V : Type} (k : str) (d : list (str * V)) : option V :=
  match d with
  | [] => None
  | (k', v) :: d' => if str_eqb k k' then Some v else dict_lookup k d'
  end.

Definition freq_urls : list (str * str) :=
  [ (U "english", U "https://raw.githubusercontent.com/first20hours/google-10000-english/master/google-10000-english-no-swears.txt");
    (U "spanish", U "https://raw.githubusercontent.com/hermitdave/FrequencyWords/master/content/2016/es/es_50k.txt");
    (U "french", U "https://raw.githubusercontent.com/hermitdave/FrequencyWords/master/content/2016/fr/fr_50k.txt");
    (U "german", U "https://raw.githubusercontent.com/hermitdave/FrequencyWords/master/content/2016/de/de_50k.txt");
    (U "italian", U "https://raw.githubusercontent.com/hermitdave/FrequencyWords/master/content/2016/it/it_50k.txt");
    (U "portuguese", U "https://raw.githubusercontent.com/hermitdave/FrequencyWords/master/content/2016/pt/pt_50k.txt");
    (U "dutch", U "https://raw.githubusercontent.com/hermitdave/FrequencyWords/master/content/2016/nl/nl_50k.txt") ].

Definition urls : list (str * str) :=
  [ (U "english", U "https://raw.githubusercontent.com/dwyl/english-words/master/words_alpha.txt");
    (U "spanish", U "https://raw.githubusercontent.com/MangoTheCat/spanish-words/master/spanish-words.txt");
    (U "french", U "https://raw.githubusercontent.com/chrplr/openlexicon/master/datasets-info/Liste-de-mots-francais-Gutenberg/liste_de_mots_francais.txt");
    (U "german", U "https://raw.githubusercontent.com/davidak/wortliste/master/wortliste.txt");
    (U "italian", U "https://raw.githubusercontent.com/napolux/paroleitaliane/master/paroleitaliane/280000_parole_italiane.txt");
    (U "portuguese", U "https://raw.githubusercontent.com/pythonprobr/palavras/master/palavras.txt") ].

(** [1 <= len(w) <= 25] *)
Definition len_1_25 (w : str) : bool :=
  (1 <=? length w)%nat && (length w <=? 25)%nat.

(** The body of the loop [for line in lines] of [_try_frequency_lists]: the
    words it appends for one line. *)
Definition frequency_line (line : str) : list str :=
  match split_ws [] line with
  | [] => []
  | part :: _ =>
    let word := lower (strip part) in
    if len_1_25 word && isalpha word then [word] else []
  end.

(** Any exception inside the [try] gives the empty list. *)
Definition _try_frequency_lists (E : env) (language : str) : list str :=
  match dict_lookup (lower language) freq_urls with
  | Some url =>
    match requests_get E url 10 with
    | Return text =>
      let lines := split_on 10 [] (strip text) in
      flat_map frequency_line lines
    | Raise _ => []
    end
  | None => []
  end.

(** The condition of the list comprehension of [_try_online_wordlist]. *)
Definition online_keep (w : str) : bool :=
  match strip w with
  | [] => false
  | _ => len_1_25 (strip w) && isalpha (strip w)
  end.

Definition _try_online_wordlist (E : env) (language : str) : list str :=
  match dict_lookup (lower language) urls with
  | Some url =>
    match requests_get E url 20 with
    | Return text =>
      let words := split_on 10 [] (strip text) in
      map (fun w => lower (strip w)) (List.filter online_keep words)
    | Raise _ => []
    end
  | None => []
  end.

(** The message of the [ValueError] of [_get_builtin_wordlist]. *)
Definition not_supported (language : str) : str :=
  U "Language '" ++ language ++ U "' not supported. Available: "
  ++ U "['english', 'spanish', 'french', 'german', 'italian', 'portuguese']".

Definition _get_builtin_wordlist (language : str) : result (list str) :=
  match dict_lookup (lower language) sample_words with
  | None => Raise (ValueError (not_supported language))
  | Some words => Return words
  end.

(** *** The engine's state and its monad *)

(** [self.word_lists] *)
Abbreviation cache := (gmap (list N) (list (list N))) (only parsing).

Definition M (A : Type) : Type := cache -> result A * cache.

Definition ret {A : Type} (a : A) : M A := fun c => (Return a, c).

Definition raise {A : Type} (e : exn) : M A := fun c => (Raise e, c).

Definition bind {A B : Type} (m : M A) (k : A -> M B) : M B :=
  fun c =>
    match m c with
    | (Return a, c') => k a c'
    | (Raise e, c') => (Raise e, c')
    end.

#[global] Instance M_ret : MRet M := @ret.
#[global] Instance M_bind : MBind M := fun A B k m => bind m k.

(** A Python list is truthy when it is not empty. *)
Definition truthy {A : Type} (l : list A) : bool :=
  match l with
  | [] => false
  | _ => true
  end.

Definition load_word_list (E : env) (language : str) : M (list str) :=
  fun word_lists =>
    match word_lists !! language with
    | Some words => (Return words, word_lists)
    | None =>
      let words := _try_frequency_lists E language in
      if truthy words then (Return words, <[language := words]> word_lists)
      else
        let words := _try_online_wordlist E language in
        if truthy words then (Return words, <[language := words]> word_lists)
        else (_get_builtin_wordlist language, word_lists)
    end.

(** ** Translation collaborator *)

Definition lang_map : list (str * str) :=
  [ (U "english", U "en"); (U "spanish", U "es"); (U "french", U "fr");
    (U "german", U "de"); (U "italian", U "it"); (U "portuguese", U "pt");
    (U "dutch", U "nl") ].

(** The dictionary [translations] of [simple_translate], keyed by a pair of
    languages. *)
Definition translations : list ((str * str) * list (str * str)) :=
  [ ((U "spanish", U "french"),
     [ (U "casa", U "maison"); (U "agua", U "eau"); (U "fuego", U "feu");
       (U "árbol", U "arbre"); (U "libro", U "livre"); (U "amigo", U "ami");
       (U "perro", U "chien"); (U "gato", U "chat"); (U "rojo", U "rouge");
       (U "azul", U "bleu"); (U "verde", U "vert"); (U "grande", U "grand") ]);
    ((U "french", U "spanish"),
     [ (U "maison", U "casa"); (U "eau", U "agua"); (U "feu", U "fuego");
       (U "arbre", U "árbol"); (U "livre", U "libro"); (U "ami", U "amigo");
       (U "chien", U "perro"); (U "chat", U "gato"); (U "rouge", U "rojo");
       (U "bleu", U "azul"); (U "vert", U "verde"); (U "grand", U "grande") ]);
    ((U "spanish", U "italian"),
     [ (U "casa", U "casa"); (U "agua", U "acqua"); (U "fuego", U "fuoco");
       (U "árbol", U "albero"); (U "libro", U "libro"); (U "amigo", U "amico");
       (U "perro", U "cane"); (U "gato", U "gatto"); (U "rojo", U "rosso");
       (U "azul", U "blu"); (U "verde", U "verde"); (U "grande", U "grande") ]);
    ((U "italian", U "spanish"),
     [ (U "casa", U "casa"); (U "acqua", U "agua"); (U "fuoco", U "fuego");
       (U "albero", U "árbol"); (U "libro", U "libro"); (U "amico", U "amigo");
       (U "cane", U "perro"); (U "gatto", U "gato"); (U "rosso", U "rojo");
       (U "blu", U "azul"); (U "verde", U "verde"); (U "grande", U "grande") ]);
    ((U "german", U "french"),
     [ (U "haus", U "maison"); (U "wasser", U "eau"); (U "feuer", U "feu");
       (U "baum", U "arbre"); (U "buch", U "livre"); (U "freund", U "ami");
       (U "hund", U "chien"); (U "katze", U "chat"); (U "rot", U "rouge");
       (U "blau", U "bleu"); (U "grün", U "vert"); (U "groß", U "grand") ]);
    ((U "french", U "german"),
     [ (U "maison", U "haus"); (U "eau", U "wasser"); (U "feu", U "feuer");
       (U "arbre", U "baum"); (U "livre", U "buch"); (U "ami", U "freund");
       (U "chien", U "hund"); (U "chat", U "katze"); (U "rouge", U "rot");
       (U "bleu", U "blau"); (U "vert", U "grün"); (U "grand", U "groß") ]) ].

Fixpoint pair_lookup {V : Type} (k : str * str) (d : list ((str * str) * V)) : option V :=
  match d with
  | [] => None
  | (k', v) :: d' =>
    if str_eqb (fst k) (fst k') && str_eqb (snd k) (snd k') then Some v
    else pair_lookup k d'
  end.

(** The [except] branch of [simple_translate]. *)
Definition dictionary_translate (word from_lang to_lang : str) : str :=
  let key := (lower from_lang, lower to_lang) in
  match pair_lookup key translations with
  | Some entries =>
    match dict_lookup (lower word) entries with
    | Some t => t
    | None => U "[untranslated: " ++ word ++ U "]"
    end
  | None => U "[untranslated: " ++ word ++ U "]"
  end.

Definition simple_translate (E : env) (word from_lang to_lang : str) : str :=
  let source := default (U "auto") (dict_lookup (lower from_lang) lang_map) in
  let target := default (U "en") (dict_lookup (lower to_lang) lang_map) in
  match google_translate E source target word with
  | Return result => result
  | Raise _ => dictionary_translate word from_lang to_lang
  end.

(** ** Transformation pipeline *)

Definition arrow : str := U " → ".

Record direct_fuzzy : Type := {
  df_original_input : str;
  df_lang_a : str;
  df_lang_b : str;
  df_step1_lang_b : str;
  df_step2_final_lang_a : str;
  df_direct_fuzzy_chain : str;
  df_similarity_scores : list fnum;
  df_average_similarity : fnum
}.

Definition transform_direct_fuzzy (E : env) (word lang_a lang_b : str) : M direct_fuzzy :=
  word_list_a ← load_word_list E lang_a;
  word_list_b ← load_word_list E lang_b;
  let '(matched_word_b, similarity_b) :=
    find_most_similar_word E word word_list_b true in
  let '(final_word_a, similarity_final) :=
    find_most_similar_word E matched_word_b word_list_a true in
  mret {| df_original_input := word;
          df_lang_a := lang_a;
          df_lang_b := lang_b;
          df_step1_lang_b := matched_word_b;
          df_step2_final_lang_a := final_word_a;
          df_direct_fuzzy_chain := word ++ arrow ++ matched_word_b ++ arrow ++ final_word_a;
          df_similarity_scores := [similarity_b; similarity_final];
          df_average_similarity := average similarity_b similarity_final |}.

Record direct_translate : Type := {
  dt_original_input : str;
  dt_lang_a : str;
  dt_lang_b : str;
  dt_lang_b_match : str;
  dt_final_translation : str;
  dt_direct_chain : str;
  dt_similarity_score : fnum
}.

Definition transform_direct_translate (E : env) (word lang_a lang_b : str) : M direct_translate :=
  word_list_b ← load_word_list E lang_b;
  let '(matched_word_b, similarity_b) :=
    find_most_similar_word E word word_list_b true in
  let final_word := simple_translate E matched_word_b lang_b lang_a in
  mret {| dt_original_input := word;
          dt_lang_a := lang_a;
          dt_lang_b := lang_b;
          dt_lang_b_match := matched_word_b;
          dt_final_translation := final_word;
          dt_direct_chain := word ++ arrow ++ matched_word_b ++ arrow ++ final_word;
          dt_similarity_score := similarity_b |}.

Definition get_api_key (E : env) : result str :=
  match getenv_api_key E with
  | Some (c :: k) => Return (c :: k)
  | _ => Raise (ValueError (U "ANTHROPIC_API_KEY environment variable is required"))
  end.

Definition prompt_of (text lang_a : str) : str :=
  U "could you build a MINIMALLY coherent phrase in "
  ++ lang_a
  ++ U "that contains ALL of the words here in the exact order in which they appear:"
  ++ text
  ++ U "Just add (if needed) the basic semantic connectors and reordering that could give narrative sense to the text in said language. DO NOT ADD NOUNS."
  ++ U "Please JUST the resulting text, without quotations, do not introduce the text or say ANYTHING ELSE suchas "
  ++ [34] ++ U "Here s a coherent phrase using those elements: balala. Always give back the same result for the same initial input." ++ [34].

(** Both exits of the [try] are modelled: a raise of [get_api_key] or of the
    client is caught and gives [text] back. *)
Definition generate_final_text (E : env) (text lang_a : str) : str :=
  let prompt := prompt_of text lang_a in
  if (length (split_ws [] text) <? 3)%nat then text
  else
    match get_api_key E with
    | Raise _ => text
    | Return api_key =>
      match messages_create E api_key prompt with
      | Return response => response
      | Raise _ => text
      end
    end.

Record word_detail : Type := {
  wd_original : str;
  wd_transformed : str;
  wd_chain : str;
  wd_method : str;
  wd_fallback_used : option str
}.

Record sentence_result : Type := {
  sr_original_sentence : str;
  sr_transformed_sentence : str;
  sr_method : str;
  sr_language_route : str;
  sr_word_transformations : list word_detail;
  sr_word_count : nat
}.

(** The per-word branch of [haze]: the transformed word and its chain. *)
Definition haze_word (E : env) (item lang_a lang_b method : str) : M (str * str) :=
  if str_eqb method (U "fuzzy") then
    result ← transform_direct_fuzzy E item lang_a lang_b;
    mret (df_step2_final_lang_a result, df_direct_fuzzy_chain result)
  else
    result ← transform_direct_translate E item lang_a lang_b;
    mret (dt_final_translation result, dt_direct_chain result).

(** The loop [for item in words] of [haze] with its two accumulators. *)
Fixpoint haze_loop (E : env) (lang_a lang_b method : str) (words : list str)
    (transformed_words : list str) (word_details : list word_detail)
    : M (list str * list word_detail) :=
  match words with
  | [] => mret (transformed_words, word_details)
  | item :: rest =>
    if match_word item then
      '(transformed_word, chain) ← haze_word E item lang_a lang_b method;
      haze_loop E lang_a lang_b method rest
        (transformed_words ++ [transformed_word])
        (word_details ++ [ {| wd_original := item;
                              wd_transformed := transformed_word;
                              wd_chain := chain;
                              wd_method := method;
                              wd_fallback_used := None |} ])
    else
      haze_loop E lang_a lang_b method rest (transformed_words ++ [item]) word_details
  end.

Definition haze (E : env) (sentence lang_a lang_b method : str) : M sentence_result :=
  let words := findall_tokens sentence in
  '(transformed_words, word_details) ← haze_loop E lang_a lang_b method words [] [];
  let transformed_sentence := concat transformed_words in
  let transformed_sentence := generate_final_text E transformed_sentence lang_a in
  mret {| sr_original_sentence := sentence;
          sr_transformed_sentence := transformed_sentence;
          sr_method := method;
          sr_language_route := lang_a ++ arrow ++ lang_b ++ arrow ++ lang_a;
          sr_word_transformations := word_details;
          sr_word_count := length word_details |}.

Record hybrid_word : Type := {
  fh_original_input : str;
  fh_lang_a : str;
  fh_lang_b : str;
  fh_step1_fuzzy_lang_b : str;
  fh_step2_result : str;
  fh_method_used : str;
  fh_hybrid_chain : str;
  fh_fuzzy_similarity : fnum;
  fh_final_similarity : fnum
}.

Definition fuzzy_haze (E : env) (word lang_a lang_b : str) : M hybrid_word :=
  word_list_a ← load_word_list E lang_a;
  word_list_b ← load_word_list E lang_b;
  let '(matched_word_b, similarity_b) :=
    find_most_similar_word E word word_list_b true in
  let translated_word := simple_translate E matched_word_b lang_b lang_a in
  let '(final_word, method_used, final_similarity) :=
    if starts_with (U "[untranslated:") translated_word
       || str_eqb translated_word matched_word_b
    then
      let '(final_word, similarity_final) :=
        find_most_similar_word E matched_word_b word_list_a true in
      (final_word, U "fuzzy_fallback", similarity_final)
    else (translated_word, U "translate", Fin 1) in
  mret {| fh_original_input := word;
          fh_lang_a := lang_a;
          fh_lang_b := lang_b;
          fh_step1_fuzzy_lang_b := matched_word_b;
          fh_step2_result := final_word;
          fh_method_used := method_used;
          fh_hybrid_chain :=
            word ++ arrow ++ matched_word_b ++ arrow ++ final_word
            ++ U " (" ++ method_used ++ U ")";
          fh_fuzzy_similarity := similarity_b;
          fh_final_similarity := final_similarity |}.

(** The loop [for item in words] of [hybrid_haze]. *)
Fixpoint hybrid_loop (E : env) (lang_a lang_b : str) (words : list str)
    (transformed_words : list str) (word_details : list word_detail)
    : M (list str * list word_detail) :=
  match words with
  | [] => mret (transformed_words, word_details)
  | item :: rest =>
    if match_word item then
      result ← fuzzy_haze E item lang_a lang_b;
      let transformed_word := fh_step2_result result in
      let chain := fh_hybrid_chain result in
      hybrid_loop E lang_a lang_b rest
        (transformed_words ++ [transformed_word])
        (word_details ++ [ {| wd_original := item;
                              wd_transformed := transformed_word;
                              wd_chain := chain;
                              wd_method := U "fuzzy_then_translate";
                              wd_fallback_used := Some (fh_method_used result) |} ])
    else
      hybrid_loop E lang_a lang_b rest (transformed_words ++ [item]) word_details
  end.

Definition hybrid_haze (E : env) (sentence lang_a lang_b : str) : M sentence_result :=
  let words := findall_tokens sentence in
  '(transformed_words, word_details) ← hybrid_loop E lang_a lang_b words [] [];
  let transformed_sentence := concat transformed_words in
  let transformed_sentence := generate_final_text E transformed_sentence lang_a in
  mret {| sr_original_sentence := sentence;
          sr_transformed_sentence := transformed_sentence;
          sr_method := U "fuzzy_then_translate";
          sr_language_route := lang_a ++ arrow ++ lang_b ++ arrow ++ lang_a ++ U " ";
          sr_word_transformations := word_details;
          sr_word_count := length word_details |}.

(** ** Convergence loop *)

(** The eight [re.sub] calls of [rehaze], in order. *)
Definition cleanup (text : str) : str :=
  let text := re_sub_word (U "yao") (U "y") no_lookahead text in
  let text := re_sub_word (U "noo") (U "no") no_lookahead text in
  let text := re_sub_word (U "you") (U "y") not_a_to_z text in
  let text := re_sub_word (U "dee") (U "de") no_lookahead text in
  let text := re_sub_word (U "aii") (U "ahí") no_lookahead text in
  let text := re_sub_word (U "aii") (U "ahí") no_lookahead text in
  let text := re_sub_word (U "maui") (U "mi") no_lookahead text in
  let text := re_sub_word (U "ai") (U "a") no_lookahead text in
  text.

Record iteration_data : Type := {
  it_iteration : nat;
  it_input_text : str;
  it_output_text : str;
  it_similarity_to_previous : Q;
  it_word_transformations : list word_detail;
  it_transformation_count : nat
}.

Record convergence_result : Type := {
  cr_initial_text : str;
  cr_final_text : str;
  cr_final_iteration_text : str;
  cr_iterations : list iteration_data;
  cr_total_iterations : nat;
  cr_converged : bool;
  cr_final_similarity : Q;
  cr_language_route : str;
  cr_parameters : Z * Q
}.

(** The loop [for i in range(max_iterations)] of [rehaze]: [todo] iterations
    remain, [i] is the loop variable.  It returns [current_text] and
    [iterations] as they are when the loop ends. *)
Fixpoint rehaze_loop (E : env) (lang_a lang_b : str) (similarity_threshold : Q)
    (todo : nat) (i : nat) (current_text : str) (iterations : list iteration_data)
    : M (str * list iteration_data) :=
  match todo with
  | O => mret (current_text, iterations)
  | S todo' =>
    transformed_result ← hybrid_haze E current_text lang_a lang_b;
    let text := cleanup (sr_transformed_sentence transformed_result) in
    let similarity :=
      if (0 <? i)%nat then ratio E (lower current_text) (lower text) else 0%Q in
    let data :=
      {| it_iteration := i + 1;
         it_input_text := current_text;
         it_output_text := text;
         it_similarity_to_previous := similarity;
         it_word_transformations := sr_word_transformations transformed_result;
         it_transformation_count := length (sr_word_transformations transformed_result) |} in
    let iterations := iterations ++ [data] in
    if Qle_bool similarity_threshold similarity
    then mret (current_text, iterations)
    else rehaze_loop E lang_a lang_b similarity_threshold todo' (S i) text iterations
  end.

Definition newline : str := [10].

Definition rehaze (E : env) (initial_text lang_a lang_b : str)
    (max_iterations : Z) (similarity_threshold : Q) : M convergence_result :=
  '(current_text, iterations) ←
    rehaze_loop E lang_a lang_b similarity_threshold
      (Z.to_nat max_iterations) 0 initial_text [];
  let final_text := join newline (map it_output_text iterations) in
  mret {| cr_initial_text := initial_text;
          cr_final_text := final_text;
          cr_final_iteration_text := current_text;
          cr_iterations := iterations;
          cr_total_iterations := length iterations;
          cr_converged := (Z.of_nat (length iterations) <? max_iterations)%Z;
          cr_final_similarity :=
            (if (1 <? length iterations)%nat
             then match last iterations with
                  | Some d => it_similarity_to_previous d
                  | None => 0%Q
                  end
             else 0%Q);
          cr_language_route := lang_a ++ U " ↔ " ++ lang_b;
          cr_parameters := (max_iterations, similarity_threshold) |}.

Definition default_max_iterations : Z := 20.
Definition default_similarity_threshold : Q := 96 # 100.

(** ** The wrapper class and the web layer

    [PhoneticFuzzer.process_text] of [phonetic_fuzzer.py], and
    [format_results_for_template] and the JSON route [api_fuzz] of [app.py].
    A reply is the dictionary handed back (to [jsonify] in the route). *)

Record variation : Type := {
  vr_text : str;
  vr_similarity : Q;
  vr_confidence : str
}.

Record processed_word : Type := {
  pw_original : str;
  pw_variations : list variation;
  pw_transformation_chain : str
}.

(** A value of a JSON document as [json.loads] gives it to Python: [None], a
    [bool], a number, a [str], a [list], or a [dict] with string keys.  Of a
    number only its being zero is looked at. *)
#[warnings="-register-all"]
Inductive json : Type :=
| JNull
| JBool (b : bool)
| JNumber (q : Q)
| JString (s : str)
| JArray (l : list json)
| JObject (d : gmap str json).

Record formatted : Type := {
  fr_original_text : str;
  fr_transformed_text : str;
  fr_method : json;
  fr_language_route : str;
  fr_word_count : nat;
  fr_processed_words : list processed_word;
  fr_total_variations : nat;
  fr_avg_similarity : Q
}.

(** The body of the loop [for word_detail in ...]. *)
Definition format_word (word_detail : word_detail) : processed_word :=
  {| pw_original := wd_original word_detail;
     pw_variations :=
       [ {| vr_text := wd_original word_detail;
            vr_similarity := 1;
            vr_confidence := U "Original" |};
         {| vr_text := wd_transformed word_detail;
            vr_similarity := 8 # 10;
            vr_confidence := U "High" |} ];
     pw_transformation_chain := wd_chain word_detail |}.

Definition format_results_for_template (results : sentence_result) (input_text : str)
    : formatted :=
  let processed_words := map format_word (sr_word_transformations results) in
  {| fr_original_text := input_text;
     fr_transformed_text := sr_transformed_sentence results;
     fr_method := JString (sr_method results);
     fr_language_route := sr_language_route results;
     fr_word_count := sr_word_count results;
     fr_processed_words := processed_words;
     fr_total_variations := length processed_words * 2;
     fr_avg_similarity := 85 # 100 |}.

(** What an [except Exception as e] clause can catch here: an exception of
    the engine, the [TypeError] of a call that does not fit the signature,
    or an exception that the interpreter or Flask raises for a request body
    of the wrong shape, given by the name of its class. *)
Inductive caught : Type :=
| Engine (e : exn)
| TypeError (msg : str)
| Raised (exception : str).

(** [error msg] is [{"error": msg}]; [error_str prefix e] is
    [{"error": prefix + str(e)}]. *)
Inductive reply : Type :=
| error (msg : str)
| error_str (prefix : str) (e : caught)
| results (f : formatted).

(** The parameters of [Hazer.hybrid_haze] after [self]. *)
Definition hybrid_haze_parameters : list str :=
  [U "sentence"; U "lang_a"; U "lang_b"].

(** The first keyword argument of a call that is not a parameter of the
    function called; Python raises [TypeError] for it before the body runs. *)
Definition unexpected_keyword (parameters keywords : list str) : option str :=
  List.find (fun k => negb (existsb (str_eqb k) parameters)) keywords.

Definition unexpected_keyword_message (function keyword : str) : str :=
  function ++ U "() got an unexpected keyword argument '" ++ keyword ++ U "'".

(** The call [self.hazer.hybrid_haze(text, "english", "spanish",
    method="nonfuzzy")] passes the keyword [method]. *)
Definition process_text (E : env) (text : str) : M reply :=
  match strip text with
  | [] => mret (error (U "Empty text provided"))
  | _ =>
    match unexpected_keyword hybrid_haze_parameters [U "method"] with
    | Some keyword =>
      mret (error_str (U "Processing failed: ")
              (TypeError (unexpected_keyword_message (U "Hazer.hybrid_haze") keyword)))
    | None =>
      fun c =>
        match hybrid_haze E text (U "english") (U "spanish") c with
        | (Return result, c') =>
          (Return (results (format_results_for_template result text)), c')
        | (Raise e, c') =>
          (Return (error_str (U "Processing failed: ") (Engine e)), c')
        end
    end
  end.

(** The dictionary [LANGUAGES] of [app.py]. *)
Definition LANGUAGES : list (str * str) :=
  [ (U "english", U "English"); (U "spanish", U "Spanish");
    (U "french", U "French"); (U "german", U "German");
    (U "italian", U "Italian"); (U "portuguese", U "Portuguese") ].

Definition in_LANGUAGES (lang : str) : bool :=
  match dict_lookup lang LANGUAGES with
  | Some _ => true
  | None => false
  end.

(** [sub in s] for two strings *)
Fixpoint contains (sub s : str) : bool :=
  starts_with sub s
  || match s with
     | [] => false
     | _ :: s' => contains sub s'
     end.

(** [value == s] for a string [s] *)
Definition is_str (s : str) (value : json) : bool :=
  match value with
  | JString s' => str_eqb s' s
  | _ => false
  end.

(** [bool(value)] *)
Definition json_truthy (value : json) : bool :=
  match value with
  | JNull => false
  | JBool b => b
  | JNumber q => negb (Qeq_bool q 0)
  | JString s => truthy s
  | JArray l => truthy l
  | JObject d => truthy (map_to_list d)
  end.

(** The outcome of [request.get_json()]: the parsed body, or the exception
    that Flask raises for a body that is not JSON. *)
Inductive get_json : Type :=
| get_json_raises (exception : str)
| get_json_returns (data : json).

(** The outcome of [value in LANGUAGES]: the test hashes the value, which
    raises [TypeError] for a [list] and for a [dict]; no key of [LANGUAGES]
    equals a value that is not a string. *)
Inductive membership : Type :=
| unhashable
| absent
| present (key : str).

Definition LANGUAGES_member (value : json) : membership :=
  match value with
  | JString s => if in_LANGUAGES s then present s else absent
  | JArray _ | JObject _ => unhashable
  | _ => absent
  end.

(** The call of the engine in [api_fuzz].  [haze] uses its [method] in the
    test [method == "fuzzy"] and in the result only; for a value that is not
    a string the test is false, as it is for the string "translate", and the
    value is written into the result by [echo]. *)
Definition hazer_call (E : env) (input_text lang_a lang_b : str) (method : json)
    : M sentence_result :=
  match method with
  | JString method =>
    if str_eqb method (U "hybrid")
    then hybrid_haze E input_text lang_a lang_b
    else haze E input_text lang_a lang_b method
  | _ => haze E input_text lang_a lang_b (U "translate")
  end.

Definition echo (method : json) (f : formatted) : formatted :=
  match method with
  | JString _ => f
  | _ =>
    {| fr_original_text := fr_original_text f;
       fr_transformed_text := fr_transformed_text f;
       fr_method := method;
       fr_language_route := fr_language_route f;
       fr_word_count := fr_word_count f;
       fr_processed_words := fr_processed_words f;
       fr_total_variations := fr_total_variations f;
       fr_avg_similarity := fr_avg_similarity f |}
  end.

(** The exit [except Exception as e] of [api_fuzz] for an exception that is
    not the engine's. *)
Definition raised (exception : str) : M (reply * N) :=
  mret (error_str [] (Raised exception), 500).

(** [api_fuzz], with [body] the outcome of [request.get_json()]; the reply
    comes with its HTTP status.  The engine is the module's [hazer].  Every
    exception raised in the [try] is caught and answered with status 500:
    that of [get_json]; the [TypeError] of ['text' not in data] for a [bool]
    or a number, of [data['text']] for a [str] or a [list], and of the
    membership test for a language that cannot be hashed; the
    [AttributeError] of [.strip()] for a text that is not a string; and an
    exception of the engine. *)
Definition api_fuzz (E : env) (body : get_json) : M (reply * N) :=
  match body with
  | get_json_raises exception => raised exception
  | get_json_returns data =>
    if negb (json_truthy data) then mret (error (U "No text provided"), 400)
    else
      match data with
      | JObject d =>
        match d !! U "text" with
        | None => mret (error (U "No text provided"), 400)
        | Some (JString text) =>
          let input_text := strip text in
          let lang_a := default (JString (U "english")) (d !! U "lang_a") in
          let lang_b := default (JString (U "spanish")) (d !! U "lang_b") in
          let method := default (JString (U "fuzzy")) (d !! U "method") in
          if negb (truthy input_text) then mret (error (U "Empty text provided"), 400)
          else if (5000 <? length input_text)%nat
          then mret (error (U "Text too long. Limit: 5000 characters"), 400)
          else
            match LANGUAGES_member lang_a with
            | unhashable => raised (U "TypeError")
            | absent => mret (error (U "Invalid language selection"), 400)
            | present lang_a =>
              match LANGUAGES_member lang_b with
              | unhashable => raised (U "TypeError")
              | absent => mret (error (U "Invalid language selection"), 400)
              | present lang_b =>
                if str_eqb lang_a lang_b
                then mret (error (U "Source and target languages must be different"),
                           400)
                else
                  fun c =>
                    match hazer_call E input_text lang_a lang_b method c with
                    | (Return res, c') =>
                      (Return (results (echo method
                                          (format_results_for_template res input_text)),
                               200), c')
                    | (Raise e, c') => (Return (error_str [] (Engine e), 500), c')
                    end
              end
            end
        | Some _ => raised (U "AttributeError")
        end
      | JArray l =>
        if existsb (is_str (U "text")) l then raised (U "TypeError")
        else mret (error (U "No text provided"), 400)
      | JString s =>
        if contains (U "text") s then raised (U "TypeError")
        else mret (error (U "No text provided"), 400)
      | _ => raised (U "TypeError")
      end
  end.

(** ** Test doubles

    An environment in which every library call fails: no network, no
    translation service, no API key.  The scorer is a stand-in; the results
    stated below with it do not depend on the scores. *)

Definition offline : env :=
  {| ratio := fun a b => if str_eqb a b then 1%Q else 0%Q;
     requests_get := fun _ _ => Raise RequestException;
     google_translate := fun _ _ _ => Raise TranslationError;
     getenv_api_key := None;
     messages_create := fun _ _ => Raise APIError |}.

(** ** Vocabulary of the statements *)

Section Runs.

Variable wordc : char -> bool.

(** The scan never stands inside a word: a word character at the head of the
    remaining text is preceded by a non-word character or by nothing. *)
Definition at_run_start (prev : option char) (s : str) : Prop :=
  is_word_at wordc (head s) = true -> is_word_at wordc prev = false.

(** What a token is: a non-empty run of characters of one kind. *)
Definition is_run (t : str) : bool :=
  match t with
  | [] => false
  | c :: _ => forallb (fun d => Bool.eqb (wordc d) (wordc c)) t
  end.

(** Neighbouring tokens are of different kinds, so every run is maximal.
    [prev] is the kind of the token before, if any. *)
Fixpoint alternating (prev : option bool) (tokens : list str) : bool :=
  match tokens with
  | [] => true
  | t :: rest =>
    negb (bool_decide (prev = Some (starts_with_word wordc t)))
    && alternating (Some (starts_with_word wordc t)) rest
  end.

End Runs.

(** What the cache holds was put there by [load_word_list]: a non-empty
    result of the first tier that produced one. *)
Definition cache_ok (E : env) (c : cache) : Prop :=
  forall (l : str) (ws : list str), c !! l = Some ws ->
    ws <> []
    /\ (ws = _try_frequency_lists E l
        \/ (_try_frequency_lists E l = [] /\ ws = _try_online_wordlist E l)).

(** The error of [_get_builtin_wordlist] for one of two languages. *)
Definition unsupported (lang_a lang_b : str) (e : exn) : Prop :=
  exists l, (l = lang_a \/ l = lang_b)
    /\ e = ValueError (not_supported l)
    /\ dict_lookup (lower l) sample_words = None.

Definition raises_only {A : Type} (P : exn -> Prop) (m : M A) : Prop :=
  forall c e c', m c = (Raise e, c') -> P e.

(** The entries of [sample_words] that are not single words. *)
Definition multiword_entries : list str :=
  [U "bon marché"; U "avoir besoin"; U "aver bisogno"].

Definition embedded_entry_ok (w : str) : bool :=
  bool_decide (lower w = w)
  && ((isalpha w && len_1_25 w) || bool_decide (w ∈ multiword_entries)).

(** The same entries, each with the language whose embedded list holds it. *)
Definition two_word_entry (language w : str) : Prop :=
  (language = U "french" /\ (w = U "bon marché" \/ w = U "avoir besoin"))
  \/ (language = U "italian" /\ w = U "aver bisogno").

Definition two_word_entryb (language w : str) : bool :=
  (str_eqb language (U "french")
   && (str_eqb w (U "bon marché") || str_eqb w (U "avoir besoin")))
  || (str_eqb language (U "italian") && str_eqb w (U "aver bisogno")).

(** An alphabetic word of 1 to 25 characters. *)
Definition word_shape (w : str) : Prop :=
  isalpha w = true /\ len_1_25 w = true.

(** The shapes of the three tiers of [load_word_list]. *)
Definition frequency_shape (ws : list str) : Prop :=
  forall w, In w ws -> lower w = w /\ word_shape w.

Definition online_shape (ws : list str) : Prop :=
  forall w, In w ws -> lower w = w /\ exists raw, w = lower raw /\ word_shape raw.

Definition embedded_shape (language : str) (ws : list str) : Prop :=
  forall w, In w ws -> lower w = w /\ (word_shape w \/ two_word_entry language w).

(** Two caches that give every load the same outcome. *)
Definition same_loads (E : env) (c c' : cache) : Prop :=
  forall l, fst (load_word_list E l c') = fst (load_word_list E l c).

(** The test of [fuzzy_haze] for a failed translation. *)
Definition translation_failed (translated_word matched_word_b : str) : bool :=
  starts_with (U "[untranslated:") translated_word
  || str_eqb translated_word matched_word_b.

(** What [fuzzy_haze] returns for [word], given the two vocabularies. *)
Definition hybrid_word_spec (E : env) (la lb : str) (va vb : list str)
    (word : str) (h : hybrid_word) : Prop :=
  let matched := fst (find_most_similar_word E word vb true) in
  let translated := simple_translate E matched lb la in
  let hop := find_most_similar_word E matched va true in
  fh_original_input h = word
  /\ fh_step1_fuzzy_lang_b h = matched
  /\ if translation_failed translated matched
     then fh_method_used h = U "fuzzy_fallback"
          /\ fh_step2_result h = fst hop /\ fh_final_similarity h = snd hop
     else fh_method_used h = U "translate"
          /\ fh_step2_result h = translated /\ fh_final_similarity h = Fin 1.

(** What [hybrid_haze] records for a word token. *)
Definition hybrid_detail_spec (E : env) (la lb : str) (va vb : list str)
    (item : str) (d : word_detail) : Prop :=
  wd_original d = item
  /\ wd_method d = U "fuzzy_then_translate"
  /\ exists h, hybrid_word_spec E la lb va vb item h
       /\ wd_transformed d = fh_step2_result h
       /\ wd_chain d = fh_hybrid_chain h
       /\ wd_fallback_used d = Some (fh_method_used h).

Definition set_method (method : str) (d : word_detail) : word_detail :=
  {| wd_original := wd_original d;
     wd_transformed := wd_transformed d;
     wd_chain := wd_chain d;
     wd_method := method;
     wd_fallback_used := wd_fallback_used d |}.

(** A sentence result with another method name written into it. *)
Definition relabel (method : str) (r : sentence_result) : sentence_result :=
  {| sr_original_sentence := sr_original_sentence r;
     sr_transformed_sentence := sr_transformed_sentence r;
     sr_method := method;
     sr_language_route := sr_language_route r;
     sr_word_transformations := map (set_method method) (sr_word_transformations r);
     sr_word_count := sr_word_count r |}.

Definition map_outcome {A B : Type} (f : A -> B) (o : result A * cache) : result B * cache :=
  match o with
  | (Return a, c) => (Return (f a), c)
  | (Raise e, c) => (Raise e, c)
  end.

(** The iteration records [new] that the loop appends when it starts with
    [todo] iterations left, loop variable [i] and text [cur], and the text
    [cur'] it ends with. *)
Fixpoint trace_ok (E : env) (thr : Q) (todo i : nat) (cur : str)
    (new : list iteration_data) (cur' : str) : Prop :=
  match new with
  | [] => todo = 0%nat /\ cur' = cur
  | d :: rest =>
    exists todo', todo = S todo'
      /\ it_iteration d = (i + 1)%nat
      /\ it_input_text d = cur
      /\ it_similarity_to_previous d
         = (if (0 <? i)%nat then ratio E (lower cur) (lower (it_output_text d))
            else 0%Q)
      /\ if Qle_bool thr (it_similarity_to_previous d)
         then rest = [] /\ cur' = cur
         else trace_ok E thr todo' (S i) (it_output_text d) rest cur'
  end.

(** The text the loop ends with, read off the last record. *)
Definition text_after (thr : Q) (initial : str) (its : list iteration_data) : str :=
  match last its with
  | None => initial
  | Some d =>
    if Qle_bool thr (it_similarity_to_previous d)
    then it_input_text d
    else it_output_text d
  end.

(** A candidate that the scan of [find_most_similar_word] does not skip. *)
Definition kept (force_fuzzy : bool) (target_word word : str) : bool :=
  negb (force_fuzzy && str_eqb (lower word) (lower target_word)).

(** The tokens with the word tokens replaced, in order, by [words]. *)
Fixpoint substitute (tokens words : list str) : list str :=
  match tokens with
  | [] => []
  | t :: rest =>
    if match_word t then
      match words with
      | w :: words' => w :: substitute rest words'
      | [] => t :: substitute rest []
      end
    else t :: substitute rest words
  end.

(** The requests that [api_fuzz] lets through to the engine: the body is an
    object whose text is a string that is not blank and has at most 5000
    characters when stripped, and whose languages, english and spanish when
    missing, are two different keys of [LANGUAGES]. *)
Definition accepted (body : get_json) (text lang_a lang_b : str) (method : json) : Prop :=
  exists d,
    body = get_json_returns (JObject d)
    /\ d !! U "text" = Some (JString text)
    /\ strip text <> []
    /\ (length (strip text) <= 5000)%nat
    /\ default (JString (U "english")) (d !! U "lang_a") = JString lang_a
    /\ default (JString (U "spanish")) (d !! U "lang_b") = JString lang_b
    /\ in_LANGUAGES lang_a = true
    /\ in_LANGUAGES lang_b = true
    /\ lang_a <> lang_b
    /\ method = default (JString (U "fuzzy")) (d !! U "method").

(** A list or a dictionary. *)
Definition container (value : json) : Prop :=
  (exists l, value = JArray l) \/ (exists d, value = JObject d).

(** A value that is not a key of [LANGUAGES], but can be hashed. *)
Definition no_language (value : json) : Prop :=
  ~ container value /\ forall s, value = JString s -> in_LANGUAGES s = false.

(** The text of an object that passes the checks of the text. *)
Definition text_passes (d : gmap str json) : Prop :=
  exists text, d !! U "text" = Some (JString text)
    /\ strip text <> [] /\ (length (strip text) <= 5000)%nat.

(** The requests that [api_fuzz] refuses, with the message of the refusal. *)
Inductive invalid : get_json -> str -> Prop :=
| invalid_falsy (data : json) :
    json_truthy data = false ->
    invalid (get_json_returns data) (U "No text provided")
| invalid_no_key (d : gmap str json) :
    d !! U "text" = None ->
    invalid (get_json_returns (JObject d)) (U "No text provided")
| invalid_not_in_list (l : list json) :
    ~ In (JString (U "text")) l ->
    invalid (get_json_returns (JArray l)) (U "No text provided")
| invalid_not_in_str (s : str) :
    contains (U "text") s = false ->
    invalid (get_json_returns (JString s)) (U "No text provided")
| invalid_blank (d : gmap str json) (text : str) :
    d !! U "text" = Some (JString text) ->
    strip text = [] ->
    invalid (get_json_returns (JObject d)) (U "Empty text provided")
| invalid_long (d : gmap str json) (text : str) :
    d !! U "text" = Some (JString text) ->
    (5000 < length (strip text))%nat ->
    invalid (get_json_returns (JObject d)) (U "Text too long. Limit: 5000 characters")
| invalid_lang_a (d : gmap str json) :
    text_passes d ->
    no_language (default (JString (U "english")) (d !! U "lang_a")) ->
    invalid (get_json_returns (JObject d)) (U "Invalid language selection")
| invalid_lang_b (d : gmap str json) (lang_a : str) :
    text_passes d ->
    default (JString (U "english")) (d !! U "lang_a") = JString lang_a ->
    in_LANGUAGES lang_a = true ->
    no_language (default (JString (U "spanish")) (d !! U "lang_b")) ->
    invalid (get_json_returns (JObject d)) (U "Invalid language selection")
| invalid_same (d : gmap str json) (lang : str) :
    text_passes d ->
    default (JString (U "english")) (d !! U "lang_a") = JString lang ->
    default (JString (U "spanish")) (d !! U "lang_b") = JString lang ->
    in_LANGUAGES lang = true ->
    invalid (get_json_returns (JObject d))
      (U "Source and target languages must be different").

(** The requests for which a step of [api_fuzz] before the engine raises,
    with the class of the exception. *)
Inductive handler_raises : get_json -> str -> Prop :=
| raises_get_json (exception : str) :
    handler_raises (get_json_raises exception) exception
| raises_in_bool :
    handler_raises (get_json_returns (JBool true)) (U "TypeError")
| raises_in_number (q : Q) :
    ~ (q == 0)%Q ->
    handler_raises (get_json_returns (JNumber q)) (U "TypeError")
| raises_subscript_str (s : str) :
    contains (U "text") s = true ->
    handler_raises (get_json_returns (JString s)) (U "TypeError")
| raises_subscript_list (l : list json) :
    In (JString (U "text")) l ->
    handler_raises (get_json_returns (JArray l)) (U "TypeError")
| raises_strip (d : gmap str json) (value : json) :
    d !! U "text" = Some value ->
    (forall s, value <> JString s) ->
    handler_raises (get_json_returns (JObject d)) (U "AttributeError")
| raises_hash_a (d : gmap str json) :
    text_passes d ->
    container (default (JString (U "english")) (d !! U "lang_a")) ->
    handler_raises (get_json_returns (JObject d)) (U "TypeError")
| raises_hash_b (d : gmap str json) (lang_a : str) :
    text_passes d ->
    default (JString (U "english")) (d !! U "lang_a") = JString lang_a ->
    in_LANGUAGES lang_a = true ->
    container (default (JString (U "spanish")) (d !! U "lang_b")) ->
    handler_raises (get_json_returns (JObject d)) (U "TypeError").

(** The method that the results of [api_fuzz] name. *)
Definition method_shown (method : json) : json :=
  match method with
  | JString m =>
    JString (if str_eqb m (U "hybrid") then U "fuzzy_then_translate" else m)
  | _ => method
  end.

(** No character of [s] equals its neighbour, zeros apart. *)
Fixpoint no_repeat_but_zero (s : str) : bool :=
  match s with
  | a :: ((b :: _) as rest) => ((a =? 48) || negb (a =? b)) && no_repeat_but_zero rest
  | _ => true
  end.

(** The iteration records are numbered from [i + 1]; each takes up the
    output of the one before, the first taking up [cur]; and each holds what
    [hybrid_haze] made of its input, the output text cleaned up. *)
Fixpoint chained (E : env) (la lb : str) (i : nat) (cur : str)
    (its : list iteration_data) : Prop :=
  match its with
  | [] => True
  | d :: rest =>
    it_iteration d = (i + 1)%nat
    /\ it_input_text d = cur
    /\ (exists r c0 c1,
          hybrid_haze E cur la lb c0 = (Return r, c1)
          /\ it_output_text d = cleanup (sr_transformed_sentence r)
          /\ it_word_transformations d = sr_word_transformations r)
    /\ it_transformation_count d = length (it_word_transformations d)
    /\ chained E la lb (S i) (it_output_text d) rest
  end.

Definition digit_1_6 (c : char) : bool := between 49 54 c.

(** Neighbours differ. *)
Fixpoint neighbours_differ (s : str) : bool :=
  match s with
  | a :: ((b :: _) as rest) => negb (a =? b) && neighbours_differ rest
  | _ => true
  end.

Definition digit_0_6 (c : char) : bool := between 48 54 c.

Definition is_vowel (c : char) : bool := bool_decide (c ∈ U "AEIOU").

Definition dictionary_inverse_ok (p : (str * str) * list (str * str)) : bool :=
  forallb (fun q =>
             str_eqb (dictionary_translate (fst q) (fst (fst p)) (snd (fst p))) (snd q)
             && str_eqb (dictionary_translate (snd q) (snd (fst p)) (fst (fst p))) (fst q))
          (snd p).

(** The sentence result of [haze] or [hybrid_haze] is well formed. *)
Definition rebuilt (E : env) (sentence la : str) (r : sentence_result) : Prop :=
  sr_original_sentence r = sentence
  /\ map wd_original (sr_word_transformations r)
     = List.filter match_word (findall_tokens sentence)
  /\ sr_word_count r = length (List.filter match_word (findall_tokens sentence))
  /\ sr_transformed_sentence r
     = generate_final_text E
         (concat (substitute (findall_tokens sentence)
                    (map wd_transformed (sr_word_transformations r)))) la.

(** What [haze] records for a word token with the method "fuzzy". *)
Definition fuzzy_detail_ok (E : env) (va vb : list str) (d : word_detail) : Prop :=
  let matched := fst (find_most_similar_word E (wd_original d) vb true) in
  wd_transformed d = fst (find_most_similar_word E matched va true)
  /\ wd_chain d = wd_original d ++ arrow ++ matched ++ arrow ++ wd_transformed d
  /\ (matched = [] \/ (In matched vb /\ lower matched <> lower (wd_original d)))
  /\ (wd_transformed d = []
      \/ (In (wd_transformed d) va /\ lower (wd_transformed d) <> lower matched)).

(** What [haze] records for a word token with a method other than "fuzzy". *)
Definition translate_detail_ok (E : env) (la lb : str) (vb : list str)
    (d : word_detail) : Prop :=
  let matched := fst (find_most_similar_word E (wd_original d) vb true) in
  wd_transformed d = simple_translate E matched lb la
  /\ wd_chain d = wd_original d ++ arrow ++ matched ++ arrow ++ wd_transformed d.

(** The record holds what [transform_direct_fuzzy] returns for its word,
    called with the cache [c]. *)
Definition by_direct_fuzzy (E : env) (la lb : str) (c : cache) (d : word_detail) : Prop :=
  exists res,
    fst (transform_direct_fuzzy E (wd_original d) la lb c) = Return res
    /\ wd_transformed d = df_step2_final_lang_a res
    /\ wd_chain d = df_direct_fuzzy_chain res.

(** The record holds what [transform_direct_translate] returns for its word,
    called with the cache [c]. *)
Definition by_direct_translate (E : env) (la lb : str) (c : cache)
    (d : word_detail) : Prop :=
  exists res,
    fst (transform_direct_translate E (wd_original d) la lb c) = Return res
    /\ wd_transformed d = dt_final_translation res
    /\ wd_chain d = dt_direct_chain res.

(** A record written by [haze]: it names the method and has no fallback
    mark. *)
Definition labelled (method : str) (d : word_detail) : Prop :=
  wd_method d = method /\ wd_fallback_used d = None.

Definition marker : str := U "[untranslated:".

(** What [hybrid_haze] records for a word token. *)
Definition hybrid_detail_ok (E : env) (la lb : str) (va vb : list str)
    (d : word_detail) : Prop :=
  let matched := fst (find_most_similar_word E (wd_original d) vb true) in
  let translated := simple_translate E matched lb la in
  ((translation_failed translated matched = false
    /\ wd_fallback_used d = Some (U "translate")
    /\ wd_transformed d = translated)
   \/ (translation_failed translated matched = true
       /\ wd_fallback_used d = Some (U "fuzzy_fallback")
       /\ wd_transformed d = fst (find_most_similar_word E matched va true)))
  /\ starts_with marker (wd_transformed d) = false
  /\ wd_method d = U "fuzzy_then_translate".

(** * Proofs *)


Ltac splits := repeat match goal with |- _ /\ _ => split end.

(** ** Strings *)

Lemma upper_c_length (c : char) : (1 <= length (upper_c c))%nat.
Proof.
  unfold upper_c.
  repeat match goal with |- context [if ?b then _ else _] => destruct b end;
    simpl; lia.
Qed.

Lemma lower_c_length (c : char) : (1 <= length (lower_c c))%nat.
Proof.
  unfold lower_c.
  repeat match goal with |- context [if ?b then _ else _] => destruct b end;
    simpl; lia.
Qed.

Lemma upper_length (s : str) : (length s <= length (upper s))%nat.
Proof.
  induction s as [|c s IH]; simpl; [lia|].
  rewrite length_app. pose proof (upper_c_length c). lia.
Qed.

Lemma lower_length (s : str) : (length s <= length (lower s))%nat.
Proof.
  induction s as [|c s IH]; simpl; [lia|].
  rewrite length_app. pose proof (lower_c_length c). lia.
Qed.

Lemma lower_nil_inv (s : str) : lower s = [] -> s = [].
Proof.
  intros H. pose proof (lower_length s) as Hl. rewrite H in Hl.
  destruct s; [reflexivity | simpl in Hl; lia].
Qed.

(** ** Phonetic encoder *)

(** C7.  For every word, the empty one included, [soundex] returns exactly
    four characters and [metaphone_simple] at most six.  Both are total
    functions; the index [word[0]] of [soundex] is in range because
    upper-casing never shortens a word. *)
Theorem encoder_code_lengths (w : str) :
  length (soundex w) = 4%nat
  /\ (length (metaphone_simple w) <= 6)%nat
  /\ (length w <= length (upper w))%nat.
Proof.
  split; [|split].
  - destruct w as [|c w]; [reflexivity|].
    unfold soundex. rewrite length_take, length_app.
    change (length (U "0000")) with 4%nat. lia.
  - destruct w as [|c w]; [simpl; lia|].
    unfold metaphone_simple. rewrite length_take. lia.
  - apply upper_length.
Qed.

Example soundex_robert : soundex (U "Robert") = U "R163".
Proof. vm_compute. reflexivity. Qed.

Example metaphone_school : metaphone_simple (U "Schloß") = U "SKLS".
Proof. vm_compute. reflexivity. Qed.

(** ** Tokenization

    The lemmas hold for every character class in the place of [\w], so they
    do not depend on how far the table [is_word] follows Unicode. *)

Section Tokenization.

Variable wordc : char -> bool.

Lemma match_w_plus_b_spec (s m r : str) :
  match_w_plus_b wordc s = Some (m, r) ->
  s = m ++ r /\ m <> [] /\ forallb wordc m = true /\ is_word_at wordc (head r) = false.
Proof.
  revert m r. induction s as [|c s IH]; intros m r H; simpl in H; [discriminate|].
  destruct (wordc c) eqn:Hc; [|discriminate].
  destruct (match_w_plus_b wordc s) as [[m' r']|] eqn:Hrec.
  - inversion H; subst. destruct (IH m' r eq_refl) as (-> & _ & Hall & Hr).
    repeat split; auto. simpl. now rewrite Hc, Hall.
  - destruct (boundary wordc (Some c) (head s)) eqn:Hb; [|discriminate].
    inversion H; subst. repeat split; auto.
    + simpl. now rewrite Hc.
    + unfold boundary in Hb. simpl in Hb. rewrite Hc in Hb.
      now destruct (is_word_at wordc (head r)).
Qed.

Lemma match_w_plus_b_some (c : char) (s : str) :
  wordc c = true -> exists m r, match_w_plus_b wordc (c :: s) = Some (m, r).
Proof.
  revert c. induction s as [|c' s IH]; intros c Hc; simpl; rewrite Hc.
  - unfold boundary. simpl. rewrite Hc. simpl. eauto.
  - destruct (wordc c') eqn:Hc'.
    + destruct (IH c' Hc') as (m & r & Hm). simpl in Hm. rewrite Hc' in Hm.
      rewrite Hm. eauto.
    + unfold boundary. simpl. rewrite Hc, Hc'. simpl. eauto.
Qed.

Lemma match_W_plus_spec (s m r : str) :
  match_W_plus wordc s = Some (m, r) ->
  s = m ++ r /\ m <> [] /\ forallb (fun c => negb (wordc c)) m = true
  /\ is_word_at wordc (last m) = false /\ (r = [] \/ is_word_at wordc (head r) = true).
Proof.
  revert m r. induction s as [|c s IH]; intros m r H; simpl in H; [discriminate|].
  destruct (wordc c) eqn:Hc; [discriminate|].
  destruct (match_W_plus wordc s) as [[m' r']|] eqn:Hrec.
  - inversion H; subst. destruct (IH m' r eq_refl) as (-> & Hne & Hall & Hl & Hr).
    repeat split; auto.
    + simpl. now rewrite Hc, Hall.
    + destruct m' as [|x m']; [congruence|]. exact Hl.
  - inversion H; subst. split; [reflexivity|]. split; [discriminate|].
    split; [simpl; now rewrite Hc|]. split; [exact Hc|].
    destruct r as [|c' r]; [now left|right]. simpl in *.
    destruct (wordc c'); [reflexivity|].
    destruct (match_W_plus wordc r) as [[? ?]|]; discriminate.
Qed.

Lemma match_W_plus_some (c : char) (s : str) :
  wordc c = false -> exists m r, match_W_plus wordc (c :: s) = Some (m, r).
Proof.
  intros Hc. simpl. rewrite Hc. destruct (match_W_plus wordc s) as [[m r]|]; eauto.
Qed.

Lemma forallb_word_last (m : str) :
  m <> [] -> forallb wordc m = true -> is_word_at wordc (last m) = true.
Proof.
  induction m as [|c m IH]; intros Hne Hall; [congruence|].
  simpl in Hall. apply andb_prop in Hall as [Hc Hall].
  destruct m as [|c' m]; [exact Hc|]. apply IH; [discriminate | exact Hall].
Qed.

Lemma match_token_spec (prev : option char) (c : char) (s : str) :
  at_run_start wordc prev (c :: s) ->
  exists m r, match_token wordc prev (c :: s) = Some (m, r)
    /\ c :: s = m ++ r /\ is_run wordc m = true
    /\ starts_with_word wordc m = wordc c
    /\ is_word_at wordc (last m) = wordc c
    /\ (r <> [] -> is_word_at wordc (head r) = negb (wordc c)).
Proof.
  intros Hinv. unfold match_token.
  destruct (wordc c) eqn:Hc.
  - assert (Hb : boundary wordc prev (head (c :: s)) = true).
    { unfold boundary, at_run_start in *. simpl in *. rewrite Hc in *.
      now rewrite Hinv. }
    rewrite Hb. destruct (match_w_plus_b_some c s Hc) as (m & r & Hm).
    rewrite Hm. exists m, r.
    destruct (match_w_plus_b_spec _ _ _ Hm) as (Heq & Hne & Hall & Hr).
    destruct m as [|x m]; [congruence|]. inversion Heq; subst x.
    split; [reflexivity|]. split; [first [exact Heq | reflexivity]|]. split; [|split; [|split]].
    + simpl. rewrite Hc. simpl. simpl in Hall. rewrite Hc in Hall. simpl in Hall.
      rewrite forallb_forall in *. intros d Hd. now rewrite (Hall d Hd).
    + exact Hc.
    + apply forallb_word_last; [discriminate | exact Hall].
    + intros _. exact Hr.
  - assert (Hnone : (if boundary wordc prev (head (c :: s))
                     then match_w_plus_b wordc (c :: s) else None) = None).
    { destruct (boundary wordc _ _); [|reflexivity]. simpl. now rewrite Hc. }
    rewrite Hnone. destruct (match_W_plus_some c s Hc) as (m & r & Hm).
    rewrite Hm. exists m, r.
    destruct (match_W_plus_spec _ _ _ Hm) as (Heq & Hne & Hall & Hl & Hr).
    destruct m as [|x m]; [congruence|]. inversion Heq; subst x.
    split; [reflexivity|]. split; [first [exact Heq | reflexivity]|]. split; [|split; [|split]].
    + simpl. rewrite Hc. simpl. simpl in Hall. rewrite Hc in Hall. simpl in Hall.
      rewrite forallb_forall in *. intros d Hd. specialize (Hall d Hd).
      now destruct (wordc d).
    + exact Hc.
    + exact Hl.
    + intros Hrne. destruct Hr as [->|Hr]; [congruence | exact Hr].
Qed.

Lemma findall_scan_spec (fuel : nat) (prev : option char) (s : str) :
  (length s <= fuel)%nat -> at_run_start wordc prev s ->
  concat (findall_scan wordc fuel prev s) = s
  /\ forallb (is_run wordc) (findall_scan wordc fuel prev s) = true
  /\ (forall k, k <> Some (is_word_at wordc (head s)) ->
        alternating wordc k (findall_scan wordc fuel prev s) = true).
Proof.
  revert prev s. induction fuel as [|fuel IH]; intros prev s Hlen Hinv.
  - destruct s; [simpl; auto | simpl in Hlen; lia].
  - destruct s as [|c s]; [simpl; auto|].
    destruct (match_token_spec prev c s Hinv)
      as (m & r & Hm & Heq & Hrun & Hkind & Hlast & Hnext).
    cbn [findall_scan]. rewrite Hm.
    assert (Hmne : m <> []) by (destruct m; [discriminate | discriminate]).
    assert (Hr : (length r <= fuel)%nat).
    { apply (f_equal (@length N)) in Heq. rewrite length_app in Heq.
      simpl in Heq, Hlen. destruct m; [congruence | simpl in Heq; lia]. }
    assert (Hinv' : at_run_start wordc (last m) r).
    { unfold at_run_start. intros Hw. destruct r as [|d r]; [discriminate|].
      rewrite Hnext in Hw by discriminate. rewrite Hlast.
      now destruct (wordc c). }
    destruct (IH (last m) r Hr Hinv') as (Hcat & Hruns & Halt).
    split; [|split].
    + simpl. rewrite Hcat. now symmetry.
    + simpl. now rewrite Hrun, Hruns.
    + intros k Hk. simpl. rewrite Hkind. simpl in Hk.
      rewrite bool_decide_eq_false_2 by exact Hk. simpl.
      destruct r as [|d r].
      * destruct fuel; reflexivity.
      * apply Halt. rewrite Hnext by discriminate. simpl.
        destruct (wordc c); discriminate.
Qed.

Lemma tokens_of_any_class (sentence : str) :
  concat (findall_scan wordc (length sentence) None sentence) = sentence
  /\ forallb (is_run wordc) (findall_scan wordc (length sentence) None sentence) = true
  /\ alternating wordc None (findall_scan wordc (length sentence) None sentence) = true.
Proof.
  destruct (findall_scan_spec (length sentence) None sentence) as (H1 & H2 & H3).
  - lia.
  - unfold at_run_start. reflexivity.
  - split; [exact H1 | split; [exact H2 | apply H3; discriminate]].
Qed.

End Tokenization.

(** C4.  The tokens that [haze] and [hybrid_haze] obtain from
    [re.findall(r"\b\w+\b|\W+", sentence)], joined in order with nothing
    changed, are the sentence again.  Every token is a non-empty run of word
    characters or of non-word characters, and neighbouring tokens differ in
    kind, so the runs are maximal and no character is skipped. *)
Theorem tokenization_round_trip (sentence : str) :
  concat (findall_tokens sentence) = sentence
  /\ forallb (is_run is_word) (findall_tokens sentence) = true
  /\ alternating is_word None (findall_tokens sentence) = true.
Proof. apply tokens_of_any_class. Qed.

Example tokens_hello_world :
  findall_tokens (U "hello, world!") = [U "hello"; U ", "; U "world"; U "!"].
Proof. vm_compute. reflexivity. Qed.

(** ** Nearest-match finder *)

Lemma find_loop_result (E : env) (t bm : str) (bd : fnum) (l : list str) :
  fst (find_loop E t true bm bd l) = bm
  \/ (In (fst (find_loop E t true bm bd l)) l
      /\ lower (fst (find_loop E t true bm bd l)) <> lower t).
Proof.
  revert bm bd. induction l as [|w l IH]; intros bm bd; [now left|].
  cbn [find_loop andb In]. unfold str_eqb. case_bool_decide as Hw.
  - destruct (IH bm bd) as [H|[H1 H2]]; [now left | right; auto].
  - cbv zeta. destruct (flt (Fin (phonetic_distance E t w)) bd).
    + destruct (IH w (Fin (phonetic_distance E t w))) as [H|[H1 H2]].
      * right. rewrite H. auto.
      * right. auto.
    + destruct (IH bm bd) as [H|[H1 H2]]; [now left | right; auto].
Qed.

(** From an infinite best distance, the first candidate that is not skipped
    is taken, so the result is one of the candidates. *)
Lemma find_loop_candidate (E : env) (t bm : str) (l : list str) :
  (exists w, In w l /\ lower w <> lower t) ->
  In (fst (find_loop E t true bm PInf l)) l
  /\ lower (fst (find_loop E t true bm PInf l)) <> lower t.
Proof.
  induction l as [|w l IH]; intros (x & Hx & Hne); [destruct Hx|].
  cbn [find_loop andb In]. unfold str_eqb. case_bool_decide as Hw.
  - destruct Hx as [->|Hx]; [congruence|].
    destruct IH as [H1 H2]; [eauto | auto].
  - cbv zeta. cbn [flt].
    destruct (find_loop_result E t w (Fin (phonetic_distance E t w)) l) as [H|[H1 H2]].
    + rewrite H. auto.
    + auto.
Qed.

Lemma find_most_similar_word_fst (E : env) (t : str) (l : list str) (b : bool) :
  fst (find_most_similar_word E t l b) = fst (find_loop E t b [] PInf l).
Proof. unfold find_most_similar_word. now destruct (find_loop E t b [] PInf l). Qed.

(** C8.  With [force_fuzzy] set, [find_most_similar_word] never returns the
    target when the vocabulary holds the target and another word: what it
    returns is the empty string (nothing left to choose from) or a candidate
    whose lower-case form differs from the target's, the others being skipped
    by the scan. *)
Theorem nearest_match_is_not_the_target (E : env) (target : str) (vocab : list str) :
  In target vocab ->
  (exists w, In w vocab /\ w <> target) ->
  fst (find_most_similar_word E target vocab true) <> target
  /\ (fst (find_most_similar_word E target vocab true) = []
      \/ (In (fst (find_most_similar_word E target vocab true)) vocab
          /\ lower (fst (find_most_similar_word E target vocab true)) <> lower target)).
Proof.
  intros _ (w & Hw & Hne). rewrite find_most_similar_word_fst.
  destruct (find_loop_result E target [] PInf vocab) as [H|[H1 H2]].
  - split; [|now left]. rewrite H. intros <-.
    destruct (find_loop_candidate E [] [] vocab) as [_ H2].
    + exists w. split; [exact Hw|]. intros Hl. apply lower_nil_inv in Hl. congruence.
    + rewrite H in H2. now apply H2.
  - split; [|right; auto]. intros Heq. rewrite Heq in H2. now apply H2.
Qed.

Lemma nearest_match_is_not_the_target_witness :
  fst (find_most_similar_word offline (U "hello") [U "hello"; U "world"] true)
  <> U "hello".
Proof.
  apply (nearest_match_is_not_the_target offline (U "hello") [U "hello"; U "world"]).
  - left. reflexivity.
  - exists (U "world"). split; [right; left; reflexivity | vm_compute; discriminate].
Defined.

(** ** Word list provider *)

Lemma truthy_false {A : Type} (l : list A) : truthy l = false <-> l = [].
Proof. destruct l; simpl; split; congruence. Qed.

Lemma truthy_true {A : Type} (l : list A) : truthy l = true <-> l <> [].
Proof. destruct l; simpl; split; congruence. Qed.

Lemma cache_ok_empty (E : env) : cache_ok E ∅.
Proof. intros l ws H. rewrite lookup_empty in H. discriminate. Qed.

Lemma cache_ok_load (E : env) (lang : str) (c : cache) :
  cache_ok E c -> cache_ok E (snd (load_word_list E lang c)).
Proof.
  intros Hc. unfold load_word_list.
  destruct (c !! lang) as [ws|] eqn:Hl; [exact Hc|].
  destruct (truthy (_try_frequency_lists E lang)) eqn:H1.
  { simpl. intros l ws Hlk. destruct (decide (lang = l)) as [->|Hne].
    - rewrite lookup_insert_eq in Hlk. inversion Hlk; subst.
      apply truthy_true in H1. auto.
    - rewrite lookup_insert_ne in Hlk by exact Hne. now apply Hc. }
  destruct (truthy (_try_online_wordlist E lang)) eqn:H2.
  { simpl. intros l ws Hlk. destruct (decide (lang = l)) as [->|Hne].
    - rewrite lookup_insert_eq in Hlk. inversion Hlk; subst.
      apply truthy_true in H2. apply truthy_false in H1. auto.
    - rewrite lookup_insert_ne in Hlk by exact Hne. now apply Hc. }
  exact Hc.
Qed.

(** The load of a language that is not cached, tier by tier. *)
Lemma load_uncached (E : env) (lang : str) (c : cache) :
  c !! lang = None ->
  load_word_list E lang c =
    if truthy (_try_frequency_lists E lang)
    then (Return (_try_frequency_lists E lang),
          <[lang := _try_frequency_lists E lang]> c)
    else if truthy (_try_online_wordlist E lang)
    then (Return (_try_online_wordlist E lang),
          <[lang := _try_online_wordlist E lang]> c)
    else (_get_builtin_wordlist lang, c).
Proof. intros H. unfold load_word_list. now rewrite H. Qed.

Lemma load_cached (E : env) (lang : str) (c : cache) (ws : list str) :
  c !! lang = Some ws -> load_word_list E lang c = (Return ws, c).
Proof. intros H. unfold load_word_list. now rewrite H. Qed.




(** *** Errors of the provider and of the pipeline *)

Lemma raises_only_ret {A : Type} (P : exn -> Prop) (a : A) :
  raises_only P (mret a).
Proof. intros c e c' H. discriminate. Qed.

Lemma raises_only_bind {A B : Type} (P : exn -> Prop) (m : M A) (k : A -> M B) :
  raises_only P m -> (forall a, raises_only P (k a)) -> raises_only P (m ≫= k).
Proof.
  intros Hm Hk c e c' H. unfold mbind, M_bind, bind in H.
  destruct (m c) as [[e1|a] c1] eqn:Hmc.
  - inversion H; subst. eapply Hm, Hmc.
  - eapply Hk, H.
Qed.

Lemma load_raises (E : env) (lang : str) (c : cache) (e : exn) (c' : cache) :
  load_word_list E lang c = (Raise e, c') ->
  e = ValueError (not_supported lang)
  /\ dict_lookup (lower lang) sample_words = None
  /\ _try_frequency_lists E lang = []
  /\ _try_online_wordlist E lang = []
  /\ c !! lang = None /\ c' = c.
Proof.
  unfold load_word_list. destruct (c !! lang) eqn:Hl; [discriminate|].
  destruct (truthy (_try_frequency_lists E lang)) eqn:H1; [discriminate|].
  destruct (truthy (_try_online_wordlist E lang)) eqn:H2; [discriminate|].
  unfold _get_builtin_wordlist.
  destruct (dict_lookup (lower lang) sample_words) eqn:Hd; [discriminate|].
  intros H. inversion H; subst.
  apply truthy_false in H1, H2. auto 10.
Qed.

Lemma load_raises_only (E : env) (la lb l : str) :
  l = la \/ l = lb -> raises_only (unsupported la lb) (load_word_list E l).
Proof.
  intros Hl c e c' H. apply load_raises in H as (-> & Hd & _).
  exists l. auto.
Qed.

Ltac raises_step :=
  first
    [ apply raises_only_ret
    | apply raises_only_bind; [|intros ?]
    | apply load_raises_only; auto
    | match goal with
      | |- raises_only _ (let '(_, _) := ?x in _) => destruct x
      | |- raises_only _ (if ?b then _ else _) => destruct b
      end ].

Lemma fuzzy_haze_raises_only (E : env) (w la lb : str) :
  raises_only (unsupported la lb) (fuzzy_haze E w la lb).
Proof. unfold fuzzy_haze. repeat raises_step. Qed.

Lemma transform_direct_fuzzy_raises_only (E : env) (w la lb : str) :
  raises_only (unsupported la lb) (transform_direct_fuzzy E w la lb).
Proof. unfold transform_direct_fuzzy. repeat raises_step. Qed.

Lemma transform_direct_translate_raises_only (E : env) (w la lb : str) :
  raises_only (unsupported la lb) (transform_direct_translate E w la lb).
Proof. unfold transform_direct_translate. repeat raises_step. Qed.

Lemma haze_loop_raises_only (E : env) (la lb method : str) (words tw : list str)
    (wd : list word_detail) :
  raises_only (unsupported la lb) (haze_loop E la lb method words tw wd).
Proof.
  revert tw wd. induction words as [|item rest IH]; intros tw wd; cbn [haze_loop].
  - apply raises_only_ret.
  - destruct (match_word item); [|apply IH].
    apply raises_only_bind.
    + unfold haze_word. destruct (str_eqb method (U "fuzzy")).
      * apply raises_only_bind;
          [apply transform_direct_fuzzy_raises_only | intros; apply raises_only_ret].
      * apply raises_only_bind;
          [apply transform_direct_translate_raises_only | intros; apply raises_only_ret].
    + intros [tword chain]. apply IH.
Qed.

Lemma haze_raises_only (E : env) (s la lb method : str) :
  raises_only (unsupported la lb) (haze E s la lb method).
Proof.
  unfold haze. apply raises_only_bind; [apply haze_loop_raises_only|].
  intros [tw wd]. apply raises_only_ret.
Qed.

Lemma hybrid_loop_raises_only (E : env) (la lb : str) (words tw : list str)
    (wd : list word_detail) :
  raises_only (unsupported la lb) (hybrid_loop E la lb words tw wd).
Proof.
  revert tw wd. induction words as [|item rest IH]; intros tw wd; cbn [hybrid_loop].
  - apply raises_only_ret.
  - destruct (match_word item); [|apply IH].
    apply raises_only_bind; [apply fuzzy_haze_raises_only|]. intros h. apply IH.
Qed.

Lemma hybrid_haze_raises_only (E : env) (s la lb : str) :
  raises_only (unsupported la lb) (hybrid_haze E s la lb).
Proof.
  unfold hybrid_haze. apply raises_only_bind; [apply hybrid_loop_raises_only|].
  intros [tw wd]. apply raises_only_ret.
Qed.

Lemma rehaze_loop_raises_only (E : env) (la lb : str) (thr : Q) (todo i : nat)
    (cur : str) (its : list iteration_data) :
  raises_only (unsupported la lb) (rehaze_loop E la lb thr todo i cur its).
Proof.
  revert i cur its. induction todo as [|todo IH]; intros i cur its; cbn [rehaze_loop].
  - apply raises_only_ret.
  - apply raises_only_bind; [apply hybrid_haze_raises_only|]. intros r. cbv zeta.
    destruct (Qle_bool thr _); [apply raises_only_ret | apply IH].
Qed.

Lemma rehaze_raises_only (E : env) (s la lb : str) (n : Z) (thr : Q) :
  raises_only (unsupported la lb) (rehaze E s la lb n thr).
Proof.
  unfold rehaze. apply raises_only_bind; [apply rehaze_loop_raises_only|].
  intros [cur its]. apply raises_only_ret.
Qed.

(** *** Shape of the vocabularies *)

Lemma lower_app (a b : str) : lower (a ++ b) = lower a ++ lower b.
Proof. unfold lower. apply flat_map_app. Qed.

Lemma lower_c_small_idem :
  forallb (fun n => bool_decide (lower (lower_c (N.of_nat n)) = lower_c (N.of_nat n)))
    (seq 0 384) = true.
Proof. vm_compute. reflexivity. Qed.

Lemma between_above (lo hi c : N) : hi < c -> between lo hi c = false.
Proof.
  intros H. unfold between. destruct (N.leb_spec c hi); [lia|].
  apply andb_false_r.
Qed.

Lemma lower_c_large (c : char) : 384 <= c -> lower_c c = [c].
Proof.
  intros H. unfold lower_c.
  rewrite !between_above by lia.
  destruct (N.eqb_spec c 304); [lia|]. destruct (N.eqb_spec c 376); [lia|].
  reflexivity.
Qed.

Lemma lower_c_idem (c : char) : lower (lower_c c) = lower_c c.
Proof.
  destruct (N.lt_ge_cases c 384) as [Hlt|Hge].
  - pose proof lower_c_small_idem as H. rewrite forallb_forall in H.
    assert (Hin : In (N.to_nat c) (seq 0 384)) by (apply in_seq; lia).
    specialize (H _ Hin). rewrite N2Nat.id in H. now apply bool_decide_eq_true in H.
  - rewrite (lower_c_large c Hge). simpl. rewrite (lower_c_large c Hge). reflexivity.
Qed.

Lemma lower_idem (s : str) : lower (lower s) = lower s.
Proof.
  induction s as [|c s IH]; [reflexivity|].
  change (lower (c :: s)) with (lower_c c ++ lower s).
  now rewrite lower_app, lower_c_idem, IH.
Qed.

Lemma frequency_line_entry (line w : str) :
  In w (frequency_line line) ->
  isalpha w = true /\ len_1_25 w = true /\ lower w = w.
Proof.
  unfold frequency_line. destruct (split_ws [] line) as [|part parts]; [intros []|].
  destruct (len_1_25 _ && isalpha _) eqn:Hk; [|intros []].
  apply andb_prop in Hk as [Hlen Halpha].
  intros [<-|[]]. auto using lower_idem.
Qed.

(** Tier 1: lower-case alphabetic words of 1 to 25 characters. *)
Lemma frequency_list_entries (E : env) (lang w : str) :
  In w (_try_frequency_lists E lang) ->
  isalpha w = true /\ len_1_25 w = true /\ lower w = w.
Proof.
  unfold _try_frequency_lists.
  destruct (dict_lookup _ freq_urls); [|intros []].
  destruct (requests_get E _ 10); [intros []|].
  intros H. apply in_flat_map in H as (line & _ & H).
  eapply frequency_line_entry, H.
Qed.

(** Tier 2: the lower-case form of alphabetic lines of 1 to 25 characters. *)
Lemma online_list_entries (E : env) (lang w : str) :
  In w (_try_online_wordlist E lang) ->
  lower w = w
  /\ exists raw, w = lower raw /\ isalpha raw = true /\ len_1_25 raw = true.
Proof.
  unfold _try_online_wordlist.
  destruct (dict_lookup _ urls); [|intros []].
  destruct (requests_get E _ 20); [intros []|].
  intros H. apply in_map_iff in H as (line & <- & H).
  apply filter_In in H as [_ H]. unfold online_keep in H.
  destruct (strip line) as [|x raw] eqn:Hs; [discriminate|].
  apply andb_prop in H as [Hlen Halpha].
  split; [apply lower_idem | eauto].
Qed.

Lemma sample_words_entries :
  forallb (fun entry => forallb embedded_entry_ok (snd entry)) sample_words = true.
Proof. vm_compute. reflexivity. Qed.

Lemma dict_lookup_In {V : Type} (k : str) (d : list (str * V)) (v : V) :
  dict_lookup k d = Some v -> In (k, v) d.
Proof.
  induction d as [|[k' v'] d IH]; simpl; [discriminate|].
  unfold str_eqb. case_bool_decide as Hk.
  - intros H. inversion H; subst. now left.
  - intros H. right. auto.
Qed.

(** Tier 3: lower-case alphabetic words, and the three two-word entries. *)
Lemma builtin_list_entries (lang : str) (ws : list str) (w : str) :
  _get_builtin_wordlist lang = Return ws -> In w ws ->
  lower w = w
  /\ ((isalpha w = true /\ len_1_25 w = true) \/ In w multiword_entries).
Proof.
  unfold _get_builtin_wordlist.
  destruct (dict_lookup (lower lang) sample_words) as [ws'|] eqn:Hd; [|discriminate].
  intros H Hw. inversion H; subst ws'.
  apply dict_lookup_In in Hd.
  pose proof sample_words_entries as Hall. rewrite forallb_forall in Hall.
  specialize (Hall _ Hd). simpl in Hall. rewrite forallb_forall in Hall.
  specialize (Hall _ Hw). unfold embedded_entry_ok in Hall.
  apply andb_prop in Hall as [Hlow Hshape].
  split; [now apply bool_decide_eq_true in Hlow|].
  apply orb_prop in Hshape as [Ha|Hm].
  - left. now apply andb_prop in Ha.
  - right. apply bool_decide_eq_true in Hm. now apply list_elem_of_In.
Qed.

Lemma sample_words_two_word_entries :
  forallb (fun entry =>
             forallb (fun w => (isalpha w && len_1_25 w) || two_word_entryb (fst entry) w)
                     (snd entry)) sample_words = true.
Proof. vm_compute. reflexivity. Qed.

Lemma two_word_entryb_spec (language w : str) :
  two_word_entryb language w = true -> two_word_entry language w.
Proof.
  unfold two_word_entryb, two_word_entry, str_eqb. intros H.
  apply orb_prop in H as [H|H]; apply andb_prop in H as [Hl Hw];
    apply bool_decide_eq_true in Hl.
  - left. split; [exact Hl|].
    apply orb_prop in Hw as [Hw|Hw]; apply bool_decide_eq_true in Hw; auto.
  - right. apply bool_decide_eq_true in Hw. auto.
Qed.

(** Tier 3, entry by entry: the two-word entries are those of the French and
    of the Italian list. *)
Lemma builtin_list_shape (lang : str) (ws : list str) :
  _get_builtin_wordlist lang = Return ws -> embedded_shape (lower lang) ws.
Proof.
  intros Hb w Hw. split; [apply (builtin_list_entries lang ws w Hb Hw)|].
  unfold _get_builtin_wordlist in Hb.
  destruct (dict_lookup (lower lang) sample_words) as [ws'|] eqn:Hd; [|discriminate].
  inversion Hb; subst ws'. apply dict_lookup_In in Hd.
  pose proof sample_words_two_word_entries as Hall. rewrite forallb_forall in Hall.
  specialize (Hall _ Hd). simpl in Hall. rewrite forallb_forall in Hall.
  specialize (Hall _ Hw). apply orb_prop in Hall as [Ha|Hm].
  - left. apply andb_prop in Ha. exact Ha.
  - right. now apply two_word_entryb_spec.
Qed.

(** C9, as the code has it, tier by tier.  A vocabulary that [load_word_list]
    returns is the result of exactly one tier, and every entry of it is in
    lower case.  When it is the non-empty result of the frequency tier, every
    entry is an alphabetic word of 1 to 25 characters.  When the frequency
    tier produced nothing and it is the non-empty result of the general
    tier, every entry is the lower-case form of an alphabetic string of 1 to
    25 characters.  When both network tiers produced nothing it is the
    embedded list of the language, and every entry is an alphabetic word of 1
    to 25 characters or one of the two-word entries: two in the French list,
    one in the Italian list. *)
Theorem vocabulary_entries (E : env) (lang : str) (c c' : cache) (ws : list str) :
  cache_ok E c ->
  load_word_list E lang c = (Return ws, c') ->
  (ws = _try_frequency_lists E lang /\ ws <> [] /\ frequency_shape ws)
  \/ (_try_frequency_lists E lang = [] /\ ws = _try_online_wordlist E lang
      /\ ws <> [] /\ online_shape ws)
  \/ (_try_frequency_lists E lang = [] /\ _try_online_wordlist E lang = []
      /\ _get_builtin_wordlist lang = Return ws
      /\ embedded_shape (lower lang) ws).
Proof.
  intros Hc Hload.
  assert (Htier : (ws = _try_frequency_lists E lang /\ ws <> [])
                  \/ (_try_frequency_lists E lang = []
                      /\ ws = _try_online_wordlist E lang /\ ws <> [])
                  \/ (_try_frequency_lists E lang = []
                      /\ _try_online_wordlist E lang = []
                      /\ _get_builtin_wordlist lang = Return ws)).
  { destruct (c !! lang) as [ws0|] eqn:Hl.
    - rewrite (load_cached _ _ _ _ Hl) in Hload. inversion Hload; subst.
      destruct (Hc lang ws Hl) as [Hne [H|[H1 H2]]]; auto.
    - rewrite load_uncached in Hload by exact Hl.
      destruct (truthy (_try_frequency_lists E lang)) eqn:H1.
      { inversion Hload; subst. apply truthy_true in H1. auto. }
      apply truthy_false in H1.
      destruct (truthy (_try_online_wordlist E lang)) eqn:H2.
      { inversion Hload; subst. apply truthy_true in H2. auto. }
      apply truthy_false in H2. inversion Hload; subst. auto 6. }
  destruct Htier as [[-> Hne]|[(H1 & -> & Hne)|(H1 & H2 & Hb)]].
  - left. split; [reflexivity|]. split; [exact Hne|].
    intros w Hw. destruct (frequency_list_entries E lang w Hw) as (Ha & Hn & Hlow).
    split; [exact Hlow | split; assumption].
  - right; left. split; [exact H1|]. split; [reflexivity|]. split; [exact Hne|].
    intros w Hw. destruct (online_list_entries E lang w Hw) as (Hlow & raw & -> & Ha & Hn).
    split; [exact Hlow|]. exists raw. split; [reflexivity | split; assumption].
  - right; right. split; [exact H1|]. split; [exact H2|]. split; [exact Hb|].
    now apply builtin_list_shape.
Qed.

Lemma vocabulary_entries_witness :
  (map U french_words = _try_frequency_lists offline (U "french")
   /\ map U french_words <> [] /\ frequency_shape (map U french_words))
  \/ (_try_frequency_lists offline (U "french") = []
      /\ map U french_words = _try_online_wordlist offline (U "french")
      /\ map U french_words <> [] /\ online_shape (map U french_words))
  \/ (_try_frequency_lists offline (U "french") = []
      /\ _try_online_wordlist offline (U "french") = []
      /\ _get_builtin_wordlist (U "french") = Return (map U french_words)
      /\ embedded_shape (lower (U "french")) (map U french_words)).
Proof.
  apply (vocabulary_entries offline (U "french") ∅ ∅ (map U french_words)).
  - apply cache_ok_empty.
  - reflexivity.
Defined.

(** C9, as the spec states it, fails on the embedded French list: the entry
    "bon marché" contains a space. *)
Lemma embedded_list_entry_not_alphabetic :
  exists ws, load_word_list offline (U "french") ∅ = (Return ws, ∅)
    /\ In (U "bon marché") ws
    /\ isalpha (U "bon marché") = false.
Proof.
  exists (map U french_words). split; [reflexivity|]. split; [|reflexivity].
  apply list_elem_of_In, (bool_decide_unpack _). vm_compute. exact I.
Qed.

(** ** Transformation pipeline *)

Lemma same_loads_refl (E : env) (c : cache) : same_loads E c c.
Proof. intros l. reflexivity. Qed.

Lemma same_loads_trans (E : env) (c1 c2 c3 : cache) :
  same_loads E c1 c2 -> same_loads E c2 c3 -> same_loads E c1 c3.
Proof. intros H12 H23 l. now rewrite H23, H12. Qed.

Lemma load_fst_lookup (E : env) (l : str) (c c' : cache) :
  c' !! l = c !! l -> fst (load_word_list E l c') = fst (load_word_list E l c).
Proof.
  intros H. unfold load_word_list. rewrite H.
  destruct (c !! l); [reflexivity|].
  destruct (truthy (_try_frequency_lists E l)); [reflexivity|].
  destruct (truthy (_try_online_wordlist E l)); reflexivity.
Qed.

Lemma load_same_loads (E : env) (lang : str) (c : cache) :
  same_loads E c (snd (load_word_list E lang c)).
Proof.
  intros l. destruct (c !! lang) as [ws|] eqn:Hl.
  { now rewrite (load_cached _ _ _ _ Hl). }
  rewrite (load_uncached _ _ _ Hl).
  destruct (truthy (_try_frequency_lists E lang)) eqn:H1.
  { simpl. destruct (decide (lang = l)) as [<-|Hne].
    - rewrite (load_cached E lang (<[lang:=_]> c) _ (lookup_insert_eq _ _ _)).
      rewrite (load_uncached _ _ _ Hl), H1. reflexivity.
    - apply load_fst_lookup. now apply lookup_insert_ne. }
  destruct (truthy (_try_online_wordlist E lang)) eqn:H2.
  { simpl. destruct (decide (lang = l)) as [<-|Hne].
    - rewrite (load_cached E lang (<[lang:=_]> c) _ (lookup_insert_eq _ _ _)).
      rewrite (load_uncached _ _ _ Hl), H1, H2. reflexivity.
    - apply load_fst_lookup. now apply lookup_insert_ne. }
  reflexivity.
Qed.

Lemma load_returns (E : env) (l : str) (c : cache) (v : list str) :
  fst (load_word_list E l c) = Return v ->
  exists c', load_word_list E l c = (Return v, c') /\ same_loads E c c'.
Proof.
  intros H. exists (snd (load_word_list E l c)). split.
  - rewrite <- H. now destruct (load_word_list E l c).
  - apply load_same_loads.
Qed.

Lemma bind_return {A B : Type} (m : M A) (k : A -> M B) (c c' : cache) (a : A) :
  m c = (Return a, c') -> (m ≫= k) c = k a c'.
Proof. intros H. unfold mbind, M_bind, bind. now rewrite H. Qed.

Lemma fuzzy_haze_spec (E : env) (w la lb : str) (c : cache) (va vb : list str) :
  fst (load_word_list E la c) = Return va ->
  fst (load_word_list E lb c) = Return vb ->
  exists h c', fuzzy_haze E w la lb c = (Return h, c')
    /\ same_loads E c c' /\ hybrid_word_spec E la lb va vb w h.
Proof.
  intros Ha Hb.
  destruct (load_returns E la c va Ha) as (c1 & Hl1 & Hs1).
  assert (Hb1 : fst (load_word_list E lb c1) = Return vb) by now rewrite Hs1.
  destruct (load_returns E lb c1 vb Hb1) as (c2 & Hl2 & Hs2).
  unfold fuzzy_haze. rewrite (bind_return _ _ _ _ _ Hl1), (bind_return _ _ _ _ _ Hl2).
  unfold hybrid_word_spec, translation_failed.
  destruct (find_most_similar_word E w vb true) as [matched sim_b] eqn:Hm.
  cbn [fst]. cbv zeta.
  destruct (starts_with _ _ || str_eqb _ _) eqn:Hf.
  - destruct (find_most_similar_word E matched va true) as [final sim] eqn:Hh.
    eexists _, c2. split; [reflexivity|].
    split; [eapply same_loads_trans; eassumption|]. cbn. auto.
  - eexists _, c2. split; [reflexivity|].
    split; [eapply same_loads_trans; eassumption|]. cbn. auto.
Qed.

Lemma hybrid_loop_spec (E : env) (la lb : str) (va vb : list str) (words : list str) :
  forall (tw : list str) (wd : list word_detail) (c : cache),
  fst (load_word_list E la c) = Return va ->
  fst (load_word_list E lb c) = Return vb ->
  exists tw' new c',
    hybrid_loop E la lb words tw wd c = (Return (tw', wd ++ new), c')
    /\ same_loads E c c'
    /\ Forall2 (hybrid_detail_spec E la lb va vb) (List.filter match_word words) new.
Proof.
  induction words as [|item rest IH]; intros tw wd c Ha Hb; cbn [hybrid_loop List.filter].
  - exists tw, [], c. rewrite app_nil_r.
    split; [reflexivity | split; [apply same_loads_refl | constructor]].
  - destruct (match_word item) eqn:Hw.
    + destruct (fuzzy_haze_spec E item la lb c va vb Ha Hb) as (h & c1 & Hh & Hs & Hspec).
      rewrite (bind_return _ _ _ _ _ Hh). cbv zeta.
      destruct (IH (tw ++ [fh_step2_result h])
                   (wd ++ [ {| wd_original := item;
                               wd_transformed := fh_step2_result h;
                               wd_chain := fh_hybrid_chain h;
                               wd_method := U "fuzzy_then_translate";
                               wd_fallback_used := Some (fh_method_used h) |} ])
                   c1)
        as (tw' & new & c' & Hl & Hs' & Hall).
      { now rewrite Hs. } { now rewrite Hs. }
      rewrite Hl. rewrite <- app_assoc. eexists tw', (_ :: new), c'.
      split; [reflexivity|]. split; [eapply same_loads_trans; eassumption|].
      constructor; [|exact Hall].
      split; [reflexivity|]. split; [reflexivity|]. exists h. auto.
    + apply IH; assumption.
Qed.

Lemma hybrid_haze_spec (E : env) (s la lb : str) (c : cache) (va vb : list str) :
  fst (load_word_list E la c) = Return va ->
  fst (load_word_list E lb c) = Return vb ->
  exists r c', hybrid_haze E s la lb c = (Return r, c')
    /\ same_loads E c c'
    /\ sr_original_sentence r = s
    /\ sr_word_count r = length (sr_word_transformations r)
    /\ Forall2 (hybrid_detail_spec E la lb va vb)
         (List.filter match_word (findall_tokens s)) (sr_word_transformations r).
Proof.
  intros Ha Hb. unfold hybrid_haze.
  destruct (hybrid_loop_spec E la lb va vb (findall_tokens s) [] [] c Ha Hb)
    as (tw & new & c' & Hl & Hs & Hall).
  rewrite (bind_return _ _ _ _ _ Hl). simpl.
  eexists _, c'. split; [reflexivity|]. simpl. auto.
Qed.

(** C2.  When the translation of every word fails (the result starts with the
    marker "[untranslated:" or is the word handed in), [fuzzy_haze] reports
    "fuzzy_fallback" and returns the nearest match in vocabulary A of the
    match in vocabulary B, with the similarity of that second search, and
    [hybrid_haze] records "fuzzy_fallback" and that word for every word token
    of the sentence. *)
Theorem hybrid_fallback_on_failed_translation
    (E : env) (c : cache) (sentence la lb : str) (va vb : list str) :
  (forall w, translation_failed (simple_translate E w lb la) w = true) ->
  fst (load_word_list E la c) = Return va ->
  fst (load_word_list E lb c) = Return vb ->
  (forall word, exists h c',
     fuzzy_haze E word la lb c = (Return h, c')
     /\ fh_method_used h = U "fuzzy_fallback"
     /\ (fh_step2_result h, fh_final_similarity h)
        = find_most_similar_word E
            (fst (find_most_similar_word E word vb true)) va true)
  /\ exists r c',
       hybrid_haze E sentence la lb c = (Return r, c')
       /\ map wd_original (sr_word_transformations r)
          = List.filter match_word (findall_tokens sentence)
       /\ Forall (fun d =>
            wd_fallback_used d = Some (U "fuzzy_fallback")
            /\ wd_transformed d
               = fst (find_most_similar_word E
                        (fst (find_most_similar_word E (wd_original d) vb true))
                        va true))
            (sr_word_transformations r).
Proof.
  intros Hfail Ha Hb. split.
  - intros word.
    destruct (fuzzy_haze_spec E word la lb c va vb Ha Hb) as (h & c' & Hh & _ & Hspec).
    exists h, c'. split; [exact Hh|].
    destruct Hspec as (_ & _ & Hspec). cbv zeta in Hspec. rewrite Hfail in Hspec.
    destruct Hspec as (-> & -> & ->). split; [reflexivity|].
    now destruct (find_most_similar_word E _ va true).
  - destruct (hybrid_haze_spec E sentence la lb c va vb Ha Hb)
      as (r & c' & Hr & _ & _ & _ & Hall).
    exists r, c'. split; [exact Hr|].
    induction Hall as [|item d items ds Hd Hall IH]; [split; [reflexivity | constructor]|].
    destruct IH as [IH1 IH2].
    destruct Hd as (Ho & _ & h & Hspec & Ht & _ & Hf).
    destruct Hspec as (_ & _ & Hspec). cbv zeta in Hspec. rewrite Hfail in Hspec.
    destruct Hspec as (Hm & Hres & _).
    split; [simpl; now rewrite Ho, IH1|].
    constructor; [|exact IH2].
    rewrite Hf, Hm, Ht, Hres, Ho. auto.
Qed.

Lemma offline_translation_fails (w : str) :
  translation_failed (simple_translate offline w (U "spanish") (U "english")) w = true.
Proof. reflexivity. Qed.

Lemma hybrid_fallback_on_failed_translation_witness :
  exists r c',
    hybrid_haze offline (U "hello world") (U "english") (U "spanish") ∅ = (Return r, c')
    /\ map wd_original (sr_word_transformations r) = [U "hello"; U "world"]
    /\ Forall (fun d => wd_fallback_used d = Some (U "fuzzy_fallback"))
         (sr_word_transformations r).
Proof.
  destruct (hybrid_fallback_on_failed_translation offline ∅ (U "hello world")
              (U "english") (U "spanish") (map U english_words) (map U spanish_words))
    as [_ (r & c' & Hr & Ho & Hall)].
  - exact offline_translation_fails.
  - reflexivity.
  - reflexivity.
  - exists r, c'. split; [exact Hr|]. split; [exact Ho|].
    eapply Forall_impl; [exact Hall|]. intros d [Hd _]. exact Hd.
Defined.

(** *** Dispatch on the method *)

Lemma haze_word_not_fuzzy (E : env) (item la lb method : str) :
  method <> U "fuzzy" ->
  haze_word E item la lb method = haze_word E item la lb (U "translate").
Proof.
  intros H. unfold haze_word, str_eqb.
  rewrite bool_decide_eq_false_2 by exact H. reflexivity.
Qed.

Lemma haze_loop_not_fuzzy (E : env) (la lb method : str) (words : list str) :
  method <> U "fuzzy" ->
  forall (tw : list str) (wd : list word_detail) (c : cache),
  haze_loop E la lb method words tw (map (set_method method) wd) c
  = map_outcome (fun p => (fst p, map (set_method method) (snd p)))
      (haze_loop E la lb (U "translate") words tw wd c).
Proof.
  intros Hm. induction words as [|item rest IH]; intros tw wd c; cbn [haze_loop].
  - reflexivity.
  - destruct (match_word item); [|apply IH].
    rewrite (haze_word_not_fuzzy E item la lb method Hm).
    unfold mbind, M_bind, bind.
    destruct (haze_word E item la lb (U "translate") c) as [[e|[tword chain]] c1];
      [reflexivity|].
    rewrite <- IH. f_equal. rewrite map_app. reflexivity.
Qed.

(** For a method other than "fuzzy" the outcome of [haze] is that of the
    method "translate" with the given name written into the result. *)
Lemma haze_not_fuzzy (E : env) (sentence la lb method : str) (c : cache) :
  method <> U "fuzzy" ->
  haze E sentence la lb method c
  = map_outcome (relabel method) (haze E sentence la lb (U "translate") c).
Proof.
  intros Hm. unfold haze.
  pose proof (haze_loop_not_fuzzy E la lb method (findall_tokens sentence) Hm [] [] c)
    as Hl.
  simpl in Hl. unfold mbind, M_bind, bind. rewrite Hl.
  destruct (haze_loop E la lb (U "translate") (findall_tokens sentence) [] [] c)
    as [[e|[tw wd]] c1]; [reflexivity|].
  simpl. unfold mret, M_ret, ret, relabel. simpl. rewrite length_map. reflexivity.
Qed.

Lemma bind_inv {A B : Type} (m : M A) (k : A -> M B) (c c' : cache) (b : B) :
  (m ≫= k) c = (Return b, c') ->
  exists a c1, m c = (Return a, c1) /\ k a c1 = (Return b, c').
Proof.
  unfold mbind, M_bind, bind. destruct (m c) as [[e|a] c1]; [discriminate|]. eauto.
Qed.

(** What either loop has when it returns: the appended records are those of
    the word tokens, in order, and the appended words are the tokens with
    the word tokens replaced by the records' transformed words. *)
Lemma haze_loop_rebuilds (E : env) (la lb method : str) (words : list str) :
  forall tw wd c tw' wd' c',
  haze_loop E la lb method words tw wd c = (Return (tw', wd'), c') ->
  exists new, wd' = wd ++ new
    /\ map wd_original new = List.filter match_word words
    /\ tw' = tw ++ substitute words (map wd_transformed new).
Proof.
  induction words as [|item rest IH]; intros tw wd c tw' wd' c' H;
    cbn [haze_loop] in H.
  - inversion H; subst. exists []. now rewrite !app_nil_r.
  - cbn [List.filter substitute]. destruct (match_word item) eqn:Hw.
    + apply bind_inv in H as ([tword chain] & c1 & _ & H).
      apply IH in H as (new & -> & Ho & ->).
      eexists (_ :: new). rewrite <- !app_assoc. split; [reflexivity|].
      split; [simpl; now rewrite Ho | reflexivity].
    + apply IH in H as (new & -> & Ho & ->).
      exists new. rewrite <- app_assoc. auto.
Qed.

Lemma haze_rebuilt (E : env) (sentence la lb method : str) (c c' : cache)
    (r : sentence_result) :
  haze E sentence la lb method c = (Return r, c') ->
  rebuilt E sentence la r /\ sr_method r = method.
Proof.
  intros H. unfold haze in H.
  apply bind_inv in H as ([tw wd] & c1 & Hl & H).
  apply haze_loop_rebuilds in Hl as (new & -> & Ho & ->).
  inversion H; subst. unfold rebuilt. simpl. splits; auto.
  now rewrite <- Ho, length_map.
Qed.

Lemma transform_direct_translate_result (E : env) (w la lb : str) (c : cache)
    (vb : list str) :
  fst (load_word_list E lb c) = Return vb ->
  exists r c', transform_direct_translate E w la lb c = (Return r, c')
    /\ same_loads E c c'
    /\ dt_lang_b_match r = fst (find_most_similar_word E w vb true)
    /\ dt_final_translation r
       = simple_translate E (fst (find_most_similar_word E w vb true)) lb la
    /\ dt_direct_chain r
       = w ++ arrow ++ fst (find_most_similar_word E w vb true) ++ arrow
         ++ simple_translate E (fst (find_most_similar_word E w vb true)) lb la.
Proof.
  intros Hb. destruct (load_returns E lb c vb Hb) as (c1 & Hl1 & Hs1).
  unfold transform_direct_translate. rewrite (bind_return _ _ _ _ _ Hl1).
  destruct (find_most_similar_word E w vb true) as [matched sim_b]. cbn [fst].
  eexists _, c1. split; [reflexivity|]. split; [exact Hs1|]. cbn. auto.
Qed.

Lemma haze_loop_translate (E : env) (la lb method : str) (vb : list str)
    (words : list str) :
  method <> U "fuzzy" ->
  forall tw wd c,
  fst (load_word_list E lb c) = Return vb ->
  exists tw' new c',
    haze_loop E la lb method words tw wd c = (Return (tw', wd ++ new), c')
    /\ same_loads E c c'
    /\ Forall (fun d =>
                 wd_transformed d
                 = simple_translate E
                     (fst (find_most_similar_word E (wd_original d) vb true)) lb la
                 /\ wd_chain d
                    = wd_original d ++ arrow
                      ++ fst (find_most_similar_word E (wd_original d) vb true)
                      ++ arrow ++ wd_transformed d
                 /\ wd_method d = method /\ wd_fallback_used d = None) new.
Proof.
  intros Hm. induction words as [|item rest IH]; intros tw wd c Hb; cbn [haze_loop].
  - exists tw, [], c. rewrite app_nil_r.
    split; [reflexivity | split; [apply same_loads_refl | constructor]].
  - destruct (match_word item); [|now apply IH].
    destruct (transform_direct_translate_result E item la lb c vb Hb)
      as (r & c1 & Hr & Hs1 & _ & Ht & Hc).
    assert (Hw : haze_word E item la lb method c
                 = (Return (dt_final_translation r, dt_direct_chain r), c1)).
    { unfold haze_word, str_eqb. rewrite bool_decide_eq_false_2 by exact Hm.
      now rewrite (bind_return _ _ _ _ _ Hr). }
    rewrite (bind_return _ _ _ _ _ Hw).
    match goal with
    | |- context [haze_loop E la lb method rest ?tw1 ?wd1 c1] =>
      destruct (IH tw1 wd1 c1) as (tw' & new & c' & Hl & Hs' & Hall);
        [now rewrite Hs1|]
    end.
    rewrite Hl, <- app_assoc. eexists tw', (_ :: new), c'.
    split; [reflexivity|]. split; [eapply same_loads_trans; eassumption|].
    constructor; [|exact Hall]. cbn. rewrite Ht, Hc. auto.
Qed.

Lemma find_never_echoes (E : env) (t : str) (l : list str) :
  fst (find_most_similar_word E t l true) = []
  \/ (In (fst (find_most_similar_word E t l true)) l
      /\ lower (fst (find_most_similar_word E t l true)) <> lower t).
Proof.
  rewrite find_most_similar_word_fst. apply find_loop_result.
Qed.

Lemma transform_direct_fuzzy_result (E : env) (w la lb : str) (c : cache)
    (va vb : list str) :
  fst (load_word_list E la c) = Return va ->
  fst (load_word_list E lb c) = Return vb ->
  exists r c', transform_direct_fuzzy E w la lb c = (Return r, c')
    /\ same_loads E c c'
    /\ df_step1_lang_b r = fst (find_most_similar_word E w vb true)
    /\ df_step2_final_lang_a r
       = fst (find_most_similar_word E (fst (find_most_similar_word E w vb true)) va true)
    /\ df_direct_fuzzy_chain r
       = w ++ arrow ++ df_step1_lang_b r ++ arrow ++ df_step2_final_lang_a r.
Proof.
  intros Ha Hb.
  destruct (load_returns E la c va Ha) as (c1 & Hl1 & Hs1).
  assert (Hb1 : fst (load_word_list E lb c1) = Return vb) by now rewrite Hs1.
  destruct (load_returns E lb c1 vb Hb1) as (c2 & Hl2 & Hs2).
  unfold transform_direct_fuzzy.
  rewrite (bind_return _ _ _ _ _ Hl1), (bind_return _ _ _ _ _ Hl2).
  destruct (find_most_similar_word E w vb true) as [matched sim_b]. cbn [fst].
  destruct (find_most_similar_word E matched va true) as [final sim].
  eexists _, c2. split; [reflexivity|].
  split; [eapply same_loads_trans; eassumption|]. cbn. auto.
Qed.

Lemma haze_loop_fuzzy (E : env) (la lb : str) (va vb : list str) (words : list str) :
  forall tw wd c,
  fst (load_word_list E la c) = Return va ->
  fst (load_word_list E lb c) = Return vb ->
  exists tw' new c',
    haze_loop E la lb (U "fuzzy") words tw wd c = (Return (tw', wd ++ new), c')
    /\ same_loads E c c'
    /\ Forall (fuzzy_detail_ok E va vb) new.
Proof.
  induction words as [|item rest IH]; intros tw wd c Ha Hb; cbn [haze_loop].
  - exists tw, [], c. rewrite app_nil_r.
    split; [reflexivity | split; [apply same_loads_refl | constructor]].
  - destruct (match_word item); [|now apply IH].
    destruct (transform_direct_fuzzy_result E item la lb c va vb Ha Hb)
      as (r & c1 & Hr & Hs1 & H1 & H2 & Hc).
    assert (Hw : haze_word E item la lb (U "fuzzy") c
                 = (Return (df_step2_final_lang_a r, df_direct_fuzzy_chain r), c1)).
    { unfold haze_word, str_eqb. rewrite bool_decide_eq_true_2 by reflexivity.
      now rewrite (bind_return _ _ _ _ _ Hr). }
    rewrite (bind_return _ _ _ _ _ Hw).
    match goal with
    | |- context [haze_loop E la lb (U "fuzzy") rest ?tw1 ?wd1 c1] =>
      destruct (IH tw1 wd1 c1) as (tw' & new & c' & Hl & Hs' & Hall);
        [now rewrite Hs1 | now rewrite Hs1 |]
    end.
    rewrite Hl, <- app_assoc. eexists tw', (_ :: new), c'.
    split; [reflexivity|]. split; [eapply same_loads_trans; eassumption|].
    constructor; [|exact Hall]. unfold fuzzy_detail_ok. cbn.
    rewrite Hc, H1, H2. splits; auto; apply find_never_echoes.
Qed.

(** Every record the loop appends names the method and has no fallback
    mark. *)
Lemma haze_loop_labels (E : env) (la lb method : str) (words : list str) :
  forall tw wd c tw' wd' c',
  haze_loop E la lb method words tw wd c = (Return (tw', wd'), c') ->
  exists new, wd' = wd ++ new /\ Forall (labelled method) new.
Proof.
  induction words as [|item rest IH]; intros tw wd c tw' wd' c' H;
    cbn [haze_loop] in H.
  - inversion H; subst. exists []. now rewrite app_nil_r.
  - destruct (match_word item).
    + apply bind_inv in H as ([tword chain] & c1 & _ & H).
      apply IH in H as (new & -> & Hall).
      eexists (_ :: new). rewrite <- app_assoc. split; [reflexivity|].
      constructor; [split; reflexivity | exact Hall].
    + now apply IH in H.
Qed.

Lemma haze_labels (E : env) (sentence la lb method : str) (c c' : cache)
    (r : sentence_result) :
  haze E sentence la lb method c = (Return r, c') ->
  Forall (labelled method) (sr_word_transformations r).
Proof.
  intros H. unfold haze in H.
  apply bind_inv in H as ([tw wd] & c1 & Hl & H).
  apply haze_loop_labels in Hl as (new & -> & Hall).
  inversion H; subst. exact Hall.
Qed.

(** A record with the two hops is what [transform_direct_fuzzy] returns. *)
Lemma fuzzy_detail_by_direct_fuzzy (E : env) (la lb : str) (c : cache)
    (va vb : list str) (d : word_detail) :
  fst (load_word_list E la c) = Return va ->
  fst (load_word_list E lb c) = Return vb ->
  fuzzy_detail_ok E va vb d -> by_direct_fuzzy E la lb c d.
Proof.
  intros Ha Hb (Ht & Hc & _).
  destruct (transform_direct_fuzzy_result E (wd_original d) la lb c va vb Ha Hb)
    as (res & c1 & Hr & _ & H1 & H2 & H3).
  exists res. rewrite Hr. split; [reflexivity|].
  split; [now rewrite H2|]. now rewrite H3, H1, H2, Hc, Ht.
Qed.

(** A record with the translated match is what [transform_direct_translate]
    returns. *)
Lemma translate_detail_by_direct_translate (E : env) (la lb : str) (c : cache)
    (vb : list str) (d : word_detail) :
  fst (load_word_list E lb c) = Return vb ->
  translate_detail_ok E la lb vb d -> by_direct_translate E la lb c d.
Proof.
  intros Hb (Ht & Hc).
  destruct (transform_direct_translate_result E (wd_original d) la lb c vb Hb)
    as (res & c1 & Hr & _ & _ & H2 & H3).
  exists res. rewrite Hr. split; [reflexivity|].
  split; [now rewrite H2|]. now rewrite H3, Hc, Ht.
Qed.

(** C10.  [haze] tests the method once, against "fuzzy", for every word
    token.  Let the vocabulary of language B load.  With the method "fuzzy"
    and the vocabulary of language A loading too, [haze] returns one record
    per word token, in order, and each record holds the result of
    [transform_direct_fuzzy] for its word: the nearest match in vocabulary A
    of the word's nearest match in vocabulary B.  With any other method, the
    name of the hybrid method or an unknown one alike, [haze] returns one
    record per word token, in order, and each record holds the result of
    [transform_direct_translate] for its word: the translation, as
    [simple_translate] gives it, of the word's nearest match in vocabulary B,
    be it a failure marker.  In both cases the records and the result name
    the method given, no record has a fallback mark, and the sentence is put
    together from the records' words. *)
Theorem haze_dispatch (E : env) (sentence la lb method : str) (c : cache)
    (vb : list str) :
  fst (load_word_list E lb c) = Return vb ->
  (method = U "fuzzy" ->
   forall va, fst (load_word_list E la c) = Return va ->
   exists r c',
     haze E sentence la lb method c = (Return r, c')
     /\ rebuilt E sentence la r
     /\ sr_method r = method
     /\ Forall (fun d => by_direct_fuzzy E la lb c d
                         /\ fuzzy_detail_ok E va vb d
                         /\ labelled method d)
          (sr_word_transformations r))
  /\ (method <> U "fuzzy" ->
      exists r c',
        haze E sentence la lb method c = (Return r, c')
        /\ rebuilt E sentence la r
        /\ sr_method r = method
        /\ Forall (fun d => by_direct_translate E la lb c d
                            /\ translate_detail_ok E la lb vb d
                            /\ labelled method d)
             (sr_word_transformations r)).
Proof.
  intros Hb. split.
  - intros -> va Ha.
    assert (Hr : exists r c',
               haze E sentence la lb (U "fuzzy") c = (Return r, c')
               /\ Forall (fuzzy_detail_ok E va vb) (sr_word_transformations r)).
    { unfold haze.
      destruct (haze_loop_fuzzy E la lb va vb (findall_tokens sentence) [] [] c Ha Hb)
        as (tw & new & c' & Hl & _ & Hall).
      rewrite (bind_return _ _ _ _ _ Hl). simpl.
      eexists _, c'. split; [reflexivity | exact Hall]. }
    destruct Hr as (r & c' & Hr & Hall). exists r, c'.
    destruct (haze_rebuilt _ _ _ _ _ _ _ _ Hr) as [Hre Hm].
    pose proof (haze_labels _ _ _ _ _ _ _ _ Hr) as Hlab.
    split; [exact Hr|]. split; [exact Hre|]. split; [exact Hm|].
    rewrite List.Forall_forall in *. intros d Hd.
    split; [eapply fuzzy_detail_by_direct_fuzzy; eauto|]. split; auto.
  - intros Hm.
    assert (Hr : exists r c',
               haze E sentence la lb method c = (Return r, c')
               /\ Forall (translate_detail_ok E la lb vb) (sr_word_transformations r)).
    { unfold haze.
      destruct (haze_loop_translate E la lb method vb (findall_tokens sentence) Hm
                  [] [] c Hb) as (tw & new & c' & Hl & _ & Hall).
      rewrite (bind_return _ _ _ _ _ Hl). simpl.
      eexists _, c'. split; [reflexivity|].
      rewrite List.Forall_forall in *. intros d Hd.
      destruct (Hall d Hd) as (H1 & H2 & _). split; assumption. }
    destruct Hr as (r & c' & Hr & Hall). exists r, c'.
    destruct (haze_rebuilt _ _ _ _ _ _ _ _ Hr) as [Hre Hm'].
    pose proof (haze_labels _ _ _ _ _ _ _ _ Hr) as Hlab.
    split; [exact Hr|]. split; [exact Hre|]. split; [exact Hm'|].
    rewrite List.Forall_forall in *. intros d Hd.
    split; [eapply translate_detail_by_direct_translate; eauto|]. split; auto.
Qed.

Lemma haze_dispatch_witness :
  exists r c',
    haze offline (U "xyz") (U "english") (U "spanish") (U "hybrid") ∅ = (Return r, c')
    /\ rebuilt offline (U "xyz") (U "english") r
    /\ sr_method r = U "hybrid"
    /\ Forall (fun d => by_direct_translate offline (U "english") (U "spanish") ∅ d
                        /\ translate_detail_ok offline (U "english") (U "spanish")
                             (map U spanish_words) d
                        /\ labelled (U "hybrid") d)
         (sr_word_transformations r).
Proof.
  destruct (haze_dispatch offline (U "xyz") (U "english") (U "spanish") (U "hybrid") ∅
              (map U spanish_words)) as [_ H].
  - reflexivity.
  - apply H. vm_compute. discriminate.
Defined.

(** With the method "hybrid", [haze] does not fall back: the failure marker
    of the translation is the transformed word. *)
Example haze_hybrid_keeps_marker :
  exists r c',
    haze offline (U "xyz") (U "english") (U "spanish") (U "hybrid") ∅ = (Return r, c')
    /\ starts_with (U "[untranslated:") (sr_transformed_sentence r) = true.
Proof. eexists _, _. split; vm_compute; reflexivity. Qed.

(** ** Convergence loop *)

Lemma rehaze_loop_spec (E : env) (la lb : str) (thr : Q) (va vb : list str) (todo : nat) :
  forall (i : nat) (cur : str) (its : list iteration_data) (c : cache),
  fst (load_word_list E la c) = Return va ->
  fst (load_word_list E lb c) = Return vb ->
  exists cur' new c',
    rehaze_loop E la lb thr todo i cur its c = (Return (cur', its ++ new), c')
    /\ same_loads E c c'
    /\ trace_ok E thr todo i cur new cur'.
Proof.
  induction todo as [|todo IH]; intros i cur its c Ha Hb; cbn [rehaze_loop].
  - exists cur, [], c. rewrite app_nil_r.
    split; [reflexivity | split; [apply same_loads_refl | simpl; auto]].
  - destruct (hybrid_haze_spec E cur la lb c va vb Ha Hb) as (r & c1 & Hr & Hs & _).
    rewrite (bind_return _ _ _ _ _ Hr). cbv zeta.
    set (text := cleanup (sr_transformed_sentence r)).
    set (sim := if (0 <? i)%nat then ratio E (lower cur) (lower text) else 0%Q).
    set (d := {| it_iteration := i + 1; it_input_text := cur; it_output_text := text;
                 it_similarity_to_previous := sim;
                 it_word_transformations := sr_word_transformations r;
                 it_transformation_count := length (sr_word_transformations r) |}).
    destruct (Qle_bool thr sim) eqn:Hq.
    + exists cur, [d], c1. split; [reflexivity|]. split; [exact Hs|].
      simpl. exists todo. splits; auto. fold sim. rewrite Hq. auto.
    + destruct (IH (S i) text (its ++ [d]) c1) as (cur' & new & c' & Hl & Hs' & Ht).
      { now rewrite Hs. } { now rewrite Hs. }
      exists cur', (d :: new), c'. rewrite Hl, <- app_assoc.
      split; [reflexivity|]. split; [eapply same_loads_trans; eassumption|].
      simpl. exists todo. splits; auto. fold sim. rewrite Hq. exact Ht.
Qed.

Lemma trace_ok_length (E : env) (thr : Q) (new : list iteration_data) :
  forall todo i cur cur', trace_ok E thr todo i cur new cur' ->
  (length new <= todo)%nat.
Proof.
  induction new as [|d rest IH]; intros todo i cur cur' H; simpl in *; [lia|].
  destruct H as (todo' & -> & _ & _ & _ & H).
  destruct (Qle_bool thr _).
  - destruct H as [-> _]. simpl. lia.
  - apply IH in H. lia.
Qed.

Lemma text_after_cons (thr : Q) (a b : str) (d : iteration_data)
    (l : list iteration_data) :
  text_after thr a (d :: l) = text_after thr b (d :: l).
Proof.
  unfold text_after. destruct (last (d :: l)) eqn:Hl; [reflexivity|].
  apply last_None in Hl. discriminate.
Qed.

Lemma trace_ok_final (E : env) (thr : Q) (new : list iteration_data) :
  forall todo i cur cur', trace_ok E thr todo i cur new cur' ->
  cur' = text_after thr cur new.
Proof.
  induction new as [|d rest IH]; intros todo i cur cur' H; simpl in *; [tauto|].
  destruct H as (todo' & -> & _ & Hin & _ & H). unfold text_after.
  destruct (Qle_bool thr (it_similarity_to_previous d)) eqn:Hq.
  - destruct H as [-> ->]. simpl. now rewrite Hq, Hin.
  - destruct rest as [|d' rest'].
    + simpl in H. destruct H as [_ ->]. simpl. now rewrite Hq.
    + apply IH in H. rewrite H.
      rewrite (text_after_cons thr (it_output_text d) cur). unfold text_after.
      change (last (d :: d' :: rest')) with (last (d' :: rest')). reflexivity.
Qed.

Lemma trace_ok_stops (E : env) (thr : Q) (new : list iteration_data) :
  forall todo i cur cur', trace_ok E thr todo i cur new cur' ->
  (forall d, In d (removelast new) -> Qle_bool thr (it_similarity_to_previous d) = false)
  /\ ((length new < todo)%nat ->
      exists d, last new = Some d /\ Qle_bool thr (it_similarity_to_previous d) = true).
Proof.
  induction new as [|d rest IH]; intros todo i cur cur' H; simpl in H.
  - destruct H as [-> _]. split; [intros d [] | simpl; lia].
  - destruct H as (todo' & -> & _ & _ & _ & H).
    destruct (Qle_bool thr (it_similarity_to_previous d)) eqn:Hq.
    + destruct H as [-> _]. split; [intros d' [] | intros _; exists d; auto].
    + destruct (IH _ _ _ _ H) as [H1 H2]. split.
      * intros d' Hd. destruct rest as [|d2 rest2]; [destruct Hd|].
        destruct Hd as [<-|Hd]; [exact Hq | now apply H1].
      * intros Hlen. simpl in Hlen. destruct H2 as (d' & Hl & Hd'); [lia|].
        exists d'. split; [|exact Hd'].
        destruct rest as [|d2 rest2]; [discriminate | exact Hl].
Qed.

Lemma trace_ok_first (E : env) (thr : Q) (new : list iteration_data)
    (todo : nat) (cur cur' : str) (d : iteration_data) :
  trace_ok E thr todo 0 cur new cur' -> head new = Some d ->
  it_similarity_to_previous d = 0%Q /\ it_iteration d = 1%nat /\ it_input_text d = cur.
Proof.
  destruct new as [|d0 rest]; [discriminate|]. simpl.
  intros (todo' & _ & Hi & Hin & Hsim & _) Hd. inversion Hd; subst. auto.
Qed.

(** What [rehaze] returns when both vocabularies can be loaded. *)
Lemma rehaze_spec (E : env) (text la lb : str) (n : Z) (thr : Q) (c : cache)
    (va vb : list str) :
  fst (load_word_list E la c) = Return va ->
  fst (load_word_list E lb c) = Return vb ->
  exists r c' cur',
    rehaze E text la lb n thr c = (Return r, c')
    /\ trace_ok E thr (Z.to_nat n) 0 text (cr_iterations r) cur'
    /\ cr_initial_text r = text
    /\ cr_final_text r = join newline (map it_output_text (cr_iterations r))
    /\ cr_final_iteration_text r = cur'
    /\ cr_total_iterations r = length (cr_iterations r)
    /\ cr_converged r = (Z.of_nat (length (cr_iterations r)) <? n)%Z.
Proof.
  intros Ha Hb. unfold rehaze.
  destruct (rehaze_loop_spec E la lb thr va vb (Z.to_nat n) 0 text [] c Ha Hb)
    as (cur' & new & c' & Hl & _ & Ht).
  rewrite (bind_return _ _ _ _ _ Hl). simpl.
  eexists _, c', cur'. split; [reflexivity|]. simpl. auto 10.
Qed.

(** C5.  With both vocabularies loadable, [rehaze] with threshold 0.0 and the
    default cap of 20 returns after one iteration, hence within two, with
    [converged] true; the similarity of a first iteration is 0.0.  For any
    cap and threshold the loop returns, never runs more iterations than the
    cap, goes on only while the similarity is below the threshold, and when
    it ends below the cap the last similarity has reached the threshold. *)
Theorem rehaze_terminates (E : env) (c : cache) (text la lb : str) (va vb : list str) :
  fst (load_word_list E la c) = Return va ->
  fst (load_word_list E lb c) = Return vb ->
  (exists r c' d,
     rehaze E text la lb default_max_iterations 0 c = (Return r, c')
     /\ cr_converged r = true
     /\ (cr_total_iterations r <= 2)%nat
     /\ cr_iterations r = [d]
     /\ it_similarity_to_previous d = 0%Q)
  /\ (forall n thr, exists r c',
        rehaze E text la lb n thr c = (Return r, c')
        /\ cr_total_iterations r = length (cr_iterations r)
        /\ (Z.of_nat (cr_total_iterations r) <= Z.max 0 n)%Z
        /\ (forall d, head (cr_iterations r) = Some d ->
              it_similarity_to_previous d = 0%Q)
        /\ (forall d, In d (removelast (cr_iterations r)) ->
              (it_similarity_to_previous d < thr)%Q)
        /\ (cr_converged r = true ->
              exists d, last (cr_iterations r) = Some d
                /\ (thr <= it_similarity_to_previous d)%Q)).
Proof.
  intros Ha Hb. split.
  - destruct (rehaze_spec E text la lb default_max_iterations 0 c va vb Ha Hb)
      as (r & c' & cur' & Hr & Ht & _ & _ & _ & Hn & Hconv).
    destruct (cr_iterations r) as [|d rest] eqn:Hits.
    { simpl in Ht. destruct Ht as [Ht _]. discriminate. }
    pose proof (trace_ok_first _ _ _ _ _ _ d Ht eq_refl) as (Hsim & _).
    simpl in Ht. destruct Ht as (todo' & _ & _ & _ & _ & Ht).
    rewrite Hsim in Ht. change (Qle_bool 0 0) with true in Ht.
    destruct Ht as [-> _].
    exists r, c', d. rewrite Hconv, Hn. simpl. splits; auto.
  - intros n thr.
    destruct (rehaze_spec E text la lb n thr c va vb Ha Hb)
      as (r & c' & cur' & Hr & Ht & _ & _ & _ & Hn & Hconv).
    exists r, c'. split; [exact Hr|]. split; [exact Hn|].
    pose proof (trace_ok_length _ _ _ _ _ _ _ Ht) as Hlen.
    destruct (trace_ok_stops _ _ _ _ _ _ _ Ht) as [Hbefore Hlast].
    splits.
    + rewrite Hn. lia.
    + intros d Hd. eapply trace_ok_first; eassumption.
    + intros d Hd. apply Hbefore in Hd. apply Qnot_le_lt. intros Hle.
      apply Qle_bool_iff in Hle. congruence.
    + rewrite Hconv. intros Hc. apply Z.ltb_lt in Hc.
      destruct Hlast as (d & Hd & Hq); [lia|].
      exists d. split; [exact Hd | now apply Qle_bool_iff].
Qed.

Lemma rehaze_terminates_witness :
  exists r c' d,
    rehaze offline (U "hello world") (U "english") (U "spanish")
      default_max_iterations 0 ∅ = (Return r, c')
    /\ cr_converged r = true
    /\ (cr_total_iterations r <= 2)%nat
    /\ cr_iterations r = [d]
    /\ it_similarity_to_previous d = 0%Q.
Proof.
  destruct (rehaze_terminates offline ∅ (U "hello world") (U "english") (U "spanish")
              (map U english_words) (map U spanish_words)) as [H _].
  - reflexivity.
  - reflexivity.
  - exact H.
Defined.

(** The two exits of the loop.  With both vocabularies loadable, [final_text]
    is the output texts of all iterations joined by newlines, and
    [final_iteration_text] is the loop's current text when it ends: the
    output text of the last iteration when the loop ran to the cap, but the
    input text of the last iteration when that iteration reached the
    threshold, and the initial text when no iteration ran. *)
Lemma rehaze_final_texts (E : env) (c : cache) (text la lb : str)
    (n : Z) (thr : Q) (va vb : list str) :
  fst (load_word_list E la c) = Return va ->
  fst (load_word_list E lb c) = Return vb ->
  exists r c',
    rehaze E text la lb n thr c = (Return r, c')
    /\ cr_final_text r = join newline (map it_output_text (cr_iterations r))
    /\ cr_final_iteration_text r = text_after thr text (cr_iterations r).
Proof.
  intros Ha Hb.
  destruct (rehaze_spec E text la lb n thr c va vb Ha Hb)
    as (r & c' & cur' & Hr & Ht & _ & Hfinal & Hcur & _).
  exists r, c'. split; [exact Hr|]. split; [exact Hfinal|].
  rewrite Hcur. eapply trace_ok_final, Ht.
Qed.

(** C6: a defect of [rehaze].  [final_text] is the outputs of the iterations
    joined by newlines, as claimed, but [final_iteration_text] is not the
    output of the final recorded iteration when the loop stops on the
    threshold: the [break] comes before [current_text = text], so the text
    returned is the input of that iteration.  For the text xyz, English and
    Spanish, the default cap and the threshold 0.0 the loop stops after its
    first iteration and returns the untouched input xyz, while the
    iteration recorded a vocabulary word as its output. *)
Theorem final_iteration_text_is_not_the_last_output :
  exists r c' d,
    rehaze offline (U "xyz") (U "english") (U "spanish") 20 0 ∅ = (Return r, c')
    /\ last (cr_iterations r) = Some d
    /\ cr_final_text r = it_output_text d
    /\ cr_converged r = true
    /\ it_input_text d = U "xyz"
    /\ cr_final_iteration_text r = U "xyz"
    /\ it_output_text d <> cr_final_iteration_text r.
Proof.
  eexists _, _, _. split; [vm_compute; reflexivity|].
  split; [reflexivity|]. split; [reflexivity|]. split; [reflexivity|].
  split; [reflexivity|]. split; [reflexivity|]. vm_compute. discriminate.
Qed.

(** ** Error propagation *)

(** A language of [sample_words] loads from any cache, whatever the network
    does. *)
Lemma supported_language_loads (E : env) (l : str) (c : cache) (ws : list str) :
  dict_lookup (lower l) sample_words = Some ws ->
  exists v, fst (load_word_list E l c) = Return v.
Proof.
  intros H. unfold load_word_list. destruct (c !! l); [eauto|].
  destruct (truthy (_try_frequency_lists E l)); [eauto|].
  destruct (truthy (_try_online_wordlist E l)); [eauto|].
  unfold _get_builtin_wordlist. rewrite H. eauto.
Qed.

Lemma transform_direct_fuzzy_returns (E : env) (w la lb : str) (c : cache)
    (va vb : list str) :
  fst (load_word_list E la c) = Return va ->
  fst (load_word_list E lb c) = Return vb ->
  exists r c', transform_direct_fuzzy E w la lb c = (Return r, c')
    /\ same_loads E c c'
    /\ df_step2_final_lang_a r
       = fst (find_most_similar_word E
                (fst (find_most_similar_word E w vb true)) va true).
Proof.
  intros Ha Hb.
  destruct (load_returns E la c va Ha) as (c1 & Hl1 & Hs1).
  assert (Hb1 : fst (load_word_list E lb c1) = Return vb) by now rewrite Hs1.
  destruct (load_returns E lb c1 vb Hb1) as (c2 & Hl2 & Hs2).
  unfold transform_direct_fuzzy.
  rewrite (bind_return _ _ _ _ _ Hl1), (bind_return _ _ _ _ _ Hl2).
  destruct (find_most_similar_word E w vb true) as [matched sim_b]. cbn [fst].
  destruct (find_most_similar_word E matched va true) as [final sim].
  eexists _, c2. split; [reflexivity|].
  split; [eapply same_loads_trans; eassumption | reflexivity].
Qed.

Lemma transform_direct_translate_returns (E : env) (w la lb : str) (c : cache)
    (vb : list str) :
  fst (load_word_list E lb c) = Return vb ->
  exists r c', transform_direct_translate E w la lb c = (Return r, c')
    /\ same_loads E c c'
    /\ dt_final_translation r
       = simple_translate E (fst (find_most_similar_word E w vb true)) lb la.
Proof.
  intros Hb. destruct (load_returns E lb c vb Hb) as (c1 & Hl1 & Hs1).
  unfold transform_direct_translate. rewrite (bind_return _ _ _ _ _ Hl1).
  destruct (find_most_similar_word E w vb true) as [matched sim_b]. cbn [fst].
  eexists _, c1. split; [reflexivity | split; [exact Hs1 | reflexivity]].
Qed.

Lemma haze_word_returns (E : env) (item la lb method : str) (c : cache)
    (va vb : list str) :
  fst (load_word_list E la c) = Return va ->
  fst (load_word_list E lb c) = Return vb ->
  exists p c', haze_word E item la lb method c = (Return p, c') /\ same_loads E c c'.
Proof.
  intros Ha Hb. unfold haze_word. destruct (str_eqb method (U "fuzzy")).
  - destruct (transform_direct_fuzzy_returns E item la lb c va vb Ha Hb)
      as (r & c' & Hr & Hs & _).
    rewrite (bind_return _ _ _ _ _ Hr). eexists _, c'. split; [reflexivity | exact Hs].
  - destruct (transform_direct_translate_returns E item la lb c vb Hb)
      as (r & c' & Hr & Hs & _).
    rewrite (bind_return _ _ _ _ _ Hr). eexists _, c'. split; [reflexivity | exact Hs].
Qed.

Lemma haze_loop_returns (E : env) (la lb method : str) (va vb : list str)
    (words : list str) :
  forall (tw : list str) (wd : list word_detail) (c : cache),
  fst (load_word_list E la c) = Return va ->
  fst (load_word_list E lb c) = Return vb ->
  exists tw' new c',
    haze_loop E la lb method words tw wd c = (Return (tw', wd ++ new), c')
    /\ same_loads E c c'
    /\ map wd_original new = List.filter match_word words.
Proof.
  induction words as [|item rest IH]; intros tw wd c Ha Hb; cbn [haze_loop List.filter].
  - exists tw, [], c. rewrite app_nil_r.
    split; [reflexivity | split; [apply same_loads_refl | reflexivity]].
  - destruct (match_word item) eqn:Hw; [|now apply IH].
    destruct (haze_word_returns E item la lb method c va vb Ha Hb)
      as ([tword chain] & c1 & Hh & Hs).
    rewrite (bind_return _ _ _ _ _ Hh).
    destruct (IH (tw ++ [tword])
                 (wd ++ [ {| wd_original := item; wd_transformed := tword;
                             wd_chain := chain; wd_method := method;
                             wd_fallback_used := None |} ]) c1)
      as (tw' & new & c' & Hl & Hs' & Hall).
    { now rewrite Hs. } { now rewrite Hs. }
    rewrite Hl, <- app_assoc. eexists tw', (_ :: new), c'.
    split; [reflexivity|]. split; [eapply same_loads_trans; eassumption|].
    simpl. now rewrite Hall.
Qed.

Lemma haze_returns (E : env) (s la lb method : str) (c : cache) (va vb : list str) :
  fst (load_word_list E la c) = Return va ->
  fst (load_word_list E lb c) = Return vb ->
  exists r c', haze E s la lb method c = (Return r, c')
    /\ sr_original_sentence r = s
    /\ sr_method r = method
    /\ sr_word_count r = length (List.filter match_word (findall_tokens s))
    /\ map wd_original (sr_word_transformations r)
       = List.filter match_word (findall_tokens s).
Proof.
  intros Ha Hb. unfold haze.
  destruct (haze_loop_returns E la lb method va vb (findall_tokens s) [] [] c Ha Hb)
    as (tw & new & c' & Hl & _ & Hall).
  rewrite (bind_return _ _ _ _ _ Hl). simpl.
  eexists _, c'. split; [reflexivity|]. simpl.
  splits; auto. now rewrite <- Hall, length_map.
Qed.

(** C3.  From a cache filled by earlier loads, [load_word_list] raises exactly
    when both network tiers produce nothing and [sample_words] has no list
    for the language; what it raises is the [ValueError] of
    [_get_builtin_wordlist].  That error is the only one which leaves [haze],
    [hybrid_haze] and [rehaze]: whatever the HTTP, translation and generation
    clients raise is caught on the way, and when the two vocabularies load
    all three return a result. *)
Theorem unsupported_language_is_the_only_error (E : env) (c : cache) (lang : str) :
  cache_ok E c ->
  ((exists e c', load_word_list E lang c = (Raise e, c'))
   <-> (_try_frequency_lists E lang = [] /\ _try_online_wordlist E lang = []
        /\ dict_lookup (lower lang) sample_words = None))
  /\ (forall e c', load_word_list E lang c = (Raise e, c') ->
        e = ValueError (not_supported lang))
  /\ (forall s la lb method, raises_only (unsupported la lb) (haze E s la lb method))
  /\ (forall s la lb, raises_only (unsupported la lb) (hybrid_haze E s la lb))
  /\ (forall s la lb n thr, raises_only (unsupported la lb) (rehaze E s la lb n thr))
  /\ (forall s la lb va vb,
        fst (load_word_list E la c) = Return va ->
        fst (load_word_list E lb c) = Return vb ->
        (forall method, exists r c', haze E s la lb method c = (Return r, c'))
        /\ (exists r c', hybrid_haze E s la lb c = (Return r, c'))
        /\ (forall n thr, exists r c', rehaze E s la lb n thr c = (Return r, c'))).
Proof.
  intros Hc. splits.
  - split.
    + intros (e & c' & H). apply load_raises in H. tauto.
    + intros (H1 & H2 & H3).
      destruct (c !! lang) as [ws|] eqn:Hl.
      * destruct (Hc lang ws Hl) as [Hne [->|[_ ->]]]; congruence.
      * rewrite load_uncached by exact Hl. rewrite H1, H2. simpl.
        unfold _get_builtin_wordlist. rewrite H3. eauto.
  - intros e c' H. now apply load_raises in H.
  - intros. apply haze_raises_only.
  - intros. apply hybrid_haze_raises_only.
  - intros. apply rehaze_raises_only.
  - intros s la lb va vb Ha Hb. splits.
    + intros method.
      destruct (haze_returns E s la lb method c va vb Ha Hb) as (r & c' & Hr & _).
      eauto.
    + destruct (hybrid_haze_spec E s la lb c va vb Ha Hb) as (r & c' & Hr & _).
      eauto.
    + intros n thr.
      destruct (rehaze_spec E s la lb n thr c va vb Ha Hb) as (r & c' & cur & Hr & _).
      eauto.
Qed.

Lemma unsupported_language_is_the_only_error_witness :
  exists e c', load_word_list offline (U "klingon") ∅ = (Raise e, c').
Proof.
  destruct (unsupported_language_is_the_only_error offline ∅ (U "klingon")) as [H _].
  - apply cache_ok_empty.
  - apply H. repeat split; reflexivity.
Defined.

(** No tier knows "klingon": the load raises in every environment. *)
Example load_klingon (E : env) :
  load_word_list E (U "klingon") ∅
  = (Raise (ValueError (not_supported (U "klingon"))), ∅).
Proof. reflexivity. Qed.

(** The end-to-end example: two word tokens, whatever the scorer. *)
Example haze_hello_world_word_count (E : env) :
  exists r c',
    haze E (U "hello world") (U "english") (U "spanish") (U "fuzzy") ∅ = (Return r, c')
    /\ sr_word_count r = 2%nat.
Proof.
  destruct (supported_language_loads E (U "english") ∅ _ eq_refl) as [va Ha].
  destruct (supported_language_loads E (U "spanish") ∅ _ eq_refl) as [vb Hb].
  destruct (haze_returns E (U "hello world") (U "english") (U "spanish") (U "fuzzy")
              ∅ va vb Ha Hb) as (r & c' & Hr & _ & _ & Hn & _).
  exists r, c'. split; [exact Hr | exact Hn].
Qed.

(** * Further properties of the code *)

(** ** Similarity scorer *)

Lemma len_Q_nonneg (s : str) : (0 <= len_Q s)%Q.
Proof.
  unfold len_Q. change 0%Q with (inject_Z 0). rewrite <- Zle_Qle. lia.
Qed.

(** The length penalty lies between 0 and 1. *)
Lemma len_penalty_bounds (x y : Q) :
  (0 <= x)%Q -> (0 <= y)%Q ->
  (0 <= Qabs (x - y) / Qmax (Qmax x y) 1 <= 1)%Q.
Proof.
  intros Hx Hy.
  assert (HM : (1 <= Qmax (Qmax x y) 1)%Q) by apply Q.le_max_r.
  assert (Hxm : (x <= Qmax (Qmax x y) 1)%Q).
  { eapply Qle_trans; [apply Q.le_max_l|]. apply Q.le_max_l. }
  assert (Hym : (y <= Qmax (Qmax x y) 1)%Q).
  { eapply Qle_trans; [apply Q.le_max_r|]. apply Q.le_max_l. }
  assert (Habs : (Qabs (x - y) <= Qmax (Qmax x y) 1)%Q).
  { apply Qabs_case; intros; lra. }
  split.
  - apply Qle_shift_div_l; [lra|]. rewrite Qmult_0_l. apply Qabs_nonneg.
  - apply Qle_shift_div_r; [lra|]. lra.
Qed.

(** X1.  When the matcher's ratio lies between 0 and 1, as a ratio does, the
    distance of any two words lies between 0 and 1.1: the three similarities
    weigh 0.4, 0.4 and 0.2, and the length penalty takes off at most 0.1.  In
    exact arithmetic the distance is never negative. *)
Theorem phonetic_distance_bounds (E : env) (word1 word2 : str) :
  (forall a b, 0 <= ratio E a b <= 1)%Q ->
  (0 <= phonetic_distance E word1 word2 <= 11 # 10)%Q.
Proof.
  intros Hr. unfold phonetic_distance. cbv zeta.
  pose proof (Hr (soundex (lower word1)) (soundex (lower word2))) as Hs.
  pose proof (Hr (metaphone_simple (lower word1)) (metaphone_simple (lower word2))) as Hm.
  pose proof (Hr (lower word1) (lower word2)) as Ht.
  pose proof (len_penalty_bounds _ _ (len_Q_nonneg (lower word1))
                (len_Q_nonneg (lower word2))) as Hp.
  set (p := (Qabs _ / _)%Q) in *.
  set (s := ratio E (soundex _) _) in *.
  set (m := ratio E (metaphone_simple _) _) in *.
  set (t := ratio E (lower word1) _) in *.
  lra.
Qed.

Lemma offline_ratio_bounds (a b : str) : (0 <= ratio offline a b <= 1)%Q.
Proof. simpl. destruct (str_eqb a b); lra. Qed.

Lemma phonetic_distance_bounds_witness :
  (0 <= phonetic_distance offline (U "hello") (U "hola") <= 11 # 10)%Q.
Proof.
  apply (phonetic_distance_bounds offline (U "hello") (U "hola")).
  exact offline_ratio_bounds.
Defined.

(** X2.  The distance does not see the case of its arguments: both are
    lower-cased first, and lower-casing twice is lower-casing once. *)
Theorem phonetic_distance_ignores_case (E : env) (word1 word2 : str) :
  phonetic_distance E (lower word1) (lower word2) = phonetic_distance E word1 word2
  /\ phonetic_distance E (lower word1) word2 = phonetic_distance E word1 word2
  /\ phonetic_distance E word1 (lower word2) = phonetic_distance E word1 word2.
Proof. unfold phonetic_distance. rewrite !lower_idem. auto. Qed.

(** X3.  When the matcher rates every string 1 against itself, a word is at
    distance 0 from itself and from any word with the same lower-case form. *)
Theorem phonetic_distance_same_word (E : env) (word1 word2 : str) :
  (forall a, ratio E a a == 1)%Q ->
  lower word1 = lower word2 ->
  (phonetic_distance E word1 word2 == 0)%Q.
Proof.
  intros Hr Hl. unfold phonetic_distance. cbv zeta. rewrite Hl, !Hr.
  assert (Hp : (Qabs (len_Q (lower word2) - len_Q (lower word2))
                / Qmax (Qmax (len_Q (lower word2)) (len_Q (lower word2))) 1 == 0)%Q).
  { assert (H0 : (len_Q (lower word2) - len_Q (lower word2) == 0)%Q) by lra.
    rewrite H0. reflexivity. }
  rewrite Hp. lra.
Qed.

Lemma phonetic_distance_same_word_witness :
  (phonetic_distance offline (U "Hello") (U "hELLO") == 0)%Q.
Proof.
  apply (phonetic_distance_same_word offline (U "Hello") (U "hELLO")).
  - intros a. simpl. unfold str_eqb. rewrite bool_decide_eq_true_2 by reflexivity.
    reflexivity.
  - reflexivity.
Defined.

(** ** Nearest-match finder *)

Lemma flt_trans (a c : Q) (b : fnum) :
  flt (Fin a) b = true -> flt (Fin c) (Fin a) = true -> flt (Fin c) b = true.
Proof.
  destruct b as [y| |]; simpl; try congruence. unfold Qltb.
  rewrite !negb_true_iff. intros H1 H2.
  destruct (Qle_bool y c) eqn:Hyc; [|reflexivity].
  apply Qle_bool_iff in Hyc.
  assert (Hya : ~ (y <= a)%Q) by (intros H; apply Qle_bool_iff in H; congruence).
  assert (Hac : ~ (a <= c)%Q) by (intros H; apply Qle_bool_iff in H; congruence).
  apply Qnot_le_lt in Hya, Hac. lra.
Qed.

Lemma flt_below (a c : Q) (b : fnum) :
  flt (Fin c) b = true -> flt (Fin a) b = false -> (c < a)%Q.
Proof.
  destruct b as [y| |]; simpl; try congruence. unfold Qltb.
  rewrite negb_true_iff, negb_false_iff. intros H1 H2.
  apply Qle_bool_iff in H2.
  assert (Hyc : ~ (y <= c)%Q) by (intros H; apply Qle_bool_iff in H; congruence).
  apply Qnot_le_lt in Hyc. lra.
Qed.

Lemma flt_Fin_true (a b : Q) : flt (Fin a) (Fin b) = true -> (a < b)%Q.
Proof.
  simpl. unfold Qltb. rewrite negb_true_iff. intros H.
  apply Qnot_le_lt. intros Hle. apply Qle_bool_iff in Hle. congruence.
Qed.

Lemma flt_Fin_false (a b : Q) : flt (Fin a) (Fin b) = false -> (b <= a)%Q.
Proof.
  simpl. unfold Qltb. rewrite negb_false_iff. apply Qle_bool_iff.
Qed.

(** The loop either keeps its running pair, no kept candidate being closer,
    or ends on a kept candidate that is strictly closer than every kept
    candidate before it and at least as close as every one after it. *)
Lemma find_loop_argmin (E : env) (t : str) (ff : bool) (l : list str) :
  forall (bm : str) (bd : fnum),
  (find_loop E t ff bm bd l = (bm, bd)
   /\ forall w, In w l -> kept ff t w = true ->
        flt (Fin (phonetic_distance E t w)) bd = false)
  \/ exists pre r post,
       l = pre ++ r :: post
       /\ find_loop E t ff bm bd l = (r, Fin (phonetic_distance E t r))
       /\ kept ff t r = true
       /\ flt (Fin (phonetic_distance E t r)) bd = true
       /\ (forall w, In w pre -> kept ff t w = true ->
             (phonetic_distance E t r < phonetic_distance E t w)%Q)
       /\ (forall w, In w post -> kept ff t w = true ->
             (phonetic_distance E t r <= phonetic_distance E t w)%Q).
Proof.
  induction l as [|w l IH]; intros bm bd.
  { left. split; [reflexivity | intros w []]. }
  cbn [find_loop]. unfold kept in *.
  destruct (ff && str_eqb (lower w) (lower t)) eqn:Hskip.
  - destruct (IH bm bd) as [[Heq Hno]|(pre & r & post & -> & Heq & Hk & Hlt & Hpre & Hpost)].
    + left. split; [exact Heq|]. intros x [<-|Hx] Hkx; [|now apply Hno].
      rewrite Hskip in Hkx. discriminate.
    + right. exists (w :: pre), r, post. splits; auto.
      intros x [<-|Hx] Hkx; [|now apply Hpre]. rewrite Hskip in Hkx. discriminate.
  - cbv zeta. destruct (flt (Fin (phonetic_distance E t w)) bd) eqn:Hw.
    + destruct (IH w (Fin (phonetic_distance E t w)))
        as [[Heq Hno]|(pre & r & post & -> & Heq & Hk & Hlt & Hpre & Hpost)].
      * right. exists [], w, l. splits; auto.
        -- now rewrite Hskip.
        -- intros x [].
        -- intros x Hx Hkx. apply flt_Fin_false. now apply Hno.
      * right. exists (w :: pre), r, post. splits; auto.
        -- eapply flt_trans; eassumption.
        -- intros x [<-|Hx] Hkx; [|now apply Hpre]. now apply flt_Fin_true.
    + destruct (IH bm bd) as [[Heq Hno]|(pre & r & post & -> & Heq & Hk & Hlt & Hpre & Hpost)].
      * left. split; [exact Heq|]. intros x [<-|Hx] Hkx; [exact Hw | now apply Hno].
      * right. exists (w :: pre), r, post. splits; auto.
        intros x [<-|Hx] Hkx; [|now apply Hpre]. eapply flt_below; eassumption.
Qed.

(** X4.  [find_most_similar_word] returns the kept candidate of least
    distance, the first of them in vocabulary order when several are as
    close, and as its score one minus that distance.  Kept are all
    candidates, or with [force_fuzzy] those whose lower-case form differs
    from the target's.  When none is kept it returns the empty string and
    minus infinity. *)
Theorem find_most_similar_word_is_first_nearest
    (E : env) (target : str) (vocab : list str) (force_fuzzy : bool) :
  (find_most_similar_word E target vocab force_fuzzy = ([], NInf)
   /\ forall w, In w vocab -> kept force_fuzzy target w = false)
  \/ exists pre best post,
       vocab = pre ++ best :: post
       /\ find_most_similar_word E target vocab force_fuzzy
          = (best, Fin (1 - phonetic_distance E target best))
       /\ kept force_fuzzy target best = true
       /\ (forall w, In w pre -> kept force_fuzzy target w = true ->
             (phonetic_distance E target best < phonetic_distance E target w)%Q)
       /\ (forall w, In w post -> kept force_fuzzy target w = true ->
             (phonetic_distance E target best <= phonetic_distance E target w)%Q).
Proof.
  unfold find_most_similar_word.
  destruct (find_loop_argmin E target force_fuzzy vocab [] PInf)
    as [[Heq Hno]|(pre & r & post & -> & Heq & Hk & _ & Hpre & Hpost)].
  - left. rewrite Heq. split; [reflexivity|].
    intros w Hw. destruct (kept force_fuzzy target w) eqn:Hk; [|reflexivity].
    specialize (Hno w Hw Hk). discriminate.
  - right. exists pre, r, post. rewrite Heq. splits; auto.
Qed.

(** ** Phonetic encoder *)

Lemma upper_app (a b : str) : upper (a ++ b) = upper a ++ upper b.
Proof. unfold upper. apply flat_map_app. Qed.

Lemma upper_c_small_idem :
  forallb (fun n => bool_decide (upper (upper_c (N.of_nat n)) = upper_c (N.of_nat n)))
    (seq 0 384) = true.
Proof. vm_compute. reflexivity. Qed.

Lemma upper_c_large (c : char) : 384 <= c -> upper_c c = [c].
Proof.
  intros H. unfold upper_c. rewrite !between_above by lia.
  repeat match goal with
         | |- context [?a =? ?b] => destruct (N.eqb_spec a b); [lia|]
         end.
  reflexivity.
Qed.

Lemma upper_c_idem (c : char) : upper (upper_c c) = upper_c c.
Proof.
  destruct (N.lt_ge_cases c 384) as [Hlt|Hge].
  - pose proof upper_c_small_idem as H. rewrite forallb_forall in H.
    assert (Hin : In (N.to_nat c) (seq 0 384)) by (apply in_seq; lia).
    specialize (H _ Hin). rewrite N2Nat.id in H. now apply bool_decide_eq_true in H.
  - rewrite (upper_c_large c Hge). simpl. rewrite (upper_c_large c Hge). reflexivity.
Qed.

Lemma upper_idem (s : str) : upper (upper s) = upper s.
Proof.
  induction s as [|c s IH]; [reflexivity|].
  change (upper (c :: s)) with (upper_c c ++ upper s).
  now rewrite upper_app, upper_c_idem, IH.
Qed.

Lemma upper_cons_nonempty (c : char) (s : str) : upper (c :: s) <> [].
Proof.
  intros H. pose proof (upper_length (c :: s)) as Hl. rewrite H in Hl.
  simpl in Hl. lia.
Qed.

(** X5.  Both codes are those of the upper-cased word: a word and its
    upper-case form have the same [soundex] and the same [metaphone_simple],
    so words that differ in case only are encoded alike. *)
Theorem encoders_ignore_case (w : str) :
  soundex (upper w) = soundex w
  /\ metaphone_simple (upper w) = metaphone_simple w.
Proof.
  destruct w as [|c w]; [split; reflexivity|].
  pose proof (upper_cons_nonempty c w) as Hne.
  unfold soundex, metaphone_simple.
  destruct (upper (c :: w)) as [|d u] eqn:Hu; [congruence|].
  rewrite <- Hu, upper_idem. split; reflexivity.
Qed.

Lemma mapping_digits (c d : char) :
  dict_get c mapping = Some d -> digit_1_6 d = true.
Proof.
  assert (H : forallb (fun p => digit_1_6 (snd p)) mapping = true) by reflexivity.
  rewrite forallb_forall in H.
  assert (G : forall (m : list (char * char)),
            dict_get c m = Some d -> In (c, d) m).
  { induction m as [|[k v] m IH]; simpl; [discriminate|].
    destruct (N.eqb_spec c k) as [->|Hne].
    - intros Hd. inversion Hd. now left.
    - intros Hd. right. auto. }
  intros Hd. apply (H (c, d)), G, Hd.
Qed.

Lemma neighbours_differ_snoc (s : str) (d : char) :
  neighbours_differ s = true -> Some d <> last s ->
  neighbours_differ (s ++ [d]) = true.
Proof.
  induction s as [|a s IH]; intros Hs Hd; [reflexivity|].
  destruct s as [|b s].
  - simpl in *. destruct (N.eqb_spec a d); [congruence | reflexivity].
  - cbn [neighbours_differ app] in *. apply andb_prop in Hs as [Hab Hs].
    rewrite Hab. simpl. apply IH; [exact Hs | exact Hd].
Qed.

Lemma soundex_loop_shape (rest code : str) :
  code <> [] ->
  neighbours_differ code = true ->
  forallb digit_1_6 (tail code) = true ->
  head (soundex_loop code rest) = head code
  /\ neighbours_differ (soundex_loop code rest) = true
  /\ forallb digit_1_6 (tail (soundex_loop code rest)) = true.
Proof.
  revert code. induction rest as [|c rest IH]; intros code Hne Hn Hd; [auto|].
  cbn [soundex_loop]. destruct (dict_get c mapping) as [d|] eqn:Hm; [|now apply IH].
  case_bool_decide as Hl; cbn [negb]; [now apply IH|].
  destruct code as [|a code]; [congruence|].
  destruct (IH ((a :: code) ++ [d])) as (H1 & H2 & H3).
  - discriminate.
  - apply neighbours_differ_snoc; [exact Hn | exact Hl].
  - cbn [app tail] in *. rewrite forallb_app, Hd. simpl.
    now rewrite (mapping_digits c d Hm).
  - auto.
Qed.

Lemma no_repeat_pad (s : str) :
  neighbours_differ s = true -> no_repeat_but_zero (s ++ U "0000") = true.
Proof.
  induction s as [|a s IH]; intros Hs; [reflexivity|].
  destruct s as [|b s].
  - change (U "0000") with [48; 48; 48; 48]. cbn [app no_repeat_but_zero].
    destruct (N.eqb_spec a 48) as [->|Hne]; reflexivity.
  - cbn [neighbours_differ] in Hs. apply andb_prop in Hs as [Hab Hs].
    change (no_repeat_but_zero ((a :: b :: s) ++ U "0000"))
      with (((a =? 48) || negb (a =? b)) && no_repeat_but_zero ((b :: s) ++ U "0000")).
    rewrite Hab, orb_true_r. simpl. now apply IH.
Qed.

Lemma no_repeat_take (n : nat) (s : str) :
  no_repeat_but_zero s = true -> no_repeat_but_zero (firstn n s) = true.
Proof.
  revert n. induction s as [|a s IH]; intros n Hs; [now destruct n|].
  destruct n as [|n]; [reflexivity|].
  destruct s as [|b s]; [now destruct n|].
  cbn [no_repeat_but_zero] in Hs. apply andb_prop in Hs as [Hab Hs].
  destruct n as [|m]; [reflexivity|].
  specialize (IH (S m) Hs). cbn [firstn] in *.
  change (no_repeat_but_zero (a :: b :: firstn m s))
    with (((a =? 48) || negb (a =? b)) && no_repeat_but_zero (b :: firstn m s)).
  now rewrite Hab, IH.
Qed.

Lemma forallb_take {A : Type} (f : A -> bool) (n : nat) (l : list A) :
  forallb f l = true -> forallb f (firstn n l) = true.
Proof.
  revert l. induction n as [|n IH]; intros l H; [reflexivity|].
  destruct l as [|a l]; [reflexivity|]. simpl in *.
  apply andb_prop in H as [Ha Hl]. now rewrite Ha, IH.
Qed.

(** X6.  The code of [soundex] starts with the first character of the
    upper-cased word ('0' for the empty word); the three characters after it
    are digits from 0 to 6; and no character repeats its neighbour, the
    padding zeros apart: a digit that equals the last character of the code
    is not appended. *)
Theorem soundex_shape (w : str) :
  head (soundex w) = match w with
                     | [] => Some (ch "0")
                     | _ => head (upper w)
                     end
  /\ forallb digit_0_6 (tail (soundex w)) = true
  /\ no_repeat_but_zero (soundex w) = true.
Proof.
  destruct w as [|c w]; [splits; reflexivity|].
  unfold soundex. pose proof (upper_cons_nonempty c w) as Hne.
  destruct (upper (c :: w)) as [|a u]; [congruence|].
  change (firstn 1 (a :: u)) with [a]. change (skipn 1 (a :: u)) with u.
  destruct (soundex_loop_shape u [a]) as (H1 & H2 & H3); try reflexivity; [discriminate|].
  destruct (soundex_loop [a] u) as [|x code] eqn:Hcode; [discriminate|].
  simpl in H1. inversion H1; subst x. splits.
  - reflexivity.
  - change (firstn 4 ((a :: code) ++ U "0000")) with (a :: firstn 3 (code ++ U "0000")).
    cbn [tail] in *. apply forallb_take. rewrite forallb_app.
    assert (Hc : forallb digit_0_6 code = true).
    { rewrite forallb_forall in *. intros d Hd. specialize (H3 d Hd).
      unfold digit_1_6, digit_0_6, between in *.
      apply andb_prop in H3 as [Hlo Hhi]. rewrite Hhi, andb_true_r.
      apply N.leb_le in Hlo. apply N.leb_le. lia. }
    now rewrite Hc.
  - apply no_repeat_take, no_repeat_pad, H2.
Qed.

Lemma metaphone_loop_vowels (word acc : str) (prev : option char) :
  forallb (fun c => negb (is_vowel c)) (tail acc) = true ->
  forallb (fun c => negb (is_vowel c)) (tail (metaphone_loop acc prev word)) = true.
Proof.
  revert acc prev. induction word as [|c word IH]; intros acc prev Hacc; [exact Hacc|].
  cbn [metaphone_loop]. cbv zeta. apply IH.
  fold (is_vowel c). destruct (is_vowel c) eqn:Hv.
  - destruct acc; [reflexivity | exact Hacc].
  - destruct (negb (bool_decide (Some c = prev))); [|exact Hacc].
    destruct acc as [|a acc]; [reflexivity|].
    cbn [app tail] in *. rewrite forallb_app, Hacc. simpl. now rewrite Hv.
Qed.

(** X7.  In the code of [metaphone_simple] a vowel can only stand first:
    after the first character no A, E, I, O or U occurs, a vowel being kept
    only while nothing has been emitted. *)
Theorem metaphone_vowel_only_first (w : str) :
  forallb (fun c => negb (is_vowel c)) (tail (metaphone_simple w)) = true.
Proof.
  destruct w as [|c w]; [reflexivity|]. unfold metaphone_simple.
  set (word := replace _ _ (replace _ _ (replace _ _ (replace _ _ _)))).
  pose proof (metaphone_loop_vowels word [] None eq_refl) as H.
  destruct (metaphone_loop [] None word) as [|a m]; [reflexivity|].
  change (firstn 6 (a :: m)) with (a :: firstn 5 m). cbn [tail] in *.
  now apply forallb_take.
Qed.

(** ** Translation collaborator *)

Lemma translations_inverse : forallb dictionary_inverse_ok translations = true.
Proof. vm_compute. reflexivity. Qed.

(** X8.  With the translation client failing, [simple_translate] works from
    the built-in dictionary, and there the six language pairs are inverse to
    each other: a dictionary word translated into the other language and
    back is the word again. *)
Theorem dictionary_round_trip (E : env) (a b w t : str) (entries : list (str * str)) :
  (forall source target word, exists e, google_translate E source target word = Raise e) ->
  In ((a, b), entries) translations ->
  In (w, t) entries ->
  simple_translate E w a b = t
  /\ simple_translate E (simple_translate E w a b) b a = w.
Proof.
  intros Hfail Hp Hq.
  assert (Hs : forall x f g, simple_translate E x f g = dictionary_translate x f g).
  { intros x f g. unfold simple_translate.
    destruct (Hfail (default (U "auto") (dict_lookup (lower f) lang_map))
                    (default (U "en") (dict_lookup (lower g) lang_map)) x) as [e ->].
    reflexivity. }
  rewrite !Hs.
  pose proof translations_inverse as H. rewrite forallb_forall in H.
  specialize (H _ Hp). unfold dictionary_inverse_ok in H. rewrite forallb_forall in H.
  specialize (H _ Hq). simpl in H. apply andb_prop in H as [H1 H2].
  unfold str_eqb in *. apply bool_decide_eq_true in H1, H2.
  rewrite H1. auto.
Qed.

Lemma dictionary_round_trip_witness :
  simple_translate offline (U "perro") (U "spanish") (U "french") = U "chien"
  /\ simple_translate offline
       (simple_translate offline (U "perro") (U "spanish") (U "french"))
       (U "french") (U "spanish") = U "perro".
Proof.
  eapply (dictionary_round_trip offline (U "spanish") (U "french") (U "perro") (U "chien")).
  - intros. eexists. reflexivity.
  - left. reflexivity.
  - do 6 right. left. reflexivity.
Defined.

(** ** Word list provider *)

(** X9.  A load never removes or changes a cache entry and touches no
    language but the one asked for; when that language is cached afterwards,
    the cached list is the list returned; and a cache that holds only
    non-empty tier results stays such a cache. *)
Theorem load_word_list_cache_grows (E : env) (lang : str) (c : cache) :
  (forall l ws, c !! l = Some ws -> snd (load_word_list E lang c) !! l = Some ws)
  /\ (forall l, l <> lang -> snd (load_word_list E lang c) !! l = c !! l)
  /\ (forall ws, snd (load_word_list E lang c) !! lang = Some ws ->
        fst (load_word_list E lang c) = Return ws)
  /\ (cache_ok E c -> cache_ok E (snd (load_word_list E lang c))).
Proof.
  splits.
  - intros l ws Hl. destruct (c !! lang) as [v|] eqn:Hc.
    { now rewrite (load_cached _ _ _ _ Hc). }
    rewrite (load_uncached _ _ _ Hc).
    destruct (truthy (_try_frequency_lists E lang)); simpl.
    { rewrite lookup_insert_ne; [exact Hl | congruence]. }
    destruct (truthy (_try_online_wordlist E lang)); simpl; [|exact Hl].
    rewrite lookup_insert_ne; [exact Hl | congruence].
  - intros l Hne. destruct (c !! lang) as [v|] eqn:Hc.
    { now rewrite (load_cached _ _ _ _ Hc). }
    rewrite (load_uncached _ _ _ Hc).
    destruct (truthy (_try_frequency_lists E lang)); simpl.
    { apply lookup_insert_ne. congruence. }
    destruct (truthy (_try_online_wordlist E lang)); simpl; [|reflexivity].
    apply lookup_insert_ne. congruence.
  - intros ws. destruct (c !! lang) as [v|] eqn:Hc.
    { rewrite (load_cached _ _ _ _ Hc). simpl. rewrite Hc. intros H. inversion H; subst.
      reflexivity. }
    rewrite (load_uncached _ _ _ Hc).
    destruct (truthy (_try_frequency_lists E lang)) eqn:H1; simpl.
    { rewrite lookup_insert_eq. intros H. inversion H; subst. reflexivity. }
    destruct (truthy (_try_online_wordlist E lang)) eqn:H2; simpl.
    { rewrite lookup_insert_eq. intros H. inversion H; subst. reflexivity. }
    rewrite Hc. discriminate.
  - apply cache_ok_load.
Qed.

(** X10.  In an unchanged environment a load does not change what any later
    load returns, for the same language or another: what it may add to the
    cache is what the later load would have found itself. *)
Theorem load_word_list_is_stable (E : env) (first later : str) (c : cache) :
  fst (load_word_list E later (snd (load_word_list E first c)))
  = fst (load_word_list E later c).
Proof. apply load_same_loads. Qed.

Lemma frequency_lists_lower (E : env) (l : str) :
  _try_frequency_lists E (lower l) = _try_frequency_lists E l.
Proof. unfold _try_frequency_lists. now rewrite lower_idem. Qed.

Lemma online_wordlist_lower (E : env) (l : str) :
  _try_online_wordlist E (lower l) = _try_online_wordlist E l.
Proof. unfold _try_online_wordlist. now rewrite lower_idem. Qed.

(** X11.  The tiers look a language up by its lower-case name, so for a
    language that is not cached under either spelling, [load_word_list]
    returns the same vocabulary for the name as written and for its
    lower-case form; the cache, though, is keyed by the name as written. *)
Theorem load_word_list_ignores_case (E : env) (lang : str) (c : cache) (ws : list str) :
  c !! lang = None ->
  c !! lower lang = None ->
  (fst (load_word_list E lang c) = Return ws
   <-> fst (load_word_list E (lower lang) c) = Return ws)
  /\ (forall l, snd (load_word_list E lang c) !! l <> c !! l -> l = lang).
Proof.
  intros H1 H2. split.
  - rewrite (load_uncached _ _ _ H1), (load_uncached _ _ _ H2).
    rewrite frequency_lists_lower, online_wordlist_lower.
    destruct (truthy (_try_frequency_lists E lang)); [reflexivity|].
    destruct (truthy (_try_online_wordlist E lang)); [reflexivity|].
    unfold _get_builtin_wordlist. rewrite lower_idem.
    destruct (dict_lookup (lower lang) sample_words); simpl; [reflexivity|].
    split; discriminate.
  - intros l Hl. destruct (decide (l = lang)) as [->|Hne]; [reflexivity|].
    exfalso. apply Hl.
    rewrite (load_uncached _ _ _ H1).
    destruct (truthy (_try_frequency_lists E lang)); simpl.
    { apply lookup_insert_ne. congruence. }
    destruct (truthy (_try_online_wordlist E lang)); simpl; [|reflexivity].
    apply lookup_insert_ne. congruence.
Qed.

Lemma load_word_list_ignores_case_witness :
  fst (load_word_list offline (U "Spanish") ∅) = Return (map U spanish_words)
  <-> fst (load_word_list offline (lower (U "Spanish")) ∅) = Return (map U spanish_words).
Proof.
  apply (load_word_list_ignores_case offline (U "Spanish") ∅ (map U spanish_words));
    apply lookup_empty.
Defined.

(** X12.  A failure of the HTTP client never leaves a tier: when every
    request raises, both tiers give the empty list, and the load of a
    language that is not cached is the embedded list, or its [ValueError],
    with the cache left as it was. *)
Theorem tiers_absorb_request_failures (E : env) (lang : str) (c : cache) :
  (forall url timeout, exists e, requests_get E url timeout = Raise e) ->
  _try_frequency_lists E lang = []
  /\ _try_online_wordlist E lang = []
  /\ (c !! lang = None ->
      load_word_list E lang c = (_get_builtin_wordlist lang, c)).
Proof.
  intros Hfail.
  assert (H1 : _try_frequency_lists E lang = []).
  { unfold _try_frequency_lists. destruct (dict_lookup _ freq_urls) as [url|]; [|reflexivity].
    destruct (Hfail url 10) as [e ->]. reflexivity. }
  assert (H2 : _try_online_wordlist E lang = []).
  { unfold _try_online_wordlist. destruct (dict_lookup _ urls) as [url|]; [|reflexivity].
    destruct (Hfail url 20) as [e ->]. reflexivity. }
  splits; auto. intros Hc. rewrite (load_uncached _ _ _ Hc), H1, H2. reflexivity.
Qed.

Lemma tiers_absorb_request_failures_witness :
  _try_frequency_lists offline (U "german") = []
  /\ _try_online_wordlist offline (U "german") = []
  /\ load_word_list offline (U "german") ∅ = (_get_builtin_wordlist (U "german"), ∅).
Proof.
  destruct (tiers_absorb_request_failures offline (U "german") ∅) as (H1 & H2 & H3).
  - intros. eexists. reflexivity.
  - splits; [exact H1 | exact H2 | apply H3, lookup_empty].
Defined.

(** ** Transformation pipeline *)

Lemma hybrid_loop_rebuilds (E : env) (la lb : str) (words : list str) :
  forall tw wd c tw' wd' c',
  hybrid_loop E la lb words tw wd c = (Return (tw', wd'), c') ->
  exists new, wd' = wd ++ new
    /\ map wd_original new = List.filter match_word words
    /\ tw' = tw ++ substitute words (map wd_transformed new).
Proof.
  induction words as [|item rest IH]; intros tw wd c tw' wd' c' H;
    cbn [hybrid_loop] in H.
  - inversion H; subst. exists []. now rewrite !app_nil_r.
  - cbn [List.filter substitute]. destruct (match_word item) eqn:Hw.
    + apply bind_inv in H as (h & c1 & _ & H). cbv zeta in H.
      apply IH in H as (new & -> & Ho & ->).
      eexists (_ :: new). rewrite <- !app_assoc. split; [reflexivity|].
      split; [simpl; now rewrite Ho | reflexivity].
    + apply IH in H as (new & -> & Ho & ->).
      exists new. rewrite <- app_assoc. auto.
Qed.

Lemma hybrid_haze_rebuilt (E : env) (sentence la lb : str) (c c' : cache)
    (r : sentence_result) :
  hybrid_haze E sentence la lb c = (Return r, c') ->
  rebuilt E sentence la r /\ sr_method r = U "fuzzy_then_translate".
Proof.
  intros H. unfold hybrid_haze in H.
  apply bind_inv in H as ([tw wd] & c1 & Hl & H).
  apply hybrid_loop_rebuilds in Hl as (new & -> & Ho & ->).
  inversion H; subst. unfold rebuilt. simpl. splits; auto.
  now rewrite <- Ho, length_map.
Qed.

(** X13.  Whenever [haze] or [hybrid_haze] returns, the result has one
    record per word token, in order, and [word_count] counts them; the
    transformed sentence is what [generate_final_text] makes of the tokens
    joined with every word token replaced by its record's transformed word
    and every run of other characters left as it is. *)
Theorem sentence_is_rebuilt (E : env) (sentence la lb : str) (c : cache) :
  (forall method r c', haze E sentence la lb method c = (Return r, c') ->
     rebuilt E sentence la r /\ sr_method r = method)
  /\ (forall r c', hybrid_haze E sentence la lb c = (Return r, c') ->
        rebuilt E sentence la r /\ sr_method r = U "fuzzy_then_translate").
Proof.
  split.
  - intros method r c'. apply haze_rebuilt.
  - intros r c'. apply hybrid_haze_rebuilt.
Qed.

(** X14.  Any failure of the composition step gives the text back: with
    fewer than three whitespace-separated tokens the client is not called,
    and without an API key, or when the client raises, [generate_final_text]
    returns its input.  It returns something else only if the client
    answered. *)
Theorem generate_final_text_falls_back (E : env) (text la : str) :
  ((length (split_ws [] text) < 3)%nat -> generate_final_text E text la = text)
  /\ (forall e, get_api_key E = Raise e -> generate_final_text E text la = text)
  /\ (forall key e, get_api_key E = Return key ->
        messages_create E key (prompt_of text la) = Raise e ->
        generate_final_text E text la = text)
  /\ (generate_final_text E text la <> text ->
      (3 <= length (split_ws [] text))%nat
      /\ exists key, getenv_api_key E = Some key /\ key <> []
           /\ messages_create E key (prompt_of text la)
              = Return (generate_final_text E text la)).
Proof.
  unfold generate_final_text, get_api_key. splits.
  - intros H. apply Nat.ltb_lt in H. now rewrite H.
  - intros e H. destruct (_ <? 3)%nat; [reflexivity|].
    destruct (getenv_api_key E) as [[|x k]|]; try reflexivity. discriminate.
  - intros key e Hk Hm. destruct (_ <? 3)%nat; [reflexivity|].
    destruct (getenv_api_key E) as [[|x k]|]; try reflexivity.
    inversion Hk; subst. now rewrite Hm.
  - destruct (_ <? 3)%nat eqn:Hlen; [congruence|]. apply Nat.ltb_ge in Hlen.
    destruct (getenv_api_key E) as [[|x k]|]; try congruence.
    destruct (messages_create E (x :: k) (prompt_of text la)) eqn:Hm; [congruence|].
    intros _. split; [exact Hlen|]. exists (x :: k). splits; auto; discriminate.
Qed.

Lemma tokens_without_words (s : str) :
  forallb (fun ch => negb (is_word ch)) s = true ->
  List.filter match_word (findall_tokens s) = [].
Proof.
  intros Hs. destruct (tokens_of_any_class is_word s) as (Hcat & Hrun & _).
  fold (findall_tokens s) in *.
  assert (Hin : forall t, In t (findall_tokens s) -> match_word t = false).
  { intros t Ht. destruct t as [|x t]; [reflexivity|].
    unfold match_word, starts_with_word. simpl.
    rewrite forallb_forall in Hs. apply negb_true_iff, Hs.
    rewrite <- Hcat. apply in_concat. exists (x :: t). split; [exact Ht | now left]. }
  clear Hcat Hrun. induction (findall_tokens s) as [|t ts IH]; [reflexivity|].
  simpl. rewrite (Hin t) by now left. apply IH. intros; apply Hin; now right.
Qed.

Lemma haze_loop_no_words (E : env) (la lb method : str) (words : list str) :
  List.filter match_word words = [] ->
  forall tw wd c,
  haze_loop E la lb method words tw wd c = (Return (tw ++ words, wd), c).
Proof.
  induction words as [|item rest IH]; intros H tw wd c; cbn [haze_loop].
  - now rewrite app_nil_r.
  - cbn [List.filter] in H. destruct (match_word item); [discriminate|].
    rewrite (IH H), <- app_assoc. reflexivity.
Qed.

Lemma hybrid_loop_no_words (E : env) (la lb : str) (words : list str) :
  List.filter match_word words = [] ->
  forall tw wd c,
  hybrid_loop E la lb words tw wd c = (Return (tw ++ words, wd), c).
Proof.
  induction words as [|item rest IH]; intros H tw wd c; cbn [hybrid_loop].
  - now rewrite app_nil_r.
  - cbn [List.filter] in H. destruct (match_word item); [discriminate|].
    rewrite (IH H), <- app_assoc. reflexivity.
Qed.

(** X15.  A sentence without any word character, the empty sentence
    included, needs no vocabulary: [haze] and [hybrid_haze] return it (as
    [generate_final_text] leaves it) with no record and a word count of 0,
    whatever the two languages are, supported or not, and the cache stays as
    it was. *)
Theorem sentence_without_words (E : env) (sentence la lb method : str) (c : cache) :
  forallb (fun ch => negb (is_word ch)) sentence = true ->
  haze E sentence la lb method c
  = (Return {| sr_original_sentence := sentence;
               sr_transformed_sentence := generate_final_text E sentence la;
               sr_method := method;
               sr_language_route := la ++ arrow ++ lb ++ arrow ++ la;
               sr_word_transformations := [];
               sr_word_count := 0 |}, c)
  /\ hybrid_haze E sentence la lb c
     = (Return {| sr_original_sentence := sentence;
                  sr_transformed_sentence := generate_final_text E sentence la;
                  sr_method := U "fuzzy_then_translate";
                  sr_language_route := la ++ arrow ++ lb ++ arrow ++ la ++ U " ";
                  sr_word_transformations := [];
                  sr_word_count := 0 |}, c).
Proof.
  intros Hs. pose proof (tokens_without_words sentence Hs) as Hf.
  destruct (tokens_of_any_class is_word sentence) as (Hcat & _).
  fold (findall_tokens sentence) in Hcat.
  unfold haze, hybrid_haze, mbind, M_bind, bind.
  rewrite (haze_loop_no_words E la lb method _ Hf),
          (hybrid_loop_no_words E la lb _ Hf).
  simpl. rewrite Hcat. split; reflexivity.
Qed.

Lemma sentence_without_words_witness :
  fst (haze offline (U "?! ... ") (U "klingon") (U "elvish") (U "fuzzy") ∅)
  = Return {| sr_original_sentence := U "?! ... ";
              sr_transformed_sentence := U "?! ... ";
              sr_method := U "fuzzy";
              sr_language_route :=
                U "klingon" ++ arrow ++ U "elvish" ++ arrow ++ U "klingon";
              sr_word_transformations := [];
              sr_word_count := 0 |}.
Proof.
  destruct (sentence_without_words offline (U "?! ... ") (U "klingon") (U "elvish")
              (U "fuzzy") ∅) as [H _].
  - reflexivity.
  - rewrite H. reflexivity.
Defined.

(** X16.  With a method other than "fuzzy", [haze] loads the vocabulary of
    language B only: it returns whenever that vocabulary loads, be language
    A supported or not, and each word token becomes the translation, as
    [simple_translate] gives it, of its nearest match in vocabulary B; a
    failure marker is kept as the word. *)
Theorem haze_translate_needs_language_b_only
    (E : env) (sentence la lb method : str) (c : cache) (vb : list str) :
  method <> U "fuzzy" ->
  fst (load_word_list E lb c) = Return vb ->
  exists r c',
    haze E sentence la lb method c = (Return r, c')
    /\ Forall (fun d =>
                 wd_transformed d
                 = simple_translate E
                     (fst (find_most_similar_word E (wd_original d) vb true)) lb la
                 /\ wd_chain d
                    = wd_original d ++ arrow
                      ++ fst (find_most_similar_word E (wd_original d) vb true)
                      ++ arrow ++ wd_transformed d
                 /\ wd_method d = method /\ wd_fallback_used d = None)
         (sr_word_transformations r).
Proof.
  intros Hm Hb. unfold haze.
  destruct (haze_loop_translate E la lb method vb (findall_tokens sentence) Hm [] [] c Hb)
    as (tw & new & c' & Hl & _ & Hall).
  rewrite (bind_return _ _ _ _ _ Hl). simpl.
  eexists _, c'. split; [reflexivity | exact Hall].
Qed.

Lemma haze_translate_needs_language_b_only_witness :
  exists r c',
    haze offline (U "xyz") (U "klingon") (U "spanish") (U "translate") ∅ = (Return r, c').
Proof.
  destruct (haze_translate_needs_language_b_only offline (U "xyz") (U "klingon")
              (U "spanish") (U "translate") ∅ (map U spanish_words))
    as (r & c' & H & _).
  - vm_compute. discriminate.
  - reflexivity.
  - eauto.
Defined.

(** X17.  With the method "fuzzy" and both vocabularies loadable, [haze]
    returns, and each word token becomes the nearest match in vocabulary A of
    its nearest match in vocabulary B.  Neither hop echoes: a match is the
    empty string (nothing to choose from) or a vocabulary word whose
    lower-case form differs from that of the word it was searched for.  The
    chain lists the three words. *)
Theorem haze_fuzzy_two_hops (E : env) (sentence la lb : str) (c : cache)
    (va vb : list str) :
  fst (load_word_list E la c) = Return va ->
  fst (load_word_list E lb c) = Return vb ->
  exists r c',
    haze E sentence la lb (U "fuzzy") c = (Return r, c')
    /\ Forall (fuzzy_detail_ok E va vb) (sr_word_transformations r).
Proof.
  intros Ha Hb. unfold haze.
  destruct (haze_loop_fuzzy E la lb va vb (findall_tokens sentence) [] [] c Ha Hb)
    as (tw & new & c' & Hl & _ & Hall).
  rewrite (bind_return _ _ _ _ _ Hl). simpl.
  eexists _, c'. split; [reflexivity | exact Hall].
Qed.

Lemma haze_fuzzy_two_hops_witness :
  exists r c',
    haze offline (U "hello world") (U "english") (U "spanish") (U "fuzzy") ∅
    = (Return r, c')
    /\ Forall (fuzzy_detail_ok offline (map U english_words) (map U spanish_words))
         (sr_word_transformations r).
Proof.
  apply (haze_fuzzy_two_hops offline (U "hello world") (U "english") (U "spanish") ∅);
    reflexivity.
Defined.

(** *** No failure marker leaves the hybrid method *)

Lemma marker_head (w : str) : starts_with marker w = true -> head w = Some 91.
Proof.
  destruct w as [|x w]; [discriminate|]. unfold marker.
  change (U "[untranslated:") with (91 :: U "untranslated:"). cbn [starts_with].
  intros H. apply andb_prop in H as [H _]. apply N.eqb_eq in H. now subst.
Qed.

Lemma isalpha_c_small (x : char) : isalpha_c x = true -> x < 384.
Proof.
  intros H. destruct (N.lt_ge_cases x 384) as [Hlt|Hge]; [exact Hlt|].
  unfold isalpha_c in H. rewrite !between_above in H by lia.
  repeat match type of H with
         | context [?a =? ?b] => destruct (N.eqb_spec a b); [lia|]
         end.
  discriminate.
Qed.

Lemma lower_c_head_table :
  forallb (fun n => negb (isalpha_c (N.of_nat n))
                    || negb (bool_decide (head (lower_c (N.of_nat n)) = Some 91)))
    (seq 0 384) = true.
Proof. vm_compute. reflexivity. Qed.

Lemma lower_alpha_head (raw : str) :
  isalpha raw = true -> head (lower raw) <> Some 91.
Proof.
  destruct raw as [|x raw]; [discriminate|]. simpl. intros H.
  apply andb_prop in H as [Hx _]. pose proof (isalpha_c_small x Hx) as Hlt.
  pose proof lower_c_head_table as T. rewrite forallb_forall in T.
  assert (Hin : In (N.to_nat x) (seq 0 384)) by (apply in_seq; lia).
  specialize (T _ Hin). rewrite N2Nat.id, Hx in T. simpl in T.
  apply negb_true_iff, bool_decide_eq_false in T.
  pose proof (lower_c_length x) as Hl.
  destruct (lower_c x) as [|y ys]; [simpl in Hl; lia|]. exact T.
Qed.

Lemma alpha_head (w : str) : isalpha w = true -> head w <> Some 91.
Proof.
  destruct w as [|x w]; [discriminate|]. simpl. intros H.
  apply andb_prop in H as [Hx _]. intros Heq. inversion Heq; subst. discriminate.
Qed.

(** No word of a loaded vocabulary starts like the failure marker. *)
Lemma loaded_word_is_no_marker (E : env) (l : str) (c : cache) (ws : list str) (w : str) :
  cache_ok E c ->
  fst (load_word_list E l c) = Return ws ->
  In w ws ->
  starts_with marker w = false.
Proof.
  intros Hc Hload Hw.
  assert (Htier : ws = _try_frequency_lists E l
                  \/ ws = _try_online_wordlist E l
                  \/ _get_builtin_wordlist l = Return ws).
  { destruct (c !! l) as [ws0|] eqn:Hl.
    - rewrite (load_cached _ _ _ _ Hl) in Hload. inversion Hload; subst.
      destruct (Hc l ws Hl) as [_ [H|[_ H]]]; auto.
    - rewrite load_uncached in Hload by exact Hl.
      destruct (truthy (_try_frequency_lists E l)).
      { inversion Hload; subst. auto. }
      destruct (truthy (_try_online_wordlist E l)).
      { inversion Hload; subst. auto. }
      simpl in Hload. auto. }
  destruct (starts_with marker w) eqn:Hm; [|reflexivity].
  apply marker_head in Hm. exfalso.
  destruct Htier as [->|[->|Hb]].
  - destruct (frequency_list_entries E l w Hw) as (H1 & _). now apply (alpha_head w).
  - destruct (online_list_entries E l w Hw) as (_ & raw & -> & Hraw & _).
    now apply (lower_alpha_head raw).
  - destruct (builtin_list_entries l ws w Hb Hw) as (_ & [[H _]|H]).
    + now apply (alpha_head w).
    + destruct H as [<-|[<-|[<-|[]]]]; discriminate.
Qed.

(** X18.  From a cache filled by earlier loads and with both vocabularies
    loadable, [hybrid_haze] returns, and every record is of one of two
    kinds: "translate", with the translation of the match in vocabulary B,
    when that translation neither starts with the failure marker nor
    repeats the match; or "fuzzy_fallback", with the nearest match in
    vocabulary A.  In neither case does the transformed word start with
    "[untranslated:": unlike the translate method, the hybrid method never
    hands the marker on. *)
Theorem hybrid_haze_word_outcomes (E : env) (sentence la lb : str) (c : cache)
    (va vb : list str) :
  cache_ok E c ->
  fst (load_word_list E la c) = Return va ->
  fst (load_word_list E lb c) = Return vb ->
  exists r c',
    hybrid_haze E sentence la lb c = (Return r, c')
    /\ Forall (hybrid_detail_ok E la lb va vb) (sr_word_transformations r).
Proof.
  intros Hc Ha Hb.
  destruct (hybrid_haze_spec E sentence la lb c va vb Ha Hb)
    as (r & c' & Hr & _ & _ & _ & Hall).
  exists r, c'. split; [exact Hr|].
  induction Hall as [|item d items ds Hd Hall IH]; [constructor|].
  constructor; [|exact IH].
  destruct Hd as (Ho & Hmeth & h & Hspec & Ht & _ & Hf).
  destruct Hspec as (_ & _ & Hspec). cbv zeta in Hspec.
  unfold hybrid_detail_ok. cbv zeta. rewrite Ho, Hf, Ht.
  destruct (translation_failed _ _) eqn:Hfail.
  - destruct Hspec as (H1 & H2 & _). rewrite H1, H2.
    split; [right; auto|]. split; [|exact Hmeth].
    destruct (find_never_echoes E (fst (find_most_similar_word E item vb true)) va)
      as [->|[Hin _]]; [reflexivity|].
    apply (loaded_word_is_no_marker E la c va); assumption.
  - destruct Hspec as (H1 & H2 & _). rewrite H1, H2.
    split; [left; auto|]. split; [|exact Hmeth].
    unfold translation_failed in Hfail. apply orb_false_iff in Hfail as [Hm _].
    exact Hm.
Qed.

Lemma hybrid_haze_word_outcomes_witness :
  exists r c',
    hybrid_haze offline (U "hello world") (U "english") (U "spanish") ∅ = (Return r, c')
    /\ Forall (hybrid_detail_ok offline (U "english") (U "spanish")
                 (map U english_words) (map U spanish_words))
         (sr_word_transformations r).
Proof.
  apply (hybrid_haze_word_outcomes offline (U "hello world") (U "english")
           (U "spanish") ∅).
  - apply cache_ok_empty.
  - reflexivity.
  - reflexivity.
Defined.

(** ** Convergence loop *)

(** X19.  With a cap of zero or less [rehaze] runs nothing: no vocabulary is
    loaded and no error raised whatever the languages, the cache stays as it
    was, there is no iteration, [final_text] is empty,
    [final_iteration_text] is the initial text, and [converged] is false. *)
Theorem rehaze_without_iterations (E : env) (text la lb : str) (n : Z) (thr : Q)
    (c : cache) :
  (n <= 0)%Z ->
  rehaze E text la lb n thr c
  = (Return {| cr_initial_text := text;
               cr_final_text := [];
               cr_final_iteration_text := text;
               cr_iterations := [];
               cr_total_iterations := 0;
               cr_converged := false;
               cr_final_similarity := 0;
               cr_language_route := la ++ U " ↔ " ++ lb;
               cr_parameters := (n, thr) |}, c).
Proof.
  intros Hn. destruct n as [|p|p]; [reflexivity | lia | reflexivity].
Qed.

Lemma rehaze_without_iterations_witness :
  fst (rehaze offline (U "hello") (U "klingon") (U "elvish") 0 0 ∅)
  = Return {| cr_initial_text := U "hello";
              cr_final_text := [];
              cr_final_iteration_text := U "hello";
              cr_iterations := [];
              cr_total_iterations := 0;
              cr_converged := false;
              cr_final_similarity := 0;
              cr_language_route := U "klingon" ++ U " ↔ " ++ U "elvish";
              cr_parameters := (0%Z, 0%Q) |}.
Proof.
  rewrite (rehaze_without_iterations offline (U "hello") (U "klingon") (U "elvish")
             0 0 ∅); [reflexivity | lia].
Defined.

Lemma rehaze_loop_chained (E : env) (la lb : str) (thr : Q) (todo : nat) :
  forall i cur its c cur' its' c',
  rehaze_loop E la lb thr todo i cur its c = (Return (cur', its'), c') ->
  exists new, its' = its ++ new
    /\ (length new <= todo)%nat
    /\ chained E la lb i cur new.
Proof.
  induction todo as [|todo IH]; intros i cur its c cur' its' c' H;
    cbn [rehaze_loop] in H.
  - inversion H; subst. exists []. rewrite app_nil_r. simpl. auto.
  - apply bind_inv in H as (r & c1 & Hr & H). cbv zeta in H.
    destruct (Qle_bool thr _).
    + inversion H; subst. eexists [_]. split; [reflexivity|].
      split; [simpl; lia|]. simpl.
      split; [reflexivity|]. split; [reflexivity|].
      split; [do 3 eexists; split; [exact Hr | split; reflexivity]|]. split; [reflexivity | exact I].
    + apply IH in H as (new & -> & Hlen & Hch).
      eexists (_ :: new). rewrite <- app_assoc. split; [reflexivity|].
      split; [simpl; lia|]. simpl.
      split; [reflexivity|]. split; [reflexivity|].
      split; [do 3 eexists; split; [exact Hr | split; reflexivity]|]. split; [reflexivity | exact Hch].
Qed.

(** X20.  Whenever [rehaze] returns, its iteration records are numbered 1,
    2, ... without a gap; the first takes the initial text as input and
    each later one the output of the one before; each holds the records of
    [hybrid_haze] on its input and, as output, that call's sentence after
    the clean-up; and there are no more records than the cap allows. *)
Theorem rehaze_iterations_chain (E : env) (text la lb : str) (n : Z) (thr : Q)
    (c c' : cache) (r : convergence_result) :
  rehaze E text la lb n thr c = (Return r, c') ->
  chained E la lb 0 text (cr_iterations r)
  /\ cr_total_iterations r = length (cr_iterations r)
  /\ (Z.of_nat (cr_total_iterations r) <= Z.max 0 n)%Z
  /\ cr_initial_text r = text
  /\ cr_parameters r = (n, thr).
Proof.
  intros H. unfold rehaze in H.
  apply bind_inv in H as ([cur its] & c1 & Hl & H).
  apply rehaze_loop_chained in Hl as (new & -> & Hlen & Hch).
  inversion H; subst. simpl. splits; auto. lia.
Qed.

Lemma rehaze_iterations_chain_witness :
  exists r,
    fst (rehaze offline (U "xyz") (U "english") (U "spanish") 3 1 ∅) = Return r
    /\ chained offline (U "english") (U "spanish") 0 (U "xyz") (cr_iterations r)
    /\ cr_total_iterations r = length (cr_iterations r).
Proof.
  destruct (rehaze offline (U "xyz") (U "english") (U "spanish") 3 1 ∅)
    as [[e|r] c'] eqn:Hr; [vm_compute in Hr; discriminate|].
  exists r. split; [reflexivity|].
  destruct (rehaze_iterations_chain offline (U "xyz") (U "english") (U "spanish")
              3 1 ∅ c' r Hr) as (H1 & H2 & _).
  split; [exact H1 | exact H2].
Defined.

(** ** The wrapper class and the web layer *)

(** X21.  [process_text] never returns a transformation: for a text that is
    empty or whitespace it reports "Empty text provided", and for any other
    text the call of [hybrid_haze] with the keyword [method], which that
    function does not take, raises before the engine runs, so the reply is
    the error "Processing failed: ..." and no vocabulary is loaded. *)
Theorem process_text_never_succeeds (E : env) (text : str) (c : cache) :
  (strip text = []
   /\ process_text E text c = (Return (error (U "Empty text provided")), c))
  \/ (strip text <> []
      /\ process_text E text c
         = (Return (error_str (U "Processing failed: ")
                      (TypeError (unexpected_keyword_message
                                    (U "Hazer.hybrid_haze") (U "method")))), c)).
Proof.
  unfold process_text. destruct (strip text) as [|x s] eqn:Hs.
  - left. split; reflexivity.
  - right. split; [discriminate | reflexivity].
Qed.

Lemma languages_supported (l : str) :
  in_LANGUAGES l = true ->
  exists ws, dict_lookup (lower l) sample_words = Some ws.
Proof.
  unfold in_LANGUAGES. destruct (dict_lookup l LANGUAGES) as [name|] eqn:Hl; [|discriminate].
  intros _. apply dict_lookup_In in Hl.
  repeat (destruct Hl as [Hl|Hl]; [inversion Hl; subst; eexists; reflexivity|]).
  destruct Hl.
Qed.

Lemma format_results_shape (res : sentence_result) (input_text : str) :
  let f := format_results_for_template res input_text in
  fr_original_text f = input_text
  /\ map pw_original (fr_processed_words f) = map wd_original (sr_word_transformations res)
  /\ fr_total_variations f = (2 * length (sr_word_transformations res))%nat
  /\ Forall (fun p => exists t,
               map vr_text (pw_variations p) = [pw_original p; t]
               /\ map vr_similarity (pw_variations p) = [1%Q; (8 # 10)%Q])
       (fr_processed_words f).
Proof.
  cbv zeta. unfold format_results_for_template. cbn. splits.
  - reflexivity.
  - rewrite map_map. reflexivity.
  - rewrite length_map. lia.
  - apply Forall_forall. intros p Hp. apply list_elem_of_In, in_map_iff in Hp as (d & <- & _).
    eexists. split; reflexivity.
Qed.

Lemma object_truthy (d : gmap str json) (k : str) (v : json) :
  d !! k = Some v -> truthy (map_to_list d) = true.
Proof.
  intros H. apply truthy_true. intros Hn. apply map_to_list_empty_iff in Hn.
  subst d. rewrite lookup_empty in H. discriminate.
Qed.

Lemma is_str_In (s : str) (l : list json) :
  existsb (is_str s) l = true <-> In (JString s) l.
Proof.
  rewrite existsb_exists. split.
  - intros (v & Hv & His). destruct v; simpl in His; try discriminate.
    unfold str_eqb in His. apply bool_decide_eq_true in His. now subst.
  - intros H. exists (JString s). split; [exact H|].
    simpl. unfold str_eqb. now apply bool_decide_eq_true_2.
Qed.

Lemma container_unhashable (value : json) :
  container value -> LANGUAGES_member value = unhashable.
Proof. intros [[l ->]|[d ->]]; reflexivity. Qed.

Lemma no_language_absent (value : json) :
  no_language value -> LANGUAGES_member value = absent.
Proof.
  intros [Hc Hs]. destruct value; try reflexivity.
  - simpl. now rewrite (Hs s eq_refl).
  - destruct Hc. left. eauto.
  - destruct Hc. right. eauto.
Qed.

Lemma language_present (value : json) (lang : str) :
  value = JString lang -> in_LANGUAGES lang = true ->
  LANGUAGES_member value = present lang.
Proof. intros -> H. simpl. now rewrite H. Qed.

(** The checks of the text, passed. *)
Ltac pass_text H :=
  let text := fresh "text" in
  let Ht := fresh "Ht" in
  let Hs := fresh "Hs" in
  let Hl := fresh "Hl" in
  destruct H as (text & Ht & Hs & Hl);
  unfold api_fuzz; cbn [json_truthy];
  rewrite (object_truthy _ _ _ Ht); cbn [negb];
  rewrite Ht; cbv zeta;
  apply truthy_true in Hs; rewrite Hs; cbn [negb];
  apply Nat.ltb_ge in Hl; rewrite Hl.

(** A refused request is answered with status 400 and the engine is not
    touched. *)
Lemma api_fuzz_refuses (E : env) (body : get_json) (msg : str) (c : cache) :
  invalid body msg -> api_fuzz E body c = (Return (error msg, 400), c).
Proof.
  intros H. destruct H as [data H|d H|l H|s H|d text Ht H|d text Ht H|d Hp H
                           |d la Hp Ha Hin H|d lang Hp Ha Hb Hin].
  - unfold api_fuzz. rewrite H. reflexivity.
  - unfold api_fuzz. destruct (json_truthy (JObject d)); [|reflexivity].
    cbn [negb]. rewrite H. reflexivity.
  - unfold api_fuzz. destruct (json_truthy (JArray l)); [|reflexivity].
    cbn [negb]. destruct (existsb (is_str (U "text")) l) eqn:He; [|reflexivity].
    apply is_str_In in He. contradiction.
  - unfold api_fuzz. destruct (json_truthy (JString s)); [|reflexivity].
    cbn [negb]. rewrite H. reflexivity.
  - unfold api_fuzz. cbn [json_truthy]. rewrite (object_truthy _ _ _ Ht).
    cbn [negb]. rewrite Ht. cbv zeta. rewrite H. reflexivity.
  - unfold api_fuzz. cbn [json_truthy]. rewrite (object_truthy _ _ _ Ht).
    cbn [negb]. rewrite Ht. cbv zeta.
    destruct (strip text) as [|x rest] eqn:Hs; [simpl in H; lia|].
    cbn [truthy negb]. apply Nat.ltb_lt in H. rewrite H. reflexivity.
  - pass_text Hp. rewrite (no_language_absent _ H). reflexivity.
  - pass_text Hp. rewrite (language_present _ _ Ha Hin), (no_language_absent _ H).
    reflexivity.
  - pass_text Hp.
    rewrite (language_present _ _ Ha Hin), (language_present _ _ Hb Hin).
    unfold str_eqb. rewrite bool_decide_eq_true_2 by reflexivity. reflexivity.
Qed.

(** A request for which a step before the engine raises is answered with
    status 500 and the engine is not touched. *)
Lemma api_fuzz_catches (E : env) (body : get_json) (e : str) (c : cache) :
  handler_raises body e ->
  api_fuzz E body c = (Return (error_str [] (Raised e), 500), c).
Proof.
  intros H. destruct H as [e| |q H|s H|l H|d value Ht H|d Hp H|d la Hp Ha Hin H].
  - reflexivity.
  - reflexivity.
  - unfold api_fuzz. cbn [json_truthy].
    destruct (Qeq_bool q 0) eqn:Hq; [apply Qeq_bool_iff in Hq; contradiction|].
    reflexivity.
  - unfold api_fuzz. cbn [json_truthy].
    destruct s as [|x s]; [discriminate|]. cbn [truthy negb]. rewrite H. reflexivity.
  - unfold api_fuzz. cbn [json_truthy].
    destruct l as [|x l]; [destruct H|]. cbn [truthy negb].
    apply is_str_In in H. rewrite H. reflexivity.
  - unfold api_fuzz. cbn [json_truthy]. rewrite (object_truthy _ _ _ Ht).
    cbn [negb]. rewrite Ht. destruct value; try reflexivity.
    exfalso. eapply H. reflexivity.
  - pass_text Hp. rewrite (container_unhashable _ H). reflexivity.
  - pass_text Hp. rewrite (language_present _ _ Ha Hin), (container_unhashable _ H).
    reflexivity.
Qed.

(** The engine returns for two languages of [LANGUAGES], whatever the
    method. *)
Lemma hazer_call_returns (E : env) (input la lb : str) (method : json) (c : cache) :
  in_LANGUAGES la = true -> in_LANGUAGES lb = true ->
  exists res c',
    hazer_call E input la lb method c = (Return res, c')
    /\ rebuilt E input la res
    /\ fr_method (echo method (format_results_for_template res input))
       = method_shown method.
Proof.
  intros Ha Hb.
  destruct (languages_supported _ Ha) as [wa Hwa].
  destruct (languages_supported _ Hb) as [wb Hwb].
  destruct (supported_language_loads E _ c _ Hwa) as [va Hva].
  destruct (supported_language_loads E _ c _ Hwb) as [vb Hvb].
  assert (Hother : exists res c',
             haze E input la lb (U "translate") c = (Return res, c')
             /\ rebuilt E input la res).
  { destruct (haze_returns E input la lb (U "translate") c va vb Hva Hvb)
      as (res & c' & Hr & _).
    exists res, c'. split; [exact Hr|]. eapply haze_rebuilt, Hr. }
  destruct method as [|b|q|m|l|d]; cbn [hazer_call echo method_shown fr_method];
    try solve [destruct Hother as (res & c' & Hr & Hre); exists res, c'; auto].
  destruct (str_eqb m (U "hybrid")).
  - destruct (hybrid_haze_spec E input la lb c va vb Hva Hvb) as (res & c' & Hr & _).
    exists res, c'. split; [exact Hr|].
    destruct (hybrid_haze_rebuilt _ _ _ _ _ _ _ Hr) as [Hre Hm].
    split; [exact Hre|].
    unfold format_results_for_template. cbn [fr_method]. now rewrite Hm.
  - destruct (haze_returns E input la lb m c va vb Hva Hvb) as (res & c' & Hr & _).
    exists res, c'. split; [exact Hr|].
    destruct (haze_rebuilt _ _ _ _ _ _ _ _ Hr) as [Hre Hm].
    split; [exact Hre|].
    unfold format_results_for_template. cbn [fr_method]. now rewrite Hm.
Qed.

(** What [api_fuzz] does with a request it lets through. *)
Lemma api_fuzz_accepts (E : env) (body : get_json) (text la lb : str) (method : json)
    (c : cache) :
  accepted body text la lb method ->
  exists res c',
    hazer_call E (strip text) la lb method c = (Return res, c')
    /\ api_fuzz E body c
       = (Return (results (echo method (format_results_for_template res (strip text))),
                  200), c')
    /\ rebuilt E (strip text) la res
    /\ fr_method (echo method (format_results_for_template res (strip text)))
       = method_shown method.
Proof.
  intros (d & -> & Ht & Hs & Hl & Hla & Hlb & Ha & Hb & Hne & ->).
  destruct (hazer_call_returns E (strip text) la lb
              (default (JString (U "fuzzy")) (d !! U "method")) c Ha Hb)
    as (res & c' & Hr & Hre & Hm).
  exists res, c'. split; [exact Hr|]. split; [|split; assumption].
  unfold api_fuzz. cbn [json_truthy]. rewrite (object_truthy _ _ _ Ht).
  cbn [negb]. rewrite Ht. cbv zeta.
  apply truthy_true in Hs. rewrite Hs. cbn [negb].
  apply Nat.ltb_ge in Hl. rewrite Hl.
  rewrite (language_present _ _ Hla Ha), (language_present _ _ Hlb Hb).
  unfold str_eqb. rewrite bool_decide_eq_false_2 by exact Hne.
  now rewrite Hr.
Qed.

(** Every request is let through, refused, or makes a step raise. *)
Lemma api_fuzz_request_cases (body : get_json) :
  (exists text la lb method, accepted body text la lb method)
  \/ (exists msg, invalid body msg)
  \/ (exists e, handler_raises body e).
Proof.
  destruct body as [e|data]; [right; right; eexists; constructor|].
  destruct data as [|b|q|s|l|d].
  - right; left. eexists. now apply invalid_falsy.
  - destruct b.
    + right; right. eexists. constructor.
    + right; left. eexists. now apply invalid_falsy.
  - destruct (Qeq_bool q 0) eqn:Hq.
    + right; left. eexists. apply invalid_falsy. simpl. now rewrite Hq.
    + right; right. eexists. apply raises_in_number. now apply Qeq_bool_neq.
  - destruct (contains (U "text") s) eqn:Hc.
    + right; right. eexists. now apply raises_subscript_str.
    + right; left. eexists. now apply invalid_not_in_str.
  - destruct (existsb (is_str (U "text")) l) eqn:He.
    + right; right. eexists. apply raises_subscript_list. now apply is_str_In.
    + right; left. eexists. apply invalid_not_in_list. intros Hin.
      apply is_str_In in Hin. congruence.
  - destruct (d !! U "text") as [value|] eqn:Ht;
      [|right; left; eexists; now apply invalid_no_key].
    assert (Hv : (exists text, value = JString text) \/ forall s, value <> JString s).
    { destruct value; try (right; discriminate). left. eauto. }
    destruct Hv as [[text ->]|Hv];
      [|right; right; eexists; eapply raises_strip; eassumption].
    destruct (strip text) as [|x rest] eqn:Hs.
    { right; left. eexists. eapply invalid_blank; eassumption. }
    destruct (le_lt_dec (length (strip text)) 5000) as [Hl|Hl].
    2:{ right; left. eexists. eapply invalid_long; eassumption. }
    assert (Hp : text_passes d).
    { exists text. split; [exact Ht|]. split; [rewrite Hs; discriminate | exact Hl]. }
    assert (Hcases : forall value,
               container value \/ no_language value
               \/ exists lang, value = JString lang /\ in_LANGUAGES lang = true).
    { intros v. destruct v as [|b|q|s|l|d'].
      - right; left. split; [intros [[? ?]|[? ?]]; discriminate | discriminate].
      - right; left. split; [intros [[? ?]|[? ?]]; discriminate | discriminate].
      - right; left. split; [intros [[? ?]|[? ?]]; discriminate | discriminate].
      - destruct (in_LANGUAGES s) eqn:Hin.
        + right; right. eauto.
        + right; left. split; [intros [[? ?]|[? ?]]; discriminate|].
          intros s' Heq. inversion Heq; subst. exact Hin.
      - left. left. eauto.
      - left. right. eauto. }
    destruct (Hcases (default (JString (U "english")) (d !! U "lang_a")))
      as [Ha|[Ha|(la & Hla & Ha)]].
    { right; right. eexists. eapply raises_hash_a; eassumption. }
    { right; left. eexists. eapply invalid_lang_a; eassumption. }
    destruct (Hcases (default (JString (U "spanish")) (d !! U "lang_b")))
      as [Hb|[Hb|(lb & Hlb & Hb)]].
    { right; right. eexists. eapply raises_hash_b; eassumption. }
    { right; left. eexists. eapply invalid_lang_b; eassumption. }
    destruct (decide (la = lb)) as [->|Hne].
    { right; left. eexists. eapply invalid_same; eassumption. }
    left. exists text, la, lb, (default (JString (U "fuzzy")) (d !! U "method")).
    exists d. splits; auto. rewrite Hs. discriminate.
Qed.

Ltac clash :=
  match goal with
  | H1 : api_fuzz ?E ?b ?c = _, H2 : api_fuzz ?E ?b ?c = _ |- _ =>
    rewrite H1 in H2; inversion H2
  end.

(** X22.  [api_fuzz] answers every request, with status 200, 400 or 500.
    The status is 200, with results, exactly for a request whose body is an
    object with a text that is a string, not blank and at most 5000
    characters long when stripped, and with two different languages of
    [LANGUAGES], english and spanish being the defaults: the six languages
    all have an embedded vocabulary, so the engine does not raise.  The
    status is 400, with a message and an untouched engine, exactly for a
    body that is empty, has no text, a blank or too long text, a language
    that is not in [LANGUAGES], or twice the same language.  The status is
    500, with an untouched engine, exactly when a step before the engine
    raises: [get_json] for a body that is not JSON, the test for the text or
    its subscript for a body that is no object, [strip] for a text that is
    no string, the membership test for a language that is a list or an
    object.  The error of a 500 is never one of the engine. *)
Theorem api_fuzz_status (E : env) (body : get_json) (c : cache) :
  exists rep status c',
    api_fuzz E body c = (Return (rep, status), c')
    /\ (status = 200 \/ status = 400 \/ status = 500)
    /\ (status = 200 <-> exists text la lb method, accepted body text la lb method)
    /\ (status = 400 <-> exists msg, invalid body msg)
    /\ (status = 500 <-> exists e, handler_raises body e)
    /\ (status = 200 -> exists f, rep = results f)
    /\ (status = 400 -> c' = c /\ exists msg, invalid body msg /\ rep = error msg)
    /\ (status = 500 ->
        c' = c /\ exists e, handler_raises body e /\ rep = error_str [] (Raised e)).
Proof.
  destruct (api_fuzz_request_cases body)
    as [(text & la & lb & method & Hacc)|[(msg & Hinv)|(e & Hr)]].
  - destruct (api_fuzz_accepts E body text la lb method c Hacc)
      as (res & c' & _ & Heq & _).
    eexists _, _, c'. split; [exact Heq|]. split; [now left|].
    split; [split; eauto|].
    split; [split; [discriminate|]|].
    { intros (msg' & H'). apply (api_fuzz_refuses E _ _ c) in H'. clash. }
    split; [split; [discriminate|]|].
    { intros (e' & H'). apply (api_fuzz_catches E _ _ c) in H'. clash. }
    split; [eauto|]. split; discriminate.
  - pose proof (api_fuzz_refuses E _ _ c Hinv) as Heq.
    eexists _, _, c. split; [exact Heq|]. split; [now right; left|].
    split; [split; [discriminate|]|].
    { intros (text & la & lb & method & H').
      destruct (api_fuzz_accepts E _ _ _ _ _ c H') as (res & c' & _ & H'' & _). clash. }
    split; [split; eauto|].
    split; [split; [discriminate|]|].
    { intros (e' & H'). apply (api_fuzz_catches E _ _ c) in H'. clash. }
    split; [discriminate|]. split; [eauto | discriminate].
  - pose proof (api_fuzz_catches E _ _ c Hr) as Heq.
    eexists _, _, c. split; [exact Heq|]. split; [now right; right|].
    split; [split; [discriminate|]|].
    { intros (text & la & lb & method & H').
      destruct (api_fuzz_accepts E _ _ _ _ _ c H') as (res & c' & _ & H'' & _). clash. }
    split; [split; [discriminate|]|].
    { intros (msg' & H'). apply (api_fuzz_refuses E _ _ c) in H'. clash. }
    split; [split; eauto|].
    split; [discriminate|]. split; [discriminate | eauto].
Qed.

(** The bodies that the handler answers with status 500. *)
Example api_fuzz_text_is_a_number :
  api_fuzz offline (get_json_returns (JObject {[ U "text" := JNumber 5 ]})) ∅
  = (Return (error_str [] (Raised (U "AttributeError")), 500), ∅).
Proof. vm_compute. reflexivity. Qed.

Example api_fuzz_text_is_null :
  api_fuzz offline (get_json_returns (JObject {[ U "text" := JNull ]})) ∅
  = (Return (error_str [] (Raised (U "AttributeError")), 500), ∅).
Proof. vm_compute. reflexivity. Qed.

Example api_fuzz_body_is_a_number :
  api_fuzz offline (get_json_returns (JNumber 7)) ∅
  = (Return (error_str [] (Raised (U "TypeError")), 500), ∅).
Proof. vm_compute. reflexivity. Qed.

Example api_fuzz_body_is_a_list :
  api_fuzz offline (get_json_returns (JArray [JString (U "text")])) ∅
  = (Return (error_str [] (Raised (U "TypeError")), 500), ∅).
Proof. vm_compute. reflexivity. Qed.

Example api_fuzz_language_is_a_list :
  api_fuzz offline
    (get_json_returns (JObject (<[ U "lang_a" := JArray [] ]> {[ U "text" := JString (U "hello") ]})))
    ∅
  = (Return (error_str [] (Raised (U "TypeError")), 500), ∅).
Proof. vm_compute. reflexivity. Qed.

Example api_fuzz_body_is_not_json :
  api_fuzz offline (get_json_raises (U "BadRequest")) ∅
  = (Return (error_str [] (Raised (U "BadRequest")), 500), ∅).
Proof. reflexivity. Qed.

(** X23.  The results of an accepted [api_fuzz] request describe the
    stripped text: one processed word per word token, in order, each with
    two variations (the original at 1.0 and the transformed word at 0.8);
    [word_count] is the number of word tokens and [total_variations] twice
    that; the method is echoed, "hybrid" being reported as
    "fuzzy_then_translate" and a missing method being "fuzzy". *)
Theorem api_fuzz_results (E : env) (body : get_json) (c c' : cache) (f : formatted)
    (status : N) :
  api_fuzz E body c = (Return (results f, status), c') ->
  exists d text,
    body = get_json_returns (JObject d)
    /\ d !! U "text" = Some (JString text)
    /\ status = 200
    /\ fr_original_text f = strip text
    /\ map pw_original (fr_processed_words f)
       = List.filter match_word (findall_tokens (strip text))
    /\ fr_word_count f = length (List.filter match_word (findall_tokens (strip text)))
    /\ fr_total_variations f = (2 * fr_word_count f)%nat
    /\ Forall (fun p => exists t,
                 map vr_text (pw_variations p) = [pw_original p; t]
                 /\ map vr_similarity (pw_variations p) = [1%Q; (8 # 10)%Q])
         (fr_processed_words f)
    /\ fr_method f = method_shown (default (JString (U "fuzzy")) (d !! U "method")).
Proof.
  intros H.
  destruct (api_fuzz_request_cases body)
    as [(text & la & lb & method & Hacc)|[(msg & Hinv)|(e & Hr)]].
  - destruct (api_fuzz_accepts E body text la lb method c Hacc)
      as (res & c1 & _ & Heq & Hreb & Hm).
    rewrite Heq in H. inversion H; subst f status c1. clear H.
    destruct Hacc as (d & -> & Ht & _ & _ & _ & _ & _ & _ & _ & ->).
    exists d, text. split; [reflexivity|]. split; [exact Ht|]. split; [reflexivity|].
    destruct (format_results_shape res (strip text)) as (H1 & H2 & H3 & H4).
    destruct Hreb as (_ & Ho & Hn & _).
    set (method := default (JString (U "fuzzy")) (d !! U "method")) in *.
    assert (Hecho : forall g,
               fr_original_text (echo method g) = fr_original_text g
               /\ fr_processed_words (echo method g) = fr_processed_words g
               /\ fr_word_count (echo method g) = fr_word_count g
               /\ fr_total_variations (echo method g) = fr_total_variations g).
    { intros g. destruct method; auto. }
    destruct (Hecho (format_results_for_template res (strip text)))
      as (E1 & E2 & E3 & E4).
    rewrite E1, E2, E3, E4.
    change (fr_word_count (format_results_for_template res (strip text)))
      with (sr_word_count res).
    split; [exact H1|]. split; [now rewrite H2|]. split; [exact Hn|].
    split; [rewrite H3, Hn, <- Ho, length_map; reflexivity|].
    split; [exact H4 | exact Hm].
  - rewrite (api_fuzz_refuses E _ _ c Hinv) in H. discriminate.
  - rewrite (api_fuzz_catches E _ _ c Hr) in H. discriminate.
Qed.

Lemma api_fuzz_results_witness :
  exists f c',
    api_fuzz offline
      (get_json_returns
         (JObject (<[ U "method" := JString (U "hybrid") ]>
                     {[ U "text" := JString (U "  hello world ") ]}))) ∅
    = (Return (results f, 200), c')
    /\ fr_original_text f = U "hello world"
    /\ fr_word_count f = 2%nat
    /\ fr_total_variations f = 4%nat
    /\ fr_method f = JString (U "fuzzy_then_translate").
Proof.
  set (d := <[ U "method" := JString (U "hybrid") ]>
              ({[ U "text" := JString (U "  hello world ") ]} : gmap str json)).
  assert (Hacc : accepted (get_json_returns (JObject d)) (U "  hello world ")
                   (U "english") (U "spanish") (JString (U "hybrid"))).
  { exists d. splits; try reflexivity; try (vm_compute; discriminate).
    vm_compute. lia. }
  destruct (api_fuzz_accepts offline _ _ _ _ _ ∅ Hacc) as (res & c' & _ & Ha & _).
  destruct (api_fuzz_results offline _ ∅ c' _ 200 Ha)
    as (d' & text & Hd & Ht & _ & H1 & _ & H3 & H4 & _ & H6).
  inversion Hd; subst d'.
  assert (Htext : text = U "  hello world ").
  { assert (Hk : d !! U "text" = Some (JString (U "  hello world "))) by reflexivity.
    rewrite Hk in Ht. now inversion Ht. }
  subst text.
  eexists _, c'. split; [exact Ha|].
  split; [exact H1|]. split; [exact H3|]. split; [|exact H6].
  rewrite H4, H3. reflexivity.
Defined.
